(** * simple-markdown: the rule-driven parser and its output stage

    A shallow embedding of [src/simple-markdown.jsx]: the backtracking
    regular expressions the rules are written with, [parserFor],
    [outputFor], [ruleOutput] and [defaultRules] (with the list item
    segmentation of [defaultRules.list.parse]), followed by the properties
    of the parsing engine.

    JavaScript strings are modelled as [string] (characters are the 8-bit
    [ascii] code units); numbers that are subtracted are in [Z]. *)

From Stdlib Require Import ZArith Ascii String DecimalString.
From stdpp Require Import base option list gmap strings.

Open Scope string_scope.
Open Scope list_scope.
Open Scope nat_scope.

(** ** Characters and strings *)

Definition LF : ascii := "010"%char.
Definition CR : ascii := "013"%char.

Abbreviation chars := list_ascii_of_string.
Abbreviation str := string_of_list_ascii.

(** JavaScript escapes inside a Rocq literal: [js "a\n"] is the two
    characters [a] and line feed; [\\] is one backslash. *)
Fixpoint unescape (l : list ascii) : list ascii :=
  match l with
  | "\"%char :: "n"%char :: t => LF :: unescape t
  | "\"%char :: "\"%char :: t => "\"%char :: unescape t
  | c :: t => c :: unescape t
  | [] => []
  end.

Definition js (s : string) : string := str (unescape (chars s)).

(** [s.substring(n)] for [0 <= n]. *)
Definition substring_from (n : nat) (s : string) : string :=
  str (drop n (chars s)).

(** ** Regular expressions

    The subset of ECMAScript patterns used by the source, with the
    backtracking semantics of ES5 section 15.10.2. *)

Module RegExp.

(** One item of a character class. *)
Inductive citem :=
| CChar (c : ascii)          (* a literal character *)
| CSpace                     (* \s *)
| CNonSpace                  (* \S *)
| CDigit.                    (* \d *)

Inductive re :=
| Empty
| Class (negated : bool) (items : list citem)   (* [...] and [^...] *)
| Seq (a b : re)
| Alt (a b : re)                             (* a|b *)
| Rep (greedy : bool) (min : nat) (max : option nat) (a : re)
| Group (n : nat) (a : re)                   (* capturing parentheses *)
| Backref (n : nat)                             (* \n *)
| Look (positive : bool) (a : re)            (* (?=a) and (?!a) *)
| Bol                                           (* ^ *)
| Eol                                           (* $ *)
| WordB.                                        (* \b *)

(** Abbreviations for the usual surface syntax. *)
Definition Chr (c : ascii) : re := Class false [CChar c].
Definition OneOf (s : string) : re := Class false (CChar <$> chars s).
Definition NoneOf (s : string) : re := Class true (CChar <$> chars s).
Definition Star (a : re) : re := Rep true 0 None a.
Definition Plus (a : re) : re := Rep true 1 None a.
Definition Opt (a : re) : re := Rep true 0 (Some 1) a.
Definition LazyStar (a : re) : re := Rep false 0 None a.
Definition LazyPlus (a : re) : re := Rep false 1 None a.
Definition AtLeast (n : nat) (a : re) : re := Rep true n None a.
Definition Between (n k : nat) (a : re) : re := Rep true n (Some k) a.

Fixpoint lit_chars (l : list ascii) : re :=
  match l with
  | [] => Empty
  | [c] => Chr c
  | c :: t => Seq (Chr c) (lit_chars t)
  end.
Definition Lit (s : string) : re := lit_chars (chars s).
Definition Any : re := Class false [CSpace; CNonSpace].     (* [\s\S] *)
Definition Space : re := Class false [CSpace].              (* \s *)
Definition NonSpace : re := Class false [CNonSpace].        (* \S *)
Definition Digit : re := Class false [CDigit].              (* \d *)

Fixpoint Cat (l : list re) : re :=
  match l with
  | [] => Empty
  | [a] => a
  | a :: t => Seq a (Cat t)
  end.

Definition is_space (c : ascii) : bool :=
  let n := nat_of_ascii c in
  bool_decide (n = 9 ∨ n = 10 ∨ n = 11 ∨ n = 12 ∨ n = 13 ∨ n = 32 ∨ n = 160)%nat.

Definition is_digit (c : ascii) : bool :=
  let n := nat_of_ascii c in bool_decide (48 ≤ n ≤ 57)%nat.

Definition is_word (c : ascii) : bool :=
  let n := nat_of_ascii c in
  bool_decide (48 ≤ n ≤ 57 ∨ 65 ≤ n ≤ 90 ∨ 97 ≤ n ≤ 122 ∨ n = 95)%nat.

Definition is_line_terminator (c : ascii) : bool :=
  bool_decide (c = LF ∨ c = CR).

Definition citem_match (i : citem) (c : ascii) : bool :=
  match i with
  | CChar d => bool_decide (c = d)
  | CSpace => is_space c
  | CNonSpace => negb (is_space c)
  | CDigit => is_digit c
  end.

Definition class_match (negated : bool) (items : list citem) (c : ascii) : bool :=
  xorb negated (existsb (λ i, citem_match i c) items).

(** The numbers of the capturing groups of a pattern, left to right. *)
Fixpoint groups (r : re) : list nat :=
  match r with
  | Seq a b | Alt a b => groups a ++ groups b
  | Rep _ _ _ a | Look _ a => groups a
  | Group n a => n :: groups a
  | _ => []
  end.

(** A state of the matcher: the character before the current position
    (for [^] and [\b]), the input from the current position on, and the
    captures array. *)
Record mstate := MState {
  prev : option ascii;
  rest : list ascii;
  caps : list (option string)
}.

Definition cont := mstate → option mstate.

Definition last_of (p : option ascii) (l : list ascii) : option ascii :=
  match last l with Some c => Some c | None => p end.

(** Move over the first [n] characters of the remaining input. *)
Definition advance (n : nat) (x : mstate) : mstate :=
  MState (last_of (prev x) (take n (rest x))) (drop n (rest x)) (caps x).

Definition set_cap (n : nat) (v : option string) (x : mstate) : mstate :=
  MState (prev x) (rest x) (<[n := v]> (caps x)).

Definition reset_caps (gs : list nat) (x : mstate) : mstate :=
  foldr (λ n y, set_cap n None y) x gs.

Definition at_bol (multiline : bool) (x : mstate) : bool :=
  match prev x with
  | None => true
  | Some c => multiline && is_line_terminator c
  end.

Definition at_eol (multiline : bool) (x : mstate) : bool :=
  match rest x with
  | [] => true
  | c :: _ => multiline && is_line_terminator c
  end.

Definition at_word_boundary (x : mstate) : bool :=
  let a := from_option is_word false (prev x) in
  let b := from_option is_word false (head (rest x)) in
  xorb a b.

Definition starts_with (p l : list ascii) : bool :=
  bool_decide (take (length p) l = p).

(** RepeatMatcher of ES5 15.10.2.5. Every call either lowers [min] or
    moves forward in the input, so [min + length (rest x) + 1] calls
    suffice; [fuel] counts them. *)
Fixpoint repeat_matcher (ma : mstate → cont → option mstate) (gs : list nat)
    (greedy : bool) (fuel min : nat) (max : option nat)
    (x : mstate) (c : cont) {struct fuel} : option mstate :=
  match fuel with
  | 0 => None
  | S fuel' =>
    if bool_decide (max = Some 0) then c x else
    let d : cont := λ y,
      if bool_decide (min = 0) && bool_decide (length (rest y) = length (rest x))
      then None
      else repeat_matcher ma gs greedy fuel' (pred min) (pred <$> max) y c in
    let xr := reset_caps gs x in
    if negb (bool_decide (min = 0)) then ma xr d
    else if greedy then
      match ma xr d with Some z => Some z | None => c x end
    else
      match c x with Some z => Some z | None => ma xr d end
  end.

Fixpoint matcher (multiline : bool) (r : re) (x : mstate) (c : cont)
    {struct r} : option mstate :=
  match r with
  | Empty => c x
  | Class negated items =>
    match rest x with
    | ch :: _ => if class_match negated items ch then c (advance 1 x) else None
    | [] => None
    end
  | Seq a b => matcher multiline a x (λ y, matcher multiline b y c)
  | Alt a b =>
    match matcher multiline a x c with
    | Some z => Some z
    | None => matcher multiline b x c
    end
  | Rep greedy min max a =>
    repeat_matcher (matcher multiline a) (groups a) greedy
      (min + length (rest x) + 1) min max x c
  | Group n a =>
    matcher multiline a x (λ y,
      c (set_cap n
           (Some (str (take (length (rest x) - length (rest y)) (rest x)))) y))
  | Backref n =>
    match caps x !! n with
    | Some (Some s) =>
      if starts_with (chars s) (rest x)
      then c (advance (String.length s) x) else None
    | _ => c x
    end
  | Look true a =>
    match matcher multiline a x Some with
    | Some y => c (MState (prev x) (rest x) (caps y))
    | None => None
    end
  | Look false a =>
    match matcher multiline a x Some with
    | Some _ => None
    | None => c x
    end
  | Bol => if at_bol multiline x then c x else None
  | Eol => if at_eol multiline x then c x else None
  | WordB => if at_word_boundary x then c x else None
  end.

(** A RegExp object: the pattern and its [g] and [m] flags. *)
Record t := Make {
  pattern : re;
  global : bool;
  multiline : bool
}.

(** A successful match: where it starts, the captures array (entry 0 is
    the matched text) and the matcher state at its end. *)
Record found := Found {
  index : nat;
  captures : list (option string);
  after : mstate
}.

Definition matched (f : found) : string :=
  default "" (mjoin (captures f !! 0)).

(** The first match at or after the current position ([idx] characters
    into the input), trying each start position in turn. *)
Fixpoint scan (re : t) (p : option ascii) (input : list ascii) (idx : nat)
    : option found :=
  let x := MState p input (replicate (S (length (groups (pattern re)))) None) in
  match matcher (multiline re) (pattern re) x Some with
  | Some y =>
    let whole := str (take (length input - length (rest y)) input) in
    Some (Found idx (<[0 := Some whole]> (caps y)) y)
  | None =>
    match input with
    | [] => None
    | ch :: t => scan re (Some ch) t (S idx)
    end
  end.

(** [re.exec(s)] with [lastIndex = 0]: the captures array, or [None] for
    null. A pattern with the [g] flag would keep [lastIndex] between
    calls; the rules of the source call [exec] on patterns without it. *)
Definition exec (re : t) (s : string) : option (list (option string)) :=
  captures <$> scan re None (chars s) 0.

(** [s.search(re)]. *)
Definition search (re : t) (s : string) : Z :=
  match scan re None (chars s) 0 with
  | Some f => Z.of_nat (index f)
  | None => (-1)%Z
  end.

(** The successive matches of a global pattern, as [match] and [replace]
    enumerate them: each search starts where the previous match ended,
    one character further after an empty match. The result lists, for
    each match, the text skipped before it and the matched text, and
    then the text after the last match. *)
Definition skip_char (ch : ascii) (r : list (string * string) * string)
    : list (string * string) * string :=
  match r with
  | ([], tl) => ([], String ch tl)
  | ((sk, m) :: ms, tl) => ((String ch sk, m) :: ms, tl)
  end.

Fixpoint matches (fuel : nat) (re : t) (p : option ascii) (input : list ascii)
    : list (string * string) * string :=
  match fuel with
  | 0 => ([], str input)
  | S fuel' =>
    match scan re p input 0 with
    | None => ([], str input)
    | Some f =>
      let skipped := str (take (index f) input) in
      let y := after f in
      if bool_decide (matched f = "") then
        match rest y with
        | [] => ([(skipped, "")], "")
        | ch :: t =>
          let '(ms, tl) := skip_char ch (matches fuel' re (Some ch) t) in
          ((skipped, "") :: ms, tl)
        end
      else
        let '(ms, tl) := matches fuel' re (prev y) (rest y) in
        ((skipped, matched f) :: ms, tl)
    end
  end.

Definition all_matches (re : t) (s : string) : list (string * string) * string :=
  matches (S (String.length s)) re None (chars s).

(** [s.match(re)] for a pattern with the [g] flag: the matched texts, or
    [None] (null) when there is none. *)
Definition match_global (re : t) (s : string) : option (list string) :=
  match all_matches re s with
  | ([], _) => None
  | (ms, _) => Some (snd <$> ms)
  end.

(** [s.replace(re, by)] where [by] is a string without [$] patterns:
    every match of a global pattern, the first match otherwise. *)
Definition replace (re : t) (by_ : string) (s : string) : string :=
  if global re then
    let '(ms, tl) := all_matches re s in
    foldr (λ '(sk, _) acc, sk +:+ by_ +:+ acc) tl ms
  else
    match scan re None (chars s) 0 with
    | None => s
    | Some f =>
      str (take (index f) (chars s)) +:+ by_ +:+ str (rest (after f))
    end.

(** *** Static bounds on what a match consumes *)

(** A lower bound on the number of characters a match of [r] consumes. *)
Fixpoint min_length (r : re) : nat :=
  match r with
  | Class _ _ => 1
  | Seq a b => min_length a + min_length b
  | Alt a b => min_length a `min` min_length b
  | Rep _ n max a => from_option (min n) n max * min_length a
  | Group _ a => min_length a
  | _ => 0
  end.

(** A lower bound on the characters a match of [r] consumes outside of
    what group [i] captures. *)
Fixpoint slack (r : re) (i : nat) : nat :=
  match r with
  | Class _ _ => 1
  | Seq a b => slack a i + slack b i
  | Alt a b => slack a i `min` slack b i
  | Rep _ n max a => from_option (min n) n max * slack a i
  | Group j a => if bool_decide (i = j) then 0 else slack a i
  | _ => 0
  end.

(** No capturing group inside a lookahead. *)
Fixpoint look_free (r : re) : bool :=
  match r with
  | Seq a b | Alt a b => look_free a && look_free b
  | Rep _ _ _ a | Group _ a => look_free a
  | Look _ a => bool_decide (groups a = []) && look_free a
  | _ => true
  end.

(** Every capture lies before the current position, with [f i] characters
    to spare for capture [i], in an input of [n] characters. *)
Definition within (f : nat → nat) (n : nat) (x : mstate) : Prop :=
  (∀ i, length (rest x) + f i ≤ n) ∧
  (∀ i m, caps x !! i = Some (Some m) →
          String.length m + length (rest x) + f i ≤ n).

(** What is known of the state [y] a match of [r] started in [x] hands to
    its continuation. *)
Record follows (r : re) (x y : mstate) : Prop := Follows {
  follows_length : length (rest y) + min_length r ≤ length (rest x);
  follows_caps : ∀ i, i ∉ groups r → caps y !! i = caps x !! i;
  follows_caps_length : length (caps y) = length (caps x);
  follows_within : ∀ f n, within f n x → within (λ i, f i + slack r i) n y
}.

(** The paths of the matcher, as a relation: [steps ml r x y] when a
    match of [r] started in state [x] can end in state [y]. *)
Inductive steps (ml : bool) : re → mstate → mstate → Prop :=
| steps_empty x : steps ml Empty x x
| steps_class negated items x ch t :
    rest x = ch :: t → class_match negated items ch = true →
    steps ml (Class negated items) x (advance 1 x)
| steps_seq a b x y z :
    steps ml a x y → steps ml b y z → steps ml (Seq a b) x z
| steps_alt_l a b x y : steps ml a x y → steps ml (Alt a b) x y
| steps_alt_r a b x y : steps ml b x y → steps ml (Alt a b) x y
| steps_rep_stop greedy min max a x :
    min = 0 ∨ max = Some 0 → steps ml (Rep greedy min max a) x x
| steps_rep_iter greedy min max a x y z :
    max ≠ Some 0 →
    steps ml a (reset_caps (groups a) x) y →
    ¬ (min = 0 ∧ length (rest y) = length (rest x)) →
    steps ml (Rep greedy (pred min) (pred <$> max) a) y z →
    steps ml (Rep greedy min max a) x z
| steps_group n a x y :
    steps ml a x y →
    steps ml (Group n a) x
      (set_cap n (Some (str (take (length (rest x) - length (rest y)) (rest x)))) y)
| steps_backref_unset n x :
    (∀ s, caps x !! n ≠ Some (Some s)) → steps ml (Backref n) x x
| steps_backref n x s :
    caps x !! n = Some (Some s) → starts_with (chars s) (rest x) = true →
    steps ml (Backref n) x (advance (String.length s) x)
| steps_look_ahead a x y :
    steps ml a x y →
    steps ml (Look true a) x (MState (prev x) (rest x) (caps y))
| steps_look_not a x :
    matcher ml a x Some = None → steps ml (Look false a) x x
| steps_bol x : at_bol ml x = true → steps ml Bol x x
| steps_eol x : at_eol ml x = true → steps ml Eol x x
| steps_word_boundary x : at_word_boundary x = true → steps ml WordB x x.

Definition traced (ml : bool) (ma : mstate → cont → option mstate) (a : re) : Prop :=
  ∀ x c z, ma x c = Some z → ∃ y, steps ml a x y ∧ c y = Some z.

(** Two continuations that agree on the states with at most [n]
    characters left. *)
Definition agree_below (n : nat) (c c' : cont) : Prop :=
  ∀ y, length (rest y) ≤ n → c y = c' y.

Definition sound (ma : mstate → cont → option mstate) (a : re) : Prop :=
  ∀ x c z, ma x c = Some z → ∃ y, c y = Some z ∧ follows a x y.

End RegExp.

(** ** Values, exceptions and the two effects of the program *)

(** JavaScript values as they occur in the syntax tree and in the parse
    state. [VElement] is a React element: tag, props, children. *)
#[warnings="-register-all"]
Inductive value :=
| VUndefined
| VBool (b : bool)
| VNumber (n : Z)
| VString (s : string)
| VArray (l : list value)
| VObject (o : gmap string value)
| VElement (tag : string) (props : gmap string value) (children : list value).

(** What a [throw] carries. [Unmodelled] marks the places where the
    behaviour is decided by a library outside the repository (underscore,
    React) on values the source never builds. *)
Inductive exn :=
| Error (message : string)
| TypeError
| SyntaxError
| Unmodelled.

(** The outcome of a call: it returns, it throws, or it is still running
    when the step budget is used up. *)
Inductive result (A : Type) :=
| Return (a : A)
| Throw (e : exn)
| OutOfFuel.
Arguments Return {A} a.
Arguments Throw {A} e.
Arguments OutOfFuel {A}.

#[export] Instance result_ret : MRet result := λ A a, Return a.
#[export] Instance result_bind : MBind result := λ A B f r,
  match r with
  | Return a => f a
  | Throw e => Throw e
  | OutOfFuel => OutOfFuel
  end.
#[export] Instance result_fmap : FMap result := λ A B f r,
  match r with
  | Return a => Return (f a)
  | Throw e => Throw e
  | OutOfFuel => OutOfFuel
  end.

(** The parse state is a mutable object passed by reference: a heap of
    state objects, addressed by their allocation number. *)
Definition loc := nat.
Abbreviation heap := (list (gmap string value)).

(** Computations of the parser: they read and update the heap. *)
Definition M (A : Type) : Type := heap → result (A * heap).

#[export] Instance M_ret : MRet M := λ A a h, Return (a, h).
#[export] Instance M_bind : MBind M := λ A B f m h,
  match m h with
  | Return (a, h') => f a h'
  | Throw e => Throw e
  | OutOfFuel => OutOfFuel
  end.

Definition throw {A} (e : exn) : M A := λ _, Throw e.
Definition out_of_fuel {A} : M A := λ _, OutOfFuel.

(** [{}]: a fresh empty object. *)
Definition new_object : M loc := λ h, Return (length h, h ++ [∅]).

(** [state[key]] and [state[key] = v]. *)
Definition get_state (l : loc) (key : string) : M value := λ h,
  Return (default VUndefined (h !! l ≫= (.!! key)), h).
Definition set_state (l : loc) (key : string) (v : value) : M unit := λ h,
  Return ((), alter (<[key := v]>) l h).

Fixpoint mapM_M {A B} (f : A → M B) (l : list A) : M (list B) :=
  match l with
  | [] => mret []
  | a :: t => b ← f a; bs ← mapM_M f t; mret (b :: bs)
  end.

Fixpoint mapM_result {A B} (f : A → result B) (l : list A) : result (list B) :=
  match l with
  | [] => mret []
  | a :: t => b ← f a; bs ← mapM_result f t; mret (b :: bs)
  end.

(** ** Rules *)

(** A captures array as [exec] returns it; [capture[n]] is undefined for
    a group that took no part in the match. *)
Abbreviation capture := (list (option string)).

Definition cap (c : capture) (n : nat) : option string := mjoin (c !! n).

(** What is known of the captures [cs] of a match of [re] in a string of
    [n] characters. *)
Record exec_spec (re : RegExp.t) (n : nat) (cs : capture) : Prop := {
  exec_whole : ∃ m, cap cs 0 = Some m ∧
                    RegExp.min_length (RegExp.pattern re) ≤ String.length m ≤ n;
  exec_group : ∀ i c, 1 ≤ i → cap cs i = Some c →
                      String.length c + RegExp.slack (RegExp.pattern re) i ≤ n
}.

(** The recursive parse function handed to a rule: [parse(source, state)],
    where either argument may be left undefined. *)
Definition parse_fn := option string → option loc → M (list value).

(** [rule.parse(capture, parse, state)] returns an object of attributes. *)
Definition builder := capture → parse_fn → loc → M (gmap string value).

(** [rule.output(node, output)]. *)
Definition output_fn := value → result value.
Definition renderer := value → output_fn → result value.

Record rule := Rule {
  regex : RegExp.t;
  parse : builder;
  output : option renderer
}.

(** An object literal whose keys are enumerated ([Object.keys]): the
    properties in the order they are written. *)
Abbreviation object A := (list (string * A)).

Definition property {A} (o : object A) (key : string) : option A :=
  snd <$> find (λ p, bool_decide (p.1 = key)) o.

Definition Object_keys {A} (o : object A) : list string := fst <$> o.

(** [_.extend(dst, src)]: every property of [src] is copied over [dst]. *)
Definition extend (dst src : gmap string value) : gmap string value :=
  src ∪ dst.

(** [s.length] and [s.substring(n)] on a value that may be undefined. *)
Definition length_of (s : option string) : M nat :=
  match s with
  | Some s => mret (String.length s)
  | None => throw TypeError
  end.

(** ** parserFor *)

Section parserFor.
Context (rules : object rule) (ruleList : list string).

(** The outcome of the inner loop over [ruleList]: the first rule whose
    pattern matches, with the value of [i] at the [break]; or [i] at the
    end of the list; or the TypeError of [rule.regex] when
    [rules[ruleType]] is undefined. *)
Inductive attempt :=
| Matched (i : nat) (ruleType : string) (r : rule) (c : capture)
| Exhausted (i : nat)
| NoSuchRule.

Fixpoint try_rules (source : string) (i : nat) (l : list string) : attempt :=
  match l with
  | [] => Exhausted i
  | ruleType :: l' =>
    match property rules ruleType with
    | None => NoSuchRule
    | Some r =>
      match RegExp.exec (regex r) source with
      | Some c => Matched i ruleType r c
      | None => try_rules source (S i) l'
      end
    end
  end.

(** [i === rules.length]. [rules] is the object of rules, so its
    [length] property is undefined, or the rule named "length" if there
    is one: a number is strictly equal to neither. *)
Definition is_rules_length (i : nat) : bool :=
  match property rules "length" with
  | None => false
  | Some _ => false
  end.

Definition no_rule_message (source : string) : string :=
  "could not find rule to match content: " +:+ source.

(** [state = state || {}]. *)
Definition state_or_new (state : option loc) : M loc :=
  match state with
  | Some l => mret l
  | None => new_object
  end.

(** The [while (source)] loop of [nestedParse]; [fuel] bounds the number
    of iterations and the depth of the nested calls together. *)
Fixpoint parse_loop (fuel : nat) (source : string) (result : list value)
    (state : loc) {struct fuel} : M (list value) :=
  match fuel with
  | 0 => out_of_fuel
  | S fuel' =>
    if bool_decide (source = "") then mret result else
    let nestedParse : parse_fn := λ src st,
      st' ← state_or_new st;
      match src with
      | Some s => parse_loop fuel' s [] st'
      | None => mret []
      end in
    match try_rules source 0 ruleList with
    | NoSuchRule => throw TypeError
    | Matched i ruleType r c =>
      n ← length_of (cap c 0);
      let source' := substring_from n source in
      attrs ← parse r c nestedParse state;
      let parsed := extend {[ "type" := VString ruleType ]} attrs in
      let result' := result ++ [VObject parsed] in
      if is_rules_length i then throw (Error (no_rule_message source'))
      else parse_loop fuel' source' result' state
    | Exhausted i =>
      if is_rules_length i then throw (Error (no_rule_message source))
      else parse_loop fuel' source result state
    end
  end.

Definition nestedParse (fuel : nat) : parse_fn := λ source state,
  st ← state_or_new state;
  match source with
  | Some s => parse_loop fuel s [] st
  | None => mret []
  end.

End parserFor.

Definition parserFor := nestedParse.

(** ** outputFor and ruleOutput *)

Section outputFor.
Context (outputFunc : renderer).

Fixpoint nestedOutput (fuel : nat) (ast : value) : result value :=
  match fuel with
  | 0 => OutOfFuel
  | S fuel' =>
    match ast with
    | VArray l => VArray <$> mapM_result (nestedOutput fuel') l
    | _ => outputFunc ast (nestedOutput fuel')
    end
  end.

End outputFor.

Definition outputFor := nestedOutput.

(** [rules[ast.type].output(ast, outputFunc)]. A missing rule makes
    [.output] a TypeError, a rule without [output] makes the call one. *)
Definition get_property (v : value) (key : string) : result value :=
  match v with
  | VUndefined => Throw TypeError
  | VObject o => Return (default VUndefined (o !! key))
  | VBool _ | VNumber _ | VString _ | VArray _ => Return VUndefined
  | VElement _ _ _ => Throw Unmodelled
  end.

Definition string_of_Z (n : Z) : string := NilZero.string_of_int (Z.to_int n).

(** ToString, on the values used as property keys and in ["h" + level]. *)
Definition to_string (v : value) : result string :=
  match v with
  | VUndefined => Return "undefined"
  | VBool b => Return (if b then "true" else "false")
  | VNumber n => Return (string_of_Z n)
  | VString s => Return s
  | VObject _ => Return "[object Object]"
  | VArray _ | VElement _ _ _ => Throw Unmodelled
  end.

Definition ruleOutput (rules : object rule) : renderer := λ ast outputFunc,
  type ← get_property ast "type";
  key ← to_string type;
  match property rules key with
  | None => Throw TypeError
  | Some r =>
    match output r with
    | None => Throw TypeError
    | Some f => f ast outputFunc
    end
  end.

(** ** The default rules *)

Import RegExp.

Definition nl : re := Chr LF.
Definition sp : re := Chr " ".
Definition not_nl : re := Class true [CChar LF].            (* [^\n] *)

Definition of_string (s : option string) : value :=
  match s with
  | Some s => VString s
  | None => VUndefined
  end.

Definition lift {A} (r : result A) : M A := λ h,
  match r with
  | Return a => Return (a, h)
  | Throw e => Throw e
  | OutOfFuel => OutOfFuel
  end.

Definition defined (s : option string) : M string :=
  match s with
  | Some s => mret s
  | None => throw TypeError
  end.

Definition parseCapture : builder := λ capture parse state,
  content ← parse (cap capture 1) (Some state);
  mret {[ "content" := VArray content ]}.

Definition ignoreCapture : builder := λ _ _ _, mret ∅.

(* recognize a `*` `-`, `+`, `1.`, `2.`... list bullet *)
Definition LIST_BULLET : re :=
  Alt (OneOf "*+-") (Seq (Plus Digit) (Chr ".")).
(* the start of a list item: leading space plus a bullet plus a space *)
Definition LIST_ITEM_PREFIX : re :=
  Cat [Group 1 (Star sp); Group 2 LIST_BULLET; sp].
Definition LIST_ITEM_PREFIX_R : RegExp.t :=
  Make (Seq Bol LIST_ITEM_PREFIX) false false.
(* an individual list item, with its continuation lines *)
Definition LIST_ITEM_R : RegExp.t :=
  Make (Cat [LIST_ITEM_PREFIX; Star not_nl;
             Star (Cat [nl; Look false (Cat [Backref 1; LIST_BULLET; sp]);
                        Star not_nl])])
       true true.
(* the end of a paragraph block inside a list item: /\n{2,}$/ *)
Definition LIST_BLOCK_END_R : RegExp.t :=
  Make (Seq (AtLeast 2 nl) Eol) false false.

Definition LINK_INSIDE : re :=
  Star (Alt (Cat [Chr "["; Star (NoneOf "]"); Chr "]"])
       (Alt (NoneOf "]")
            (Seq (Chr "]") (Look true (Seq (Star (NoneOf "[")) (Chr "]")))))).
Definition quote : re := Class false [CChar "'"; CChar "034"].
(* the groups of LINK_HREF are the second and third of the link pattern *)
Definition LINK_HREF : re :=
  Cat [Star Space; Opt (Chr "<"); Group 2 (LazyStar (Class true [CSpace]));
       Opt (Chr ">");
       Opt (Cat [Plus Space; quote; Group 3 (LazyStar Any); quote]);
       Star Space].

Module patterns.

(* /^ *(#{1,6}) *([^\n]+?) *#* *\n+/ *)
Definition heading := Make (Cat [Bol; Star sp; Group 1 (Between 1 6 (Chr "#"));
  Star sp; Group 2 (LazyPlus not_nl); Star sp; Star (Chr "#"); Star sp;
  Plus nl]) false false.

(* /^([^\n]+)\n *(=|-){3,} *\n+/ *)
Definition lheading := Make (Cat [Bol; Group 1 (Plus not_nl); nl; Star sp;
  AtLeast 3 (Group 2 (Alt (Chr "=") (Chr "-"))); Star sp; Plus nl])
  false false.

(* /^( *[-*_]){3,} *\n+/ *)
Definition hr := Make (Cat [Bol; AtLeast 3 (Group 1 (Seq (Star sp) (OneOf "-*_")));
  Star sp; Plus nl]) false false.

(* "/^(?:    [^\n]+\n*" + ")+\n\n/" *)
Definition codeBlock := Make (Cat [Bol;
  Plus (Cat [Lit "    "; Plus not_nl; Star nl]); nl; nl]) false false.

(* "/^( *>[^\n]+(\n[^\n]+)*\n*" + ")+/" *)
Definition blockQuote := Make (Cat [Bol;
  Plus (Group 1 (Cat [Star sp; Chr ">"; Plus not_nl;
                      Star (Group 2 (Seq nl (Plus not_nl))); Star nl]))])
  false false.

(* "^( *" + ")(" + LIST_BULLET + ") [\s\S]+?(?:\n{2,}(?! )(?!\1" + LIST_BULLET + " )\n*|\s*$)" *)
Definition list := Make (Cat [Bol; Group 1 (Star sp); Group 2 LIST_BULLET; sp;
  LazyPlus Any;
  Alt (Cat [AtLeast 2 nl; Look false sp;
            Look false (Cat [Backref 1; LIST_BULLET; sp]); Star nl])
      (Seq (Star Space) Eol)]) false false.

(* /^((?:[^\n]|\n[^\n])+)\n\n+/ *)
Definition paragraph := Make (Cat [Bol;
  Group 1 (Plus (Alt not_nl (Seq nl not_nl))); nl; Plus nl]) false false.

(* /^\\([\\`*{}\[\]()#+\-.!_<>~|])/ *)
Definition escape := Make (Cat [Bol; Chr "\";
  Group 1 (OneOf "\`*{}[]()#+-.!_<>~|")]) false false.

(* ^!?\[(INSIDE)\]\(HREF\) *)
Definition link := Make (Cat [Bol; Opt (Chr "!"); Chr "["; Group 1 LINK_INSIDE;
  Chr "]"; Chr "("; LINK_HREF; Chr ")"]) false false.

(* "/^\*\*([\s\S]+?)\*\*(?!\*" + ")/" *)
Definition strong := Make (Cat [Bol; Lit "**"; Group 1 (LazyPlus Any); Lit "**";
  Look false (Chr "*")]) false false.

(* /^__([\s\S]+?)__(?!_)/ *)
Definition u := Make (Cat [Bol; Lit "__"; Group 1 (LazyPlus Any); Lit "__";
  Look false (Chr "_")]) false false.

(* "/^\b_((?:__|[\s\S])+?)_\b|^\*((?:\*\*|[\s\S])+?)\*(?!\*" + ")/" *)
Definition em := Make (Alt
  (Cat [Bol; WordB; Chr "_"; Group 1 (LazyPlus (Alt (Lit "__") Any));
        Chr "_"; WordB])
  (Cat [Bol; Chr "*"; Group 2 (LazyPlus (Alt (Lit "**") Any)); Chr "*";
        Look false (Chr "*")])) false false.

(* /^~~(?=\S)([\s\S]*?\S)~~/ *)
Definition del := Make (Cat [Bol; Lit "~~"; Look true NonSpace;
  Group 1 (Seq (LazyStar Any) NonSpace); Lit "~~"]) false false.

(* /^(`+)\s*([\s\S]*?[^`])\s*\1(?!`)/ *)
Definition inlineCode := Make (Cat [Bol; Group 1 (Plus (Chr "`")); Star Space;
  Group 2 (Seq (LazyStar Any) (NoneOf "`")); Star Space; Backref 1;
  Look false (Chr "`")]) false false.

(* /^\n+/ *)
Definition newline := Make (Seq Bol (Plus nl)) false false.

(* /^[\s\S]+?(?=[\\<!\[_*`]|\n\n| {2,}\n|$)/ *)
Definition text := Make (Cat [Bol; LazyPlus Any;
  Look true (Alt (OneOf "\<![_*`")
            (Alt (Seq nl nl) (Alt (Seq (AtLeast 2 sp) nl) Eol)))])
  false false.

(* /^    /gm, /\n+$/ and /^ *> ?/gm, used by the builders *)
Definition indent4 := Make (Seq Bol (Lit "    ")) true true.
Definition trailing_newlines := Make (Seq (Plus nl) Eol) false false.
Definition quote_marker := Make (Cat [Bol; Star sp; Chr ">"; Opt sp]) true true.

End patterns.

(** *** The list rule's builder: list item segmentation *)

(** [new RegExp("^ {1," + space + "}", "gm")]; the constructor refuses a
    quantifier whose bounds are out of order. *)
Definition spaceRegex (space : nat) : result RegExp.t :=
  if bool_decide (space < 1) then Throw SyntaxError
  else Return (Make (Seq Bol (Between 1 space sp)) true true).

(** The content of one item: the indentation of its continuation lines
    and its bullet removed. *)
Definition item_content (item : string) : result string :=
  match exec LIST_ITEM_PREFIX_R item with
  | None => Throw TypeError
  | Some prefix =>
    match cap prefix 0 with
    | None => Throw TypeError
    | Some p =>
      let space := String.length p in
      re ← spaceRegex space;
      Return (replace LIST_ITEM_PREFIX_R "" (replace re "" (item +:+ js "\n")))
    end
  end.

(** The body of the function mapped over [items]: [n] is [items.length],
    [i] the index of [item], and [lastItemWasAParagraph] the variable of
    the enclosing call, returned with its new value. *)
Definition list_item (parse : parse_fn) (state : loc) (n : Z)
    (item : string) (i : Z) (lastItemWasAParagraph : bool)
    : M (list value * bool) :=
  content ← lift (item_content item);
  let '(content, lastItemWasAParagraph) :=
    if bool_decide (i = n - 2)%Z then
      (content, bool_decide (0 ≤ search LIST_BLOCK_END_R content)%Z)
    else if bool_decide (i = n - 1)%Z then
      (if negb lastItemWasAParagraph
       then replace LIST_BLOCK_END_R "" content else content,
       lastItemWasAParagraph)
    else (content, lastItemWasAParagraph) in
  r ← parse (Some content) (Some state);
  mret (r, lastItemWasAParagraph).

(** [_.map(items, ...)] from index [i] on. *)
Fixpoint list_items (parse : parse_fn) (state : loc) (n : Z)
    (items : list string) (i : Z) (lastItemWasAParagraph : bool)
    : M (list value) :=
  match items with
  | [] => mret []
  | item :: items' =>
    '(r, flag) ← list_item parse state n item i lastItemWasAParagraph;
    rs ← list_items parse state n items' (i + 1) flag;
    mret (VArray r :: rs)
  end.

Definition list_parse : builder := λ capture parse state,
  bullet ← defined (cap capture 2);
  let ordered := bool_decide (1 < String.length bullet) in
  whole ← defined (cap capture 0);
  (* [_.map] of null is the empty array *)
  let items := default [] (match_global LIST_ITEM_R whole) in
  itemContent ← list_items parse state (Z.of_nat (length items)) items 0 false;
  mret {[ "ordered" := VBool ordered; "items" := VArray itemContent ]}.

(** *** The other builders *)

Definition heading_parse : builder := λ capture parse state,
  level ← length_of (cap capture 1);
  content ← parse (cap capture 2) (Some state);
  mret {[ "level" := VNumber (Z.of_nat level); "content" := VArray content ]}.

Definition lheading_parse : builder := λ capture parse state,
  let level := if bool_decide (cap capture 2 = Some "=") then 1%Z else 2%Z in
  content ← parse (cap capture 1) (Some state);
  mret {[ "type" := VString "heading"; "level" := VNumber level;
          "content" := VArray content ]}.

Definition codeBlock_parse : builder := λ capture parse state,
  whole ← defined (cap capture 0);
  let content :=
    replace patterns.trailing_newlines "" (replace patterns.indent4 "" whole) in
  mret {[ "content" := VString content ]}.

Definition blockQuote_parse : builder := λ capture parse state,
  whole ← defined (cap capture 0);
  let content := replace patterns.quote_marker "" whole in
  content ← parse (Some content) (Some state);
  mret {[ "content" := VArray content ]}.

Definition escape_parse : builder := λ capture parse state,
  mret {[ "type" := VString "text"; "content" := of_string (cap capture 1) ]}.

(** The nested call is [parse(capture[1])]: no state is passed. *)
Definition link_parse : builder := λ capture parse state,
  content ← parse (cap capture 1) None;
  mret {[ "content" := VArray content; "target" := of_string (cap capture 2) ]}.

(** [a || b] on strings that may be undefined. *)
Definition or_else (a b : option string) : option string :=
  match a with
  | Some s => if bool_decide (s = "") then b else a
  | None => b
  end.

Definition em_parse : builder := λ capture parse state,
  content ← parse (or_else (cap capture 2) (cap capture 1)) (Some state);
  mret {[ "content" := VArray content ]}.

Definition inlineCode_parse : builder := λ capture parse state,
  mret {[ "content" := of_string (cap capture 2) ]}.

Definition text_parse : builder := λ capture parse state,
  mret {[ "content" := of_string (cap capture 0) ]}.

(** *** The renderers *)

(** [React.DOM[tag]], for the tags the renderers ask for. *)
Definition React_DOM (tag : string) : option (gmap string value → list value → value) :=
  if bool_decide (tag ∈ ["a"; "blockquote"; "code"; "del"; "div"; "em";
                         "h1"; "h2"; "h3"; "h4"; "h5"; "h6"; "hr"; "li";
                         "ol"; "pre"; "strong"; "u"; "ul"])
  then Some (VElement tag) else None.

(** [<tag props>{child}</tag>] *)
Definition element (tag : string) (props : gmap string value) (children : list value)
    : result value :=
  match React_DOM tag with
  | Some make => Return (make props children)
  | None => Throw TypeError
  end.

(** A renderer that wraps the rendered content in an element. *)
Definition wrap_content (tag : string) (props : gmap string value) : renderer :=
  λ node output,
    content ← get_property node "content";
    inner ← output content;
    element tag props [inner].

Definition heading_output : renderer := λ node output,
  level ← get_property node "level";
  suffix ← (match level with VString _ => Throw Unmodelled | _ => to_string level end);
  content ← get_property node "content";
  inner ← output content;
  element ("h" +:+ suffix) ∅ [inner].

Definition hr_output : renderer := λ node output, element "hr" ∅ [].

Definition codeBlock_output : renderer := λ node output,
  content ← get_property node "content";
  code ← element "code" ∅ [content];
  element "pre" ∅ [code].

(** [_.map] over an array, or over null or undefined. *)
Definition underscore_map (v : value) (f : value → result value) : result (list value) :=
  match v with
  | VArray l => mapM_result f l
  | VUndefined => Return []
  | _ => Throw Unmodelled
  end.

Definition truthy (v : value) : bool :=
  match v with
  | VUndefined | VBool false | VNumber 0 | VString "" => false
  | _ => true
  end.

Definition list_output : renderer := λ node output,
  ordered ← get_property node "ordered";
  let listWrapper := if truthy ordered then "ol" else "ul" in
  items ← get_property node "items";
  lis ← underscore_map items (λ item, inner ← output item; element "li" ∅ [inner]);
  element listWrapper ∅ [VArray lis].

Definition link_output : renderer := λ node output,
  target ← get_property node "target";
  content ← get_property node "content";
  inner ← output content;
  element "a" {[ "href" := target ]} [inner].

Definition inlineCode_output : renderer := λ node output,
  content ← get_property node "content";
  element "code" ∅ [content].

Definition newline_output : renderer := λ node output, Return (VString " ").

Definition text_output : renderer := λ node output, get_property node "content".

Definition defaultRules : object rule := [
  ("heading", Rule patterns.heading heading_parse (Some heading_output));
  ("lheading", Rule patterns.lheading lheading_parse None);
  ("hr", Rule patterns.hr ignoreCapture (Some hr_output));
  ("codeBlock", Rule patterns.codeBlock codeBlock_parse (Some codeBlock_output));
  ("blockQuote", Rule patterns.blockQuote blockQuote_parse
                   (Some (wrap_content "blockquote" ∅)));
  ("list", Rule patterns.list list_parse (Some list_output));
  ("paragraph", Rule patterns.paragraph parseCapture
                  (Some (wrap_content "div" {[ "className" := VString "paragraph" ]})));
  ("escape", Rule patterns.escape escape_parse None);
  ("link", Rule patterns.link link_parse (Some link_output));
  ("strong", Rule patterns.strong parseCapture (Some (wrap_content "strong" ∅)));
  ("u", Rule patterns.u parseCapture (Some (wrap_content "u" ∅)));
  ("em", Rule patterns.em em_parse (Some (wrap_content "em" ∅)));
  ("del", Rule patterns.del parseCapture (Some (wrap_content "del" ∅)));
  ("inlineCode", Rule patterns.inlineCode inlineCode_parse (Some inlineCode_output));
  ("newline", Rule patterns.newline ignoreCapture (Some newline_output));
  ("text", Rule patterns.text text_parse (Some text_output))
].

Definition defaultPriorities : list string := Object_keys defaultRules.

Definition defaultParse := parserFor defaultRules defaultPriorities.
Definition defaultOutput := outputFor (ruleOutput defaultRules).

(** Running a computation from the empty heap. *)
Definition run {A} (m : M A) : result A := fst <$> m [].

(** ** The words of the specification on list items *)

(** The length of the run of newlines that ends [l]. *)
Fixpoint blank_suffix (l : list ascii) : nat :=
  match l with
  | [] => 0
  | ch :: t =>
    if forallb (λ c, bool_decide (c = LF)) (ch :: t) then S (length t)
    else blank_suffix t
  end.

(** The content ends with two or more consecutive newlines. *)
Definition ends_with_blank_line (s : string) : bool :=
  bool_decide (2 ≤ blank_suffix (chars s)).

(** The content without its trailing run of two or more newlines. *)
Definition strip_blank_lines (s : string) : string :=
  if ends_with_blank_line s
  then str (take (length (chars s) - blank_suffix (chars s)) (chars s))
  else s.

(** ** A rule that writes to the state

    Not one of [defaultRules]: a rule as a client of [parserFor] may add,
    with pattern [/^@/] and builder
    [state.count = (state.count || 0) + 1; return {}]. *)
Definition count_parse : builder := λ capture parse state,
  n ← get_state state "count";
  let n := match n with VNumber k => k | _ => 0%Z end in
  _ ← set_state state "count" (VNumber (n + 1));
  mret ∅.

Definition count_rule : rule :=
  Rule (Make (Seq Bol (Chr "@")) false false) count_parse None.

(** [_.isArray]. *)
Definition isArray (v : value) : bool :=
  match v with VArray _ => true | _ => false end.

(** The renderer registered for a type tag, if any. *)
Definition renderer_of (rules : object rule) (t : string) : option renderer :=
  property rules t ≫= output.

(** ** The contract of the rule author *)

(** Every accepted match consumes at least one character. *)
Definition consumes (r : rule) : Prop :=
  ∀ s c, exec (regex r) s = Some c → ∃ m, cap c 0 = Some m ∧ 1 ≤ String.length m.

(** [p] halts on the strings of fewer than [n] characters (and on an
    undefined source). *)
Definition halts_below (n : nat) (p : parse_fn) : Prop :=
  ∀ s state h, from_option String.length 0 s < n → p s state h ≠ OutOfFuel.

(** The builder of [r] halts when the parse function it is handed halts
    on the strings shorter than the source the rule matched. *)
Definition builder_halts (r : rule) : Prop :=
  ∀ source c p state h,
    exec (regex r) source = Some c → halts_below (String.length source) p →
    parse r c p state h ≠ OutOfFuel.

(** ** Rule tables used below *)

(** [defaultRules] without its catch-all rule. *)
Definition withoutText : object rule :=
  filter (λ p, p.1 ≠ "text") defaultRules.

(** The node the counting rule builds. *)
Definition count_node : value := VObject {[ "type" := VString "count" ]}.

(** [defaultRules] with the counting rule, tried first. *)
Definition countingRules : object rule := ("count", count_rule) :: defaultRules.

(** ** The text of a list item *)

Definition in_class (negated : bool) (items : list citem) (ch : ascii) : Prop :=
  class_match negated items ch = true.

(** The head of [l], if any, is not in the class. *)
Definition stops (negated : bool) (items : list citem) (l : list ascii) : Prop :=
  ∀ ch t, l = ch :: t → class_match negated items ch = false.

Definition spaces (s : list ascii) : Prop := Forall (in_class false [CChar " "]) s.

(** The text of a bullet: one of [*+-], or digits and a period. *)
Definition bullet_text (b : list ascii) : Prop :=
  (∃ ch, b = [ch] ∧ in_class false (CChar <$> chars "*+-") ch)
  ∨ (∃ ds, ds ≠ [] ∧ Forall (in_class false [CDigit]) ds ∧ b = ds ++ ["."%char]).

(** The state after an item prefix: the spaces [s] and the bullet [b] are
    captured, the space after the bullet is the last character read. *)
Definition after_prefix (s b tail : list ascii) (cs : list (option string)) : mstate :=
  MState (Some " "%char) tail (<[2 := Some (str b)]> (<[1 := Some (str s)]> cs)).

(** The text of an item: spaces, a bullet, a space, and the rest. *)
Definition item_text (item : string) : Prop :=
  ∃ s b tail, spaces s ∧ bullet_text b ∧ chars item = s ++ b ++ " "%char :: tail.

(** ** The text [replace] keeps *)

(** The text [replace] leaves of the matches [r], and how much it
    removes. *)
Definition kept (r : list (string * string) * string) : string :=
  foldr (λ '(sk, _) acc, sk +:+ "" +:+ acc) r.2 r.1.

Definition removed (r : list (string * string) * string) : nat :=
  foldr (λ '(_, m) acc, String.length m + acc) 0 r.1.

(** The pattern [spaceRegex] builds for a prefix of [n] characters. *)
Definition indent (n : nat) : RegExp.t := Make (Seq Bol (Between 1 n sp)) true true.

(** Neither a space nor the end of a line. *)
Definition plain (ch : ascii) : Prop :=
  class_match false [CChar " "] ch = false ∧ is_line_terminator ch = false.

(** ** The list builder, restated *)

(** One item: its content parsed with the state of the list. *)
Definition parse_item (parse : parse_fn) (state : loc) (content : string) : M value :=
  r ← parse (Some content) (Some state); mret (VArray r).

(** The contents parsed for the items of contents [cs], where [flag]
    stands for [lastItemWasAParagraph] on entry: all but the last are
    parsed as they are; the last is stripped of its trailing blank lines
    unless the item before it ends a paragraph block (unless [flag], when
    there is no item before it). *)
Fixpoint adjusted (flag : bool) (cs : list string) : list string :=
  match cs with
  | [] => []
  | [c] => [if flag then c else strip_blank_lines c]
  | c :: (_ :: t') as t =>
    c :: adjusted (match t' with [] => ends_with_blank_line c | _ => flag end) t
  end.

(** The attributes of a list node. *)
Definition list_node (bullet : string) (items : list value) : gmap string value :=
  {[ "ordered" := VBool (bool_decide (1 < String.length bullet));
     "items" := VArray items ]}.

(** The groups of the patterns of the source are numbered from 1, in the
    order of their opening parentheses, as [exec] numbers them. *)
Definition well_numbered (re : RegExp.t) : bool :=
  bool_decide (groups (pattern re) = seq 1 (length (groups (pattern re))))
  && look_free (pattern re).

(** ** Nodes *)

(** A node of the syntax tree: an object with a [type]. *)
Definition typed (v : value) : Prop :=
  ∃ o ty, v = VObject o ∧ o !! "type" = Some ty.

(** ** Static facts on patterns *)

(** Every alternative of the pattern starts with [^]. *)
Fixpoint anchored (r : re) : bool :=
  match r with
  | Bol => true
  | Seq a _ | Group _ a => anchored a
  | Alt a b => anchored a && anchored b
  | _ => false
  end.

(** Group [i] takes part in every match of the pattern. *)
Fixpoint sets (r : re) (i : nat) : bool :=
  match r with
  | Seq a b => sets a i && bool_decide (i ∉ groups b) || sets b i
  | Alt a b => sets a i && sets b i
  | Rep _ min max a => bool_decide (1 ≤ min) && bool_decide (max ≠ Some 0) && sets a i
  | Group j a => bool_decide (i = j) || sets a i
  | Look true a => sets a i
  | _ => false
  end.

Definition is_set (i : nat) (x : mstate) : Prop := ∃ s, caps x !! i = Some (Some s).

(** ** The syntax tree of the default rules *)

(** The nodes the default rules build: the type of a node is the name of
    a rule that has a renderer, and its attributes are those the
    renderer reads. *)
#[warnings="-register-all"]
Inductive ast : value → Prop :=
| ast_heading o k l :
    o !! "type" = Some (VString "heading") →
    o !! "level" = Some (VNumber k) → (1 ≤ k ≤ 6)%Z →
    o !! "content" = Some (VArray l) → Forall ast l →
    ast (VObject o)
| ast_content o t l :
    t ∈ ["blockQuote"; "paragraph"; "strong"; "u"; "em"; "del"] →
    o !! "type" = Some (VString t) →
    o !! "content" = Some (VArray l) → Forall ast l →
    ast (VObject o)
| ast_link o l target :
    o !! "type" = Some (VString "link") →
    o !! "content" = Some (VArray l) → Forall ast l →
    o !! "target" = Some (VString target) →
    ast (VObject o)
| ast_list o ordered items :
    o !! "type" = Some (VString "list") →
    o !! "ordered" = Some (VBool ordered) →
    o !! "items" = Some (VArray (VArray <$> items)) →
    items ≠ [] → Forall (Forall ast) items →
    ast (VObject o)
| ast_string o t s :
    t ∈ ["codeBlock"; "inlineCode"; "text"] →
    o !! "type" = Some (VString t) →
    o !! "content" = Some (VString s) →
    ast (VObject o)
| ast_empty o t :
    t ∈ ["hr"; "newline"] →
    o !! "type" = Some (VString t) →
    ast (VObject o).

(** The heap [h'] is [h] with fresh empty objects: nothing was written
    to the objects of [h]. *)
Definition extends (h h' : heap) : Prop := ∃ k, h' = h ++ replicate k ∅.

(** [p] returns, on the strings of fewer than [n] characters, nodes that
    are [good], and writes to no state. *)
Definition returns_well (good : value → Prop) (n : nat) (p : parse_fn) : Prop :=
  ∀ s st h, from_option String.length 0 s < n →
    ∃ r h', p s st h = Return (r, h') ∧ Forall good r ∧ extends h h'.

(** The builder of the rule [r], listed as [t], returns a [good] node
    when the parse function it is handed returns [good] nodes. *)
Definition builder_well (good : value → Prop) (t : string) (r : rule) : Prop :=
  ∀ source c p state h,
    exec (regex r) source = Some c →
    returns_well good (String.length source) p →
    ∃ attrs h', parse r c p state h = Return (attrs, h')
                ∧ good (VObject (extend {[ "type" := VString t ]} attrs))
                ∧ extends h h'.

(** [v] is rendered by the default renderers, given [fuel] steps. *)
Definition renders (fuel : nat) (v : value) : Prop :=
  ∃ r, defaultOutput fuel v = Return r.

(** [v] is rendered given enough steps. *)
Definition renderable (v : value) : Prop :=
  ∃ fuel0, ∀ fuel, fuel0 ≤ fuel → renders fuel v.

(** ** Sources without markup *)

(** A character that is neither a line feed, nor one of the characters
    the rules give a meaning to, nor a digit. *)
Definition is_plain (c : ascii) : bool :=
  negb (bool_decide (c ∈ LF :: chars "#-*_>+\![<~`")) && negb (is_digit c).

Definition all_ascii : list ascii := ascii_of_nat <$> seq 0 256.

(** Every match of the pattern takes a character outside the set [P]. *)
Fixpoint demands (P : ascii → bool) (r : re) : bool :=
  match r with
  | Class negated items =>
    forallb (λ ch, implb (P ch) (negb (class_match negated items ch))) all_ascii
  | Seq a b => demands P a || demands P b
  | Alt a b => demands P a && demands P b
  | Rep _ min max a =>
    bool_decide (1 ≤ min) && bool_decide (max ≠ Some 0) && demands P a
  | Group _ a => demands P a
  | _ => false
  end.

Definition is_newline (c : ascii) : bool := bool_decide (c = LF).

(** * Properties *)

(** ** The matcher *)

Lemma length_str l : String.length (str l) = length l.
Proof. induction l; simpl; congruence. Qed.

Lemma length_chars s : length (chars s) = String.length s.
Proof. induction s; simpl; congruence. Qed.

Lemma slack_le r i : slack r i ≤ min_length r.
Proof.
  induction r; simpl; try lia.
  - destruct max; simpl; nia.
  - case_bool_decide; lia.
Qed.

Lemma within_mono f g n x : (∀ i, g i ≤ f i) → within f n x → within g n x.
Proof.
  intros Hle [H1 H2]. split.
  - intros i. specialize (H1 i). specialize (Hle i). lia.
  - intros i m Hi. specialize (H2 i m Hi). specialize (Hle i). lia.
Qed.

Lemma reset_caps_rest gs x : rest (reset_caps gs x) = rest x.
Proof. induction gs; simpl; auto. Qed.

Lemma reset_caps_prev gs x : prev (reset_caps gs x) = prev x.
Proof. induction gs; simpl; auto. Qed.

Lemma reset_caps_length gs x : length (caps (reset_caps gs x)) = length (caps x).
Proof. induction gs; simpl; rewrite ?length_insert; auto. Qed.

Lemma reset_caps_lookup gs x i :
  caps (reset_caps gs x) !! i = caps x !! i ∨ caps (reset_caps gs x) !! i = Some None.
Proof.
  induction gs as [|g gs IH]; simpl; [by left|].
  destruct (decide (g = i)) as [->|Hne].
  - destruct (decide (i < length (caps (reset_caps gs x)))).
    + right. by apply list_lookup_insert_eq.
    + rewrite list_insert_ge by lia. done.
  - rewrite list_lookup_insert_ne by done. done.
Qed.

Lemma reset_caps_lookup_ne gs x i :
  i ∉ gs → caps (reset_caps gs x) !! i = caps x !! i.
Proof.
  induction gs as [|g gs IH]; simpl; [done|].
  intros Hi. apply not_elem_of_cons in Hi as [Hne Hi].
  rewrite list_lookup_insert_ne by done. auto.
Qed.

Lemma within_reset gs f n x : within f n x → within f n (reset_caps gs x).
Proof.
  intros [H1 H2]. split; rewrite reset_caps_rest; [done|].
  intros i m Hi.
  destruct (reset_caps_lookup gs x i) as [E|E]; rewrite E in Hi; [eauto|congruence].
Qed.

(** The part of [follows_within] that only depends on positions. *)
Lemma within_same_caps r f n x y :
  length (rest y) + min_length r ≤ length (rest x) →
  (∀ i m, caps y !! i = Some (Some m) → caps x !! i = Some (Some m)) →
  within f n x → within (λ i, f i + slack r i) n y.
Proof.
  intros L C [H1 H2]. split.
  - intros i. specialize (H1 i). pose proof (slack_le r i). lia.
  - intros i m Hi. apply C in Hi. specialize (H2 i m Hi).
    pose proof (slack_le r i). lia.
Qed.

Lemma follows_refl r x : min_length r = 0 → follows r x x.
Proof.
  intros H. split; [lia|done|done|].
  intros f n. apply within_same_caps; [lia|done].
Qed.

Lemma follows_trans a b x y z :
  follows a x y → follows b y z → follows (Seq a b) x z.
Proof.
  intros [L1 C1 N1 W1] [L2 C2 N2 W2]. split; simpl.
  - lia.
  - intros i Hi. rewrite not_elem_of_app in Hi. destruct Hi.
    rewrite C2, C1; auto.
  - congruence.
  - intros f n Hx. eapply within_mono; [|apply W2, W1, Hx].
    intros i. simpl. lia.
Qed.

Lemma repeat_matcher_steps ml a greedy :
  traced ml (matcher ml a) a → ∀ fuel min max x c z,
  repeat_matcher (matcher ml a) (groups a) greedy fuel min max x c = Some z →
  ∃ y, steps ml (Rep greedy min max a) x y ∧ c y = Some z.
Proof.
  intros Ha. induction fuel as [|fuel IH]; intros min max x c z; [done|].
  cbn [repeat_matcher].
  remember (matcher ml a (reset_caps (groups a) x) _) as it eqn:Hit.
  assert (Hstop : min = 0 ∨ max = Some 0 → c x = Some z →
          ∃ y, steps ml (Rep greedy min max a) x y ∧ c y = Some z).
  { intros Hm Hc. exists x. split; [by constructor|done]. }
  assert (Hiter : it = Some z → max ≠ Some 0 →
      ∃ y, steps ml (Rep greedy min max a) x y ∧ c y = Some z).
  { rewrite Hit. intros Hm Hmax. apply Ha in Hm as (y1 & Hs & Hd).
    destruct (decide (min = 0 ∧ length (rest y1) = length (rest x))) as [[H1 H2]|Hn].
    { by rewrite !bool_decide_eq_true_2 in Hd. }
    assert (bool_decide (min = 0)
            && bool_decide (length (rest y1) = length (rest x)) = false) as Hb.
    { apply andb_false_iff. rewrite !bool_decide_eq_false.
      destruct (decide (min = 0)); [right|left]; tauto. }
    rewrite Hb in Hd. apply IH in Hd as (y & Hs' & Hc).
    exists y. split; [|done]. by eapply steps_rep_iter. }
  clear Hit.
  destruct (decide (max = Some 0)) as [Hmax|Hmax].
  { rewrite (bool_decide_eq_true_2 (max = Some 0)) by done. auto. }
  rewrite (bool_decide_eq_false_2 (max = Some 0)) by done.
  destruct (decide (min = 0)) as [Hmin|Hmin].
  - rewrite (bool_decide_eq_true_2 (min = 0)) by done. cbn [negb].
    destruct greedy.
    + destruct it as [z'|]; [intros [= <-]|]; auto.
    + destruct (c x) as [z'|] eqn:E; [intros [= <-]|]; auto.
  - rewrite (bool_decide_eq_false_2 (min = 0)) by done. cbn [negb]. auto.
Qed.

(** Every success of the matcher follows one of its paths. *)
Lemma matcher_steps ml r : traced ml (matcher ml r) r.
Proof.
  induction r as [|neg items|a IHa b IHb|a IHa b IHb|g min max a IHa
                  |j a IHa|j|pos a IHa| | |]; intros x c z; cbn [matcher].
  - intros H. exists x. split; [constructor|done].
  - destruct (rest x) as [|ch t] eqn:Hx; [done|].
    destruct (class_match _ _ _) eqn:Hc; [|done]. intros H.
    exists (advance 1 x). split; [by econstructor|done].
  - intros H. apply IHa in H as (y1 & S1 & H). apply IHb in H as (y & S2 & H).
    exists y. split; [by econstructor|done].
  - destruct (matcher ml a x c) eqn:E.
    + intros [= ->]. apply IHa in E as (y & S1 & H).
      exists y. split; [by apply steps_alt_l|done].
    + intros H. apply IHb in H as (y & S1 & H).
      exists y. split; [by apply steps_alt_r|done].
  - by apply repeat_matcher_steps.
  - intros H. apply IHa in H as (y & S1 & H).
    eexists. split; [by apply steps_group|done].
  - destruct (caps x !! j) as [[s|]|] eqn:E.
    + destruct (starts_with _ _) eqn:Hs; [|done]. intros H.
      eexists. split; [by eapply steps_backref|done].
    + intros H. exists x. split; [|done]. apply steps_backref_unset. congruence.
    + intros H. exists x. split; [|done]. apply steps_backref_unset. congruence.
  - destruct pos.
    + destruct (matcher ml a x Some) as [y'|] eqn:E; [|done]. intros H.
      apply IHa in E as (y & S1 & [= ->]).
      eexists. split; [by apply steps_look_ahead|done].
    + destruct (matcher ml a x Some) eqn:E; [done|]. intros H.
      exists x. split; [by apply steps_look_not|done].
  - destruct (at_bol _ _) eqn:E; [|done]. intros H. exists x. split; [by constructor|done].
  - destruct (at_eol _ _) eqn:E; [|done]. intros H. exists x. split; [by constructor|done].
  - destruct (at_word_boundary _) eqn:E; [|done]. intros H.
    exists x. split; [by constructor|done].
Qed.

Lemma follows_rep_iter greedy min max a x y z :
  max ≠ Some 0 →
  follows a (reset_caps (groups a) x) y →
  follows (Rep greedy (pred min) (pred <$> max) a) y z →
  follows (Rep greedy min max a) x z.
Proof.
  intros Hmax [L1 C1 N1 W1] [L2 C2 N2 W2].
  rewrite reset_caps_rest, ?reset_caps_length in *. split; simpl in *.
  - destruct max as [[|k]|]; simpl in *; [done|destruct min; simpl in *; lia..].
  - intros i Hi. rewrite C2, C1, reset_caps_lookup_ne; auto.
  - congruence.
  - intros f n Hx. eapply within_mono; [|apply W2, W1, within_reset, Hx].
    intros i. simpl.
    destruct max as [[|k]|]; simpl in *; [done|destruct min; simpl in *; lia..].
Qed.

Lemma steps_follows ml r x y : steps ml r x y → look_free r → follows r x y.
Proof.
  induction 1 as [x|neg items x ch t Hx Hc|a b x y z _ IHa _ IHb
                 |a b x y _ IH|a b x y _ IH
                 |g min max a x Hm|g min max a x y z Hmax _ IHa Hn _ IHr
                 |j a x y _ IH|j x Hj|j x s Hj Hs|a x y _ IH|a x Hn
                 |x Hb|x He|x Hw]; intros Hwf; simpl in Hwf.
  - by apply follows_refl.
  - unfold advance.
    split; [simpl; rewrite ?Hx; simpl; rewrite ?drop_0; lia|done|done|].
    intros f n. apply within_same_caps; [|done].
    simpl; rewrite ?Hx; simpl; rewrite ?drop_0; lia.
  - apply andb_prop_elim in Hwf as [Ha Hb]. eauto using follows_trans.
  - apply andb_prop_elim in Hwf as [Ha Hb]. destruct (IH Ha) as [L C N W].
    split; simpl; [lia| |done|].
    + intros i [??]%not_elem_of_app. auto.
    + intros f n Hx. eapply within_mono; [|apply W, Hx]. intros i. simpl. lia.
  - apply andb_prop_elim in Hwf as [Ha Hb]. destruct (IH Hb) as [L C N W].
    split; simpl; [lia| |done|].
    + intros i [??]%not_elem_of_app. auto.
    + intros f n Hx. eapply within_mono; [|apply W, Hx]. intros i. simpl. lia.
  - apply follows_refl. simpl.
    destruct Hm as [->| ->]; simpl; [by destruct max|lia].
  - eapply follows_rep_iter; eauto.
  - destruct (IH Hwf) as [L C N W]. split; simpl.
    + lia.
    + intros i Hi. rewrite not_elem_of_cons in Hi. destruct Hi.
      rewrite list_lookup_insert_ne by done. auto.
    + by rewrite length_insert.
    + intros f n Hx. destruct (W f n Hx) as [W1 W2]. split; simpl.
      * intros i. specialize (W1 i). case_bool_decide; lia.
      * intros i m.
        destruct (decide (j = i)) as [->|Hne].
        -- rewrite (bool_decide_eq_true_2 (i = i)) by done.
           destruct (decide (i < length (caps y))).
           ++ rewrite list_lookup_insert_eq by done. intros [= <-].
              rewrite length_str, length_take. destruct Hx as [Hx _].
              specialize (Hx i). lia.
           ++ rewrite list_insert_ge by lia. intros Hi.
              specialize (W2 i m Hi). lia.
        -- rewrite list_lookup_insert_ne by done. intros Hi.
           specialize (W2 i m Hi). simpl in W2.
           rewrite (bool_decide_eq_false_2 (i = j)) by done. lia.
  - by apply follows_refl.
  - unfold advance.
    split; [simpl; rewrite length_drop; lia|done|done|].
    intros f n. apply within_same_caps; [|done]. simpl. rewrite length_drop. lia.
  - apply andb_prop_elim in Hwf as [Hg Ha]. apply bool_decide_unpack in Hg.
    destruct (IH Ha) as [L C N W].
    split; [simpl; lia| |done|].
    + intros i _. apply C. rewrite Hg. apply not_elem_of_nil.
    + intros f n. apply (within_same_caps (Look true a)); simpl; [lia|].
      intros i m. rewrite C by (rewrite Hg; apply not_elem_of_nil). done.
  - by apply follows_refl.
  - by apply follows_refl.
  - by apply follows_refl.
  - by apply follows_refl.
Qed.

Lemma matcher_sound ml r : look_free r → sound (matcher ml r) r.
Proof.
  intros Hwf x c z H. apply matcher_steps in H as (y & Hs & Hc).
  exists y. split; [done|]. by apply (steps_follows ml).
Qed.

(** *** The step bound of [repeat_matcher] is never what makes it fail *)

Lemma repeat_matcher_ext ma gs greedy :
  (∀ x c c', agree_below (length (rest x)) c c' → ma x c = ma x c') →
  ∀ fuel min max x c c',
    agree_below (length (rest x)) c c' →
    repeat_matcher ma gs greedy fuel min max x c
    = repeat_matcher ma gs greedy fuel min max x c'.
Proof.
  intros Hma. induction fuel as [|fuel IH]; intros min max x c c' Hc; [done|].
  cbn [repeat_matcher]. rewrite (Hc x) by done.
  rewrite (Hma (reset_caps gs x) _
    (λ y, if bool_decide (min = 0)
             && bool_decide (length (rest y) = length (rest x))
          then None
          else repeat_matcher ma gs greedy fuel (pred min) (pred <$> max) y c')).
  - done.
  - intros y Hy. rewrite reset_caps_rest in Hy.
    destruct (_ && _); [done|]. apply IH. intros y' Hy'. apply Hc. lia.
Qed.

Lemma matcher_ext ml r : ∀ x c c',
  agree_below (length (rest x)) c c' → matcher ml r x c = matcher ml r x c'.
Proof.
  induction r as [|neg items|a IHa b IHb|a IHa b IHb|g min max a IHa
                  |j a IHa|j|pos a IHa| | |]; intros x c c' Hc; cbn [matcher].
  - by apply Hc.
  - destruct (rest x) as [|ch t] eqn:Hx; [done|].
    destruct (class_match _ _ _); [|done]. apply Hc.
    unfold advance. rewrite Hx. simpl. rewrite drop_0. lia.
  - apply IHa. intros y Hy. apply IHb. intros y' Hy'. apply Hc. lia.
  - by rewrite (IHa x c c'), (IHb x c c').
  - by apply repeat_matcher_ext.
  - apply IHa. intros y Hy. by apply Hc.
  - destruct (caps x !! j) as [[s|]|]; [|by apply Hc..].
    destruct (starts_with _ _); [|done]. apply Hc.
    unfold advance. simpl. rewrite length_drop. lia.
  - destruct pos; destruct (matcher ml a x Some); try done; by apply Hc.
  - destruct (at_bol _ _); [|done]. by apply Hc.
  - destruct (at_eol _ _); [|done]. by apply Hc.
  - destruct (at_word_boundary _); [|done]. by apply Hc.
Qed.

(** Any bound above [min + length (rest x)] gives the same result. *)
Lemma repeat_matcher_fuel ml a gs greedy : ∀ fuel fuel' min max x c,
  min + length (rest x) < fuel → min + length (rest x) < fuel' →
  repeat_matcher (matcher ml a) gs greedy fuel min max x c
  = repeat_matcher (matcher ml a) gs greedy fuel' min max x c.
Proof.
  induction fuel as [|fuel IH]; intros [|fuel'] min max x c Hf Hf'; try lia.
  cbn [repeat_matcher].
  rewrite (matcher_ext ml a (reset_caps gs x) _
    (λ y, if bool_decide (min = 0)
             && bool_decide (length (rest y) = length (rest x))
          then None
          else repeat_matcher (matcher ml a) gs greedy fuel' (pred min)
                 (pred <$> max) y c)).
  - done.
  - intros y Hy. rewrite reset_caps_rest in Hy.
    destruct (decide (min = 0)) as [->|Hmin].
    + destruct (decide (length (rest y) = length (rest x))) as [Hl|Hl].
      * by rewrite !bool_decide_eq_true_2.
      * rewrite (bool_decide_eq_false_2 (length (rest y) = _)) by done.
        rewrite andb_false_r. apply IH; simpl; lia.
    + rewrite (bool_decide_eq_false_2 (min = 0)) by done. cbn [andb].
      apply IH; lia.
Qed.

Example patterns_well_numbered :
  forallb well_numbered
    ([LIST_ITEM_PREFIX_R; LIST_ITEM_R; LIST_BLOCK_END_R; patterns.indent4;
      patterns.trailing_newlines; patterns.quote_marker]
     ++ (regex ∘ snd <$> defaultRules)) = true.
Proof. reflexivity. Qed.

(** ** What [exec] returns *)

Lemma within_initial p input k :
  within (λ _, 0) (length input) (MState p input (replicate k None)).
Proof.
  split; simpl; [lia|]. intros i m Hi.
  apply lookup_replicate in Hi as [? _]. done.
Qed.

Lemma exec_spec_mono re n k cs : n ≤ k → exec_spec re n cs → exec_spec re k cs.
Proof.
  intros Hn [(m & ? & ?) G]. split.
  - exists m. split; [done|lia].
  - intros i c Hi Hc. specialize (G i c Hi Hc). lia.
Qed.

Lemma scan_here re p input y :
  look_free (pattern re) →
  matcher (multiline re) (pattern re)
    (MState p input (replicate (S (length (groups (pattern re)))) None)) Some
    = Some y →
  exec_spec re (length input)
    (<[0 := Some (str (take (length input - length (rest y)) input))]> (caps y)).
Proof.
  intros Hwf E.
  apply matcher_sound in E as (? & [= ->] & [L C N W]); [|done].
  specialize (W _ _ (within_initial p _ _)) as [W1 W2].
  simpl in L, N, W1, W2. rewrite length_replicate in N. split.
  - eexists. split.
    + unfold cap. rewrite list_lookup_insert_eq by lia. done.
    + rewrite length_str, length_take. lia.
  - intros i c Hi Hc. unfold cap in Hc.
    rewrite list_lookup_insert_ne in Hc by lia.
    destruct (caps y !! i) as [[c'|]|] eqn:Ec; simplify_eq/=.
    specialize (W2 _ _ Ec). lia.
Qed.

Lemma scan_sound re p input idx f :
  look_free (pattern re) → scan re p input idx = Some f →
  exec_spec re (length input) (captures f).
Proof.
  intros Hwf. revert p idx. induction input as [|ch t IH]; intros p idx; simpl.
  all: destruct (matcher _ _ _ _) as [y|] eqn:E.
  - intros [= <-]. by apply scan_here in E.
  - done.
  - intros [= <-]. by apply scan_here in E.
  - intros H. apply IH in H. eapply exec_spec_mono; [|done]. simpl. lia.
Qed.

Lemma exec_sound re s cs :
  look_free (pattern re) → exec re s = Some cs →
  exec_spec re (String.length s) cs.
Proof.
  unfold exec. intros Hwf H.
  destruct (scan _ _ _ _) as [f|] eqn:E; simplify_eq/=.
  rewrite <- length_chars. eauto using scan_sound.
Qed.

(** ** The catch-all rule *)

Lemma class_match_Any ch : class_match false [CSpace; CNonSpace] ch = true.
Proof. unfold class_match. simpl. by destruct (is_space ch). Qed.

Lemma lazy_any_succeeds ml (c : cont) :
  (∀ y, rest y = [] → c y ≠ None) →
  ∀ l p cs fuel min, min ≤ length l → length l + min < fuel →
  repeat_matcher (matcher ml Any) [] false fuel min None (MState p l cs) c ≠ None.
Proof.
  intros Hc. induction l as [|ch t IH]; intros p cs fuel min Hmin Hfuel.
  - destruct fuel as [|fuel]; [simpl in *; lia|]. simpl in Hmin.
    assert (min = 0) as -> by lia. simpl.
    specialize (Hc (MState p [] cs) eq_refl). by destruct (c _).
  - destruct fuel as [|fuel]; [simpl in *; lia|]. cbn [repeat_matcher].
    rewrite (bool_decide_eq_false_2 (None = Some 0)) by done.
    unfold Any. cbn [matcher reset_caps foldr rest]. rewrite class_match_Any.
    unfold advance. cbn [rest prev caps take drop].
    rewrite (bool_decide_eq_false_2 (length t = length (ch :: t))) by (simpl; lia).
    rewrite andb_false_r. simpl in *.
    destruct min as [|min]; simpl.
    + destruct (c _); [done|]. apply IH; lia.
    + apply IH; lia.
Qed.

Lemma text_matches s : s ≠ "" → exec patterns.text s ≠ None.
Proof.
  intros Hs. unfold exec.
  destruct (chars s) as [|ch t] eqn:E.
  { destruct s; simplify_eq/=. }
  cbn [scan].
  destruct (matcher _ _ _ _) eqn:M; [done|]. exfalso. revert M.
  cbn [patterns.text pattern multiline Cat matcher at_bol prev LazyPlus].
  apply lazy_any_succeeds; [|simpl; lia..].
  intros [p r cs] Hr. simpl in Hr. subst r. by vm_compute.
Qed.

(** ** The parsing loop *)

Section loop.
Context (rules : object rule) (ruleList : list string).

Lemma is_rules_length_false i : is_rules_length rules i = false.
Proof. unfold is_rules_length. by destruct (property rules "length"). Qed.

Lemma parse_loop_empty fuel result state h :
  parse_loop rules ruleList (S fuel) "" result state h = Return (result, h).
Proof. done. Qed.

Lemma parse_loop_exhausted fuel source result state i h :
  source ≠ "" → try_rules rules source 0 ruleList = Exhausted i →
  parse_loop rules ruleList (S fuel) source result state h
  = parse_loop rules ruleList fuel source result state h.
Proof.
  intros Hs Ht. cbn [parse_loop].
  rewrite (bool_decide_eq_false_2 (source = "")) by done.
  rewrite Ht, is_rules_length_false. done.
Qed.

Lemma parse_loop_matched fuel source result state i t r c m h :
  source ≠ "" → try_rules rules source 0 ruleList = Matched i t r c →
  cap c 0 = Some m →
  parse_loop rules ruleList (S fuel) source result state h
  = (attrs ← parse r c (nestedParse rules ruleList fuel) state;
     parse_loop rules ruleList fuel (substring_from (String.length m) source)
       (result ++ [VObject (extend {[ "type" := VString t ]} attrs)]) state) h.
Proof.
  intros Hs Ht Hm. cbn [parse_loop].
  rewrite (bool_decide_eq_false_2 (source = "")) by done.
  rewrite Ht, Hm, is_rules_length_false. done.
Qed.

Lemma parse_loop_no_such_rule fuel source result state h :
  source ≠ "" → try_rules rules source 0 ruleList = NoSuchRule →
  parse_loop rules ruleList (S fuel) source result state h = Throw TypeError.
Proof.
  intros Hs Ht. cbn [parse_loop].
  rewrite (bool_decide_eq_false_2 (source = "")) by done.
  rewrite Ht. done.
Qed.

(** When no rule of the list matches, the loop runs on with the same
    source: whatever the budget, it neither returns nor throws. *)
Lemma parse_loop_stuck source i :
  source ≠ "" → try_rules rules source 0 ruleList = Exhausted i →
  ∀ fuel result state h,
    parse_loop rules ruleList fuel source result state h = OutOfFuel.
Proof.
  intros Hs Ht. induction fuel as [|fuel IH]; intros result state h; [done|].
  rewrite (parse_loop_exhausted _ _ _ _ i) by done. apply IH.
Qed.

Lemma try_rules_first source k before t after r c :
  Forall (λ t', ∃ r', property rules t' = Some r'
                      ∧ exec (regex r') source = None) before →
  property rules t = Some r → exec (regex r) source = Some c →
  try_rules rules source k (before ++ t :: after)
  = Matched (k + length before) t r c.
Proof.
  intros Hb Hr Hc. revert k.
  induction Hb as [|t' before (r' & Hr' & Hn) _ IH]; intros k; simpl.
  - rewrite Hr, Hc. f_equal. lia.
  - rewrite Hr', Hn, IH. f_equal. lia.
Qed.

End loop.

(** ** C1: no rule matches *)

(** C1 (the code departs from the claim): with the rules of [defaultRules]
    but the catch-all [text], no rule matches the input "???"; the parse
    function then neither throws nor returns, whatever number of steps it
    is given. *)
Theorem no_rule_matched_never_throws fuel state h :
  parserFor withoutText (Object_keys withoutText) fuel (Some "???") state h
  = OutOfFuel.
Proof.
  unfold parserFor, nestedParse.
  assert (∀ st h', parse_loop withoutText (Object_keys withoutText) fuel
                     "???" [] st h' = OutOfFuel) as H.
  { intros. by apply (parse_loop_stuck _ _ _ 15). }
  destruct state; simpl; apply H.
Qed.

(** ** C3: precedence *)

(** C3: when two rules match the remaining input, and the earlier one is
    the first of the list to match, the inner loop stops at the earlier
    one; what follows it in the list, the later rule included, has no
    influence; and the node appended is built by the earlier rule from
    its own capture. *)
Theorem first_match_wins rules ruleList source i j ti tj ri rj ci cj :
  i < j →
  ruleList !! i = Some ti → property rules ti = Some ri →
  exec (regex ri) source = Some ci →
  ruleList !! j = Some tj → property rules tj = Some rj →
  exec (regex rj) source = Some cj →
  (∀ k t, k < i → ruleList !! k = Some t →
          ∃ r, property rules t = Some r ∧ exec (regex r) source = None) →
  try_rules rules source 0 ruleList = Matched i ti ri ci
  ∧ (∀ later, try_rules rules source 0 (take (S i) ruleList ++ later)
              = Matched i ti ri ci)
  ∧ (∀ fuel result state h m, source ≠ "" → cap ci 0 = Some m →
       parse_loop rules ruleList (S fuel) source result state h
       = (attrs ← parse ri ci (nestedParse rules ruleList fuel) state;
          parse_loop rules ruleList fuel
            (substring_from (String.length m) source)
            (result ++ [VObject (extend {[ "type" := VString ti ]} attrs)])
            state) h).
Proof.
  intros Hij Hi Hri Hci Hj Hrj Hcj Hbefore.
  assert (Forall (λ t', ∃ r', property rules t' = Some r'
                         ∧ exec (regex r') source = None) (take i ruleList)) as Hb.
  { apply Forall_lookup. intros k t Hk.
    apply lookup_take_Some in Hk as [Hk Hlt]. eauto. }
  assert (length (take i ruleList) = i) as Hlen.
  { apply lookup_lt_Some in Hi. rewrite length_take. lia. }
  assert (try_rules rules source 0 ruleList = Matched i ti ri ci) as Hm.
  { rewrite <- (take_drop_middle ruleList i ti) at 1 by done.
    rewrite (try_rules_first _ _ _ _ _ _ ri ci) by done. by rewrite Hlen. }
  split; [done|]. split.
  - intros later. rewrite (take_S_r _ _ ti), <- app_assoc by done. simpl.
    rewrite (try_rules_first _ _ _ _ _ _ ri ci) by done. by rewrite Hlen.
  - intros. by apply (parse_loop_matched _ _ _ _ _ _ i).
Qed.

Lemma first_match_wins_witness :
  ∃ c m, try_rules defaultRules "**a**" 0 defaultPriorities
         = Matched 9 "strong" (Rule patterns.strong parseCapture
                                 (Some (wrap_content "strong" ∅))) c
         ∧ cap c 0 = Some m.
Proof.
  eexists _, _.
  pose proof (first_match_wins defaultRules defaultPriorities "**a**" 9 15
    "strong" "text" _ _ _ _ ltac:(lia) eq_refl eq_refl eq_refl
    eq_refl eq_refl eq_refl) as H.
  destruct H as (H & _ & _).
  - intros k t Hk Ht.
    do 9 (destruct k as [|k]; [simplify_eq/=; eexists; split; [done|by vm_compute]|]).
    lia.
  - split; [exact H|]. by vm_compute.
Defined.

(** ** C4: the type of a node *)

Lemma extend_type t attrs :
  extend {[ "type" := VString t ]} attrs !! "type"
  = Some (default (VString t) (attrs !! "type")).
Proof.
  unfold extend. rewrite lookup_union.
  destruct (attrs !! "type") eqn:E.
  - by rewrite lookup_singleton_eq.
  - by rewrite lookup_singleton_eq.
Qed.

Lemma extend_other t attrs k :
  k ≠ "type" → extend {[ "type" := VString t ]} attrs !! k = attrs !! k.
Proof.
  intros Hk. unfold extend. rewrite lookup_union.
  rewrite lookup_singleton_ne by done. by destruct (attrs !! k).
Qed.

(** C4: in an iteration where the rule of type [ruleType] matches and its
    builder returns [attrs], the node pushed on the result carries the
    [type] of [attrs] when there is one and [ruleType] otherwise, with the
    other attributes unchanged. *)
Theorem node_type_override rules ruleList fuel source result state h
    i ruleType r c m attrs h' :
  source ≠ "" →
  try_rules rules source 0 ruleList = Matched i ruleType r c →
  cap c 0 = Some m →
  parse r c (nestedParse rules ruleList fuel) state h = Return (attrs, h') →
  ∃ node,
    parse_loop rules ruleList (S fuel) source result state h
    = parse_loop rules ruleList fuel (substring_from (String.length m) source)
        (result ++ [VObject node]) state h'
    ∧ node !! "type" = Some (default (VString ruleType) (attrs !! "type"))
    ∧ (attrs !! "type" = None → node !! "type" = Some (VString ruleType))
    ∧ (∀ v, attrs !! "type" = Some v → node !! "type" = Some v)
    ∧ (∀ k, k ≠ "type" → node !! k = attrs !! k).
Proof.
  intros Hs Ht Hm Hb.
  exists (extend {[ "type" := VString ruleType ]} attrs).
  split; [|split; [|split; [|split]]].
  - rewrite (parse_loop_matched _ _ _ _ _ _ i ruleType r c m) by done.
    unfold mbind, M_bind. by rewrite Hb.
  - apply extend_type.
  - intros E. by rewrite extend_type, E.
  - intros v E. by rewrite extend_type, E.
  - intros k Hk. by apply extend_other.
Qed.

Lemma node_type_override_witness :
  ∃ node,
    parse_loop defaultRules defaultPriorities 3 (js "Title\n=====\n") [] 0 [∅]
    = parse_loop defaultRules defaultPriorities 2 "" [VObject node] 0 [∅]
    ∧ node !! "type" = Some (VString "heading").
Proof.
  destruct (node_type_override defaultRules defaultPriorities 2
    (js "Title\n=====\n") [] 0 [∅] 1 "lheading"
    (Rule patterns.lheading lheading_parse None)
    [Some (js "Title\n=====\n"); Some "Title"; Some "="] (js "Title\n=====\n")
    {[ "type" := VString "heading"; "level" := VNumber 1;
       "content" := VArray [VObject {[ "type" := VString "text";
                                       "content" := VString "Title" ]}] ]}
    [∅]) as (node & H1 & H2 & _).
  - done.
  - by vm_compute.
  - done.
  - by vm_compute.
  - exists node. split; [exact H1|exact H2].
Defined.

(** The two heading syntaxes, and a rule that returns no [type]. *)
Example lheading_is_heading :
  run (defaultParse 3 (Some (js "Title\n=====\n")) None)
  = Return [VObject {[ "type" := VString "heading"; "level" := VNumber 1;
      "content" := VArray [VObject {[ "type" := VString "text";
                                      "content" := VString "Title" ]}] ]}].
Proof. by vm_compute. Qed.

Example strong_is_strong :
  run (defaultParse 3 (Some "**a**") None)
  = Return [VObject {[ "type" := VString "strong";
      "content" := VArray [VObject {[ "type" := VString "text";
                                      "content" := VString "a" ]}] ]}].
Proof. by vm_compute. Qed.

(** ** C5: the output stage *)

Lemma mapM_result_Return {A B} (f : A → result B) l vs :
  mapM_result f l = Return vs ↔ Forall2 (λ a v, f a = Return v) l vs.
Proof.
  revert vs. induction l as [|a l IH]; intros vs; simpl.
  - split; [intros [= <-]; constructor|by inversion 1].
  - split.
    + destruct (f a) as [b| |] eqn:E; simpl; [|done..].
      destruct (mapM_result f l) as [bs| |] eqn:E'; simpl; [|done..].
      intros [= <-]. constructor; [done|]. by apply IH.
    + inversion 1 as [|? v ? vs' Ha Hl]; subst. rewrite Ha. simpl.
      apply IH in Hl. rewrite Hl. done.
Qed.

(** C5: on a sequence, [render] is [render] mapped over the elements, in
    order: it returns the sequence of what they return, and returns only
    if each does; on a single node it is the one call of the renderer, on
    the node and [render] itself. *)
Theorem render_distributes outputFunc fuel :
  (∀ l, outputFor outputFunc (S fuel) (VArray l)
        = VArray <$> mapM_result (outputFor outputFunc fuel) l)
  ∧ (∀ l v, outputFor outputFunc (S fuel) (VArray l) = Return v ↔
       ∃ vs, v = VArray vs ∧ length vs = length l ∧
         Forall2 (λ a r, outputFor outputFunc fuel a = Return r) l vs)
  ∧ (∀ node, isArray node = false →
       outputFor outputFunc (S fuel) node
       = outputFunc node (outputFor outputFunc fuel)).
Proof.
  split; [done|]. split.
  - intros l v. unfold outputFor. cbn [nestedOutput]. split.
    + destruct (mapM_result _ l) as [vs| |] eqn:E; simpl; [|done..].
      intros [= <-]. apply mapM_result_Return in E.
      exists vs. split; [done|]. split; [|done]. symmetry. by eapply Forall2_length.
    + intros (vs & -> & _ & H). apply mapM_result_Return in H.
      unfold outputFor in H. by rewrite H.
  - intros node Hn. by destruct node.
Qed.

(** ** C6: no renderer *)

(** C6: rendering a node whose type tag has no renderer among the rules
    fails: reading [.output] of the missing rule, or calling the missing
    [output], is a TypeError (the failure the specification names
    UnknownRuleType). *)
Theorem unknown_rule_type rules node t out fuel :
  node !! "type" = Some (VString t) →
  renderer_of rules t = None →
  ruleOutput rules (VObject node) out = Throw TypeError
  ∧ outputFor (ruleOutput rules) (S fuel) (VObject node) = Throw TypeError.
Proof.
  intros Ht Hr.
  assert (∀ out', ruleOutput rules (VObject node) out' = Throw TypeError) as H.
  { intros out'. unfold ruleOutput. simpl. rewrite Ht. simpl.
    unfold renderer_of in Hr. destruct (property rules t) as [r|]; [|done].
    simpl in Hr. by rewrite Hr. }
  split; [apply H|]. simpl. apply H.
Qed.

Lemma unknown_rule_type_witness :
  defaultOutput 1 (VObject {[ "type" := VString "lheading" ]}) = Throw TypeError.
Proof.
  apply (unknown_rule_type defaultRules {[ "type" := VString "lheading" ]}
           "lheading" (λ _, OutOfFuel) 0); reflexivity.
Defined.

Example unknown_type_in_sequence :
  defaultOutput 5 (VArray [VObject {[ "type" := VString "newline" ]};
                           VObject {[ "type" := VString "footnote" ]}])
  = Throw TypeError.
Proof. reflexivity. Qed.

Example known_types_render :
  (run (defaultParse 5 (Some (js "# hi\n")) None) ≫= defaultOutput 5 ∘ VArray)
  = Return (VArray [VElement "h1" ∅ [VArray [VString "hi"]]]).
Proof. by vm_compute. Qed.

(** ** C2: termination *)

Lemma length_substring_from n s :
  String.length (substring_from n s) = String.length s - n.
Proof. unfold substring_from. by rewrite length_str, length_drop, length_chars. Qed.

Lemma length_0_empty s : String.length s = 0 → s = "".
Proof. by destruct s. Qed.

Section termination.
Context (rules : object rule) (ruleList : list string).
Context (catchAll : string) (rc : rule).
Hypothesis catchAll_listed : catchAll ∈ ruleList.
Hypothesis catchAll_rule : property rules catchAll = Some rc.
Hypothesis catchAll_matches : ∀ s, s ≠ "" → exec (regex rc) s ≠ None.
Hypothesis contract : ∀ t r, property rules t = Some r →
                             consumes r ∧ builder_halts r.

Lemma try_rules_catch_all source k l i :
  source ≠ "" → catchAll ∈ l → try_rules rules source k l ≠ Exhausted i.
Proof using catchAll_rule catchAll_matches.
  intros Hs. revert k. induction l as [|t l IH]; intros k Hin; simpl.
  - by apply elem_of_nil in Hin.
  - apply elem_of_cons in Hin as [<-|Hin].
    + rewrite catchAll_rule. specialize (catchAll_matches source Hs).
      by destruct (exec _ _).
    + destruct (property rules t); [|done]. destruct (exec _ _); [done|]. auto.
Qed.

Lemma try_rules_matched source k l i t r c :
  try_rules rules source k l = Matched i t r c →
  property rules t = Some r ∧ exec (regex r) source = Some c.
Proof.
  revert k. induction l as [|t' l IH]; intros k; simpl; [done|].
  destruct (property rules t') as [r'|] eqn:Hr; [|done].
  destruct (exec (regex r') source) as [c'|] eqn:Hc; [|apply IH].
  intros [= <- <- <- <-]. done.
Qed.

Lemma parse_loop_halts n :
  ∃ fuel0, ∀ fuel source result state h,
    fuel0 ≤ fuel → String.length source ≤ n →
    parse_loop rules ruleList fuel source result state h ≠ OutOfFuel.
Proof using All.
  induction n as [|n (fuel0 & IH)].
  - exists 1. intros [|fuel] source result state h Hf Hn; [lia|].
    assert (source = "") as -> by (apply length_0_empty; lia). done.
  - exists (S fuel0). intros [|fuel] source result state h Hf Hn; [lia|].
    destruct (decide (source = "")) as [->|Hs]; [done|].
    destruct (try_rules rules source 0 ruleList) as [i t r c|i|] eqn:Ht.
    + destruct (try_rules_matched _ _ _ _ _ _ _ Ht) as [Hr Hc].
      destruct (contract _ _ Hr) as [Hcons Hhalt].
      destruct (Hcons _ _ Hc) as (m & Hm & Hlen).
      rewrite (parse_loop_matched _ _ _ _ _ _ i t r c m) by done.
      unfold mbind, M_bind.
      destruct (parse r c _ state h) as [[attrs h']| |] eqn:Hb; [|done|].
      * apply IH; [lia|]. rewrite length_substring_from. lia.
      * exfalso. eapply Hhalt; [exact Hc| |exact Hb].
        intros s st h' Hlt. unfold nestedParse, mbind, M_bind.
        destruct (state_or_new st h') as [[st' h'']| |] eqn:Hst;
          [|by destruct st..].
        destruct s as [s|]; [|done]. simpl in Hlt. apply IH; lia.
    + by apply try_rules_catch_all in Ht.
    + by rewrite parse_loop_no_such_rule.
Qed.


End termination.

(** The contract of C2 for rules of [defaultRules]. *)

Lemma consumes_min_length r :
  look_free (pattern (regex r)) → 1 ≤ min_length (pattern (regex r)) → consumes r.
Proof.
  intros Hwf Hmin s c Hc. apply exec_sound in Hc as [(m & Hm & Hlen) _]; [|done].
  exists m. split; [done|lia].
Qed.

Lemma group_shorter re n c i :
  exec_spec re n c → 1 ≤ min_length (pattern re) → 1 ≤ i →
  1 ≤ slack (pattern re) i →
  from_option String.length 0 (cap c i) < n.
Proof.
  intros [(m & Hm & Hlen) Hg] Hmin Hi Hs.
  destruct (cap c i) as [x|] eqn:E; simpl; [|lia].
  specialize (Hg i x Hi E). lia.
Qed.

Lemma halts_bind {A B} (m : M A) (k : A → M B) h :
  m h ≠ OutOfFuel → (∀ a h', k a h' ≠ OutOfFuel) → (m ≫= k) h ≠ OutOfFuel.
Proof.
  intros Hm Hk. unfold mbind, M_bind. destruct (m h) as [[a h']| |]; auto.
Qed.

Lemma halts_call r i (k : list value → M (gmap string value)) st :
  look_free (pattern (regex r)) → 1 ≤ min_length (pattern (regex r)) →
  1 ≤ i → 1 ≤ slack (pattern (regex r)) i →
  (∀ a h', k a h' ≠ OutOfFuel) →
  ∀ source c p h,
    exec (regex r) source = Some c → halts_below (String.length source) p →
    (p (cap c i) st ≫= k) h ≠ OutOfFuel.
Proof.
  intros Hwf Hmin Hi Hs Hk source c p h Hc Hp.
  apply halts_bind; [|done]. apply Hp.
  apply exec_sound in Hc; [|done]. by eapply group_shorter.
Qed.

Ltac halts_call r i :=
  let Hc := fresh in let Hp := fresh in
  intros ????? Hc Hp; cbn [parse];
  first [unfold parseCapture | unfold lheading_parse | unfold link_parse];
  eapply (halts_call r i);
    [exact I | simpl; lia | lia | simpl; lia | done | exact Hc | exact Hp].

Lemma builder_halts_heading :
  builder_halts (Rule patterns.heading heading_parse (Some heading_output)).
Proof.
  intros source c p state h Hc Hp. cbn [parse]. unfold heading_parse.
  apply halts_bind; [by destruct (cap c 1)|]. intros level h'.
  eapply (halts_call (Rule patterns.heading heading_parse (Some heading_output)) 2);
    [exact I | simpl; lia | lia | simpl; lia | done | exact Hc | exact Hp].
Qed.

Lemma builder_halts_em :
  builder_halts (Rule patterns.em em_parse (Some (wrap_content "em" ∅))).
Proof.
  intros source c p state h Hc Hp. cbn [parse]. unfold em_parse.
  apply halts_bind; [|done]. apply Hp.
  apply exec_sound in Hc; [|done].
  assert (from_option String.length 0 (cap c 1) < String.length source) as H1
    by (eapply group_shorter; [done|simpl; lia..]).
  assert (from_option String.length 0 (cap c 2) < String.length source) as H2
    by (eapply group_shorter; [done|simpl; lia..]).
  unfold or_else. destruct (cap c 2) as [s|]; [|done].
  by case_bool_decide.
Qed.

Lemma property_elem_of {A} (o : object A) k a :
  property o k = Some a → (k, a) ∈ o.
Proof.
  unfold property. destruct (find _ o) as [[k' a']|] eqn:E; [|done].
  intros [= <-]. apply find_some in E as [Hin Hk].
  apply bool_decide_eq_true_1 in Hk. simpl in Hk. subst. by apply list_elem_of_In.
Qed.

(** ** The end of a paragraph block: [LIST_BLOCK_END_R] *)

Lemma last_of_cons p ch t : last_of p (ch :: t) = last_of (Some ch) t.
Proof. unfold last_of. rewrite last_cons. by destruct (last t). Qed.

Lemma class_match_nl ch : class_match false [CChar LF] ch = bool_decide (ch = LF).
Proof. unfold class_match. simpl. by destruct (bool_decide _). Qed.

Lemma greedy_newlines l : ∀ fuel min p cs,
  min + length l < fuel →
  repeat_matcher (matcher false nl) [] true fuel min None (MState p l cs)
    (λ y, if at_eol false y then Some y else None)
  = if forallb (λ c, bool_decide (c = LF)) l && bool_decide (min ≤ length l)
    then Some (MState (last_of p l) [] cs) else None.
Proof.
  induction l as [|ch t IH]; intros [|fuel] min p cs Hf; try (simpl in Hf; lia).
  - cbn. destruct min; done.
  - cbn [repeat_matcher]. rewrite (bool_decide_eq_false_2 (None = Some 0)) by done.
    cbn [reset_caps foldr matcher nl Chr rest]. rewrite class_match_nl.
    cbn [forallb]. destruct (decide (ch = LF)) as [->|Hch].
    + rewrite (bool_decide_eq_true_2 (LF = LF)) by done.
      unfold advance. cbn [rest prev caps take drop length].
      rewrite (bool_decide_eq_false_2 (length t = S (length t))) by lia.
      rewrite andb_false_r. cbn [fmap option_fmap option_map].
      rewrite IH by (simpl in Hf; lia).
      change (last_of p [LF]) with (Some LF). rewrite (last_of_cons p LF t).
      destruct min as [|min]; cbn [pred negb bool_decide andb].
      * rewrite (bool_decide_eq_true_2 (0 ≤ length t)) by lia.
        rewrite (bool_decide_eq_true_2 (0 ≤ S (length t))) by lia.
        rewrite !andb_true_r, (bool_decide_eq_true_2 (0 = 0)) by done.
        cbn. by destruct (forallb _ t).
      * rewrite (bool_decide_eq_false_2 (S min = 0)) by done. cbn.
        destruct (forallb _ t); [|done]. cbn.
        destruct (decide (min ≤ length t)).
        -- by rewrite !bool_decide_eq_true_2 by lia.
        -- by rewrite !bool_decide_eq_false_2 by lia.
    + rewrite (bool_decide_eq_false_2 (ch = LF)) by done. cbn.
      destruct min; done.
Qed.

Lemma block_end_here p l :
  matcher false (pattern LIST_BLOCK_END_R) (MState p l [None]) Some
  = if forallb (λ c, bool_decide (c = LF)) l && bool_decide (2 ≤ length l)
    then Some (MState (last_of p l) [] [None]) else None.
Proof.
  cbn [LIST_BLOCK_END_R pattern matcher AtLeast rest groups nl Chr].
  by rewrite greedy_newlines by lia.
Qed.

Lemma blank_suffix_le l : blank_suffix l ≤ length l.
Proof.
  induction l as [|ch t IH]; [done|]. cbn [blank_suffix].
  destruct (forallb _ _); simpl; lia.
Qed.

Lemma block_end_scan l : ∀ p idx,
  scan LIST_BLOCK_END_R p l idx
  = if bool_decide (2 ≤ blank_suffix l)
    then Some (Found (idx + (length l - blank_suffix l))
                 [Some (str (drop (length l - blank_suffix l) l))]
                 (MState (last_of p l) [] [None]))
    else None.
Proof.
  induction l as [|ch t IH]; intros p idx; [done|].
  cbn [scan]. cbn [groups LIST_BLOCK_END_R pattern AtLeast nl Chr app length replicate multiline].
  pose proof (block_end_here p (ch :: t)) as H.
  cbn [LIST_BLOCK_END_R pattern multiline] in H. rewrite H. clear H.
  cbn [blank_suffix]. pose proof (blank_suffix_le t).
  destruct (forallb _ (ch :: t)) eqn:Hall.
  - cbn [andb]. destruct (decide (2 ≤ length (ch :: t))) as [Hlen|Hlen].
    + rewrite (bool_decide_eq_true_2 (2 ≤ length (ch :: t))) by done.
      rewrite (bool_decide_eq_true_2 (2 ≤ S (length t))) by (simpl in Hlen; lia).
      cbn [rest length]. replace (S (length t) - S (length t)) with 0 by lia.
      replace (S (length t) - 0) with (length (ch :: t)) by (simpl; lia).
      rewrite firstn_all, drop_0. cbn. by rewrite Nat.add_0_r.
    + rewrite (bool_decide_eq_false_2 (2 ≤ length (ch :: t))) by done.
      rewrite (bool_decide_eq_false_2 (2 ≤ S (length t))) by (simpl in Hlen; lia).
      destruct t; [done|]. simpl in Hlen. lia.
  - cbn [andb]. rewrite IH, (last_of_cons p ch t).
    case_bool_decide; [|done]. do 2 f_equal.
    + lia.
    + replace (S (length t) - blank_suffix t)
        with (S (length t - blank_suffix t)) by lia. done.
Qed.

Lemma search_block_end s :
  bool_decide (0 ≤ search LIST_BLOCK_END_R s)%Z = ends_with_blank_line s.
Proof.
  unfold search, ends_with_blank_line. rewrite block_end_scan.
  destruct (decide (2 ≤ blank_suffix (chars s))) as [H|H].
  - rewrite !(bool_decide_eq_true_2 (2 ≤ _)) by done.
    apply bool_decide_eq_true_2. simpl. lia.
  - rewrite !(bool_decide_eq_false_2 (2 ≤ _)) by done.
    apply bool_decide_eq_false_2. simpl. lia.
Qed.

Lemma append_empty_r s : s +:+ "" = s.
Proof.
  induction s as [|a s IH]; [done|].
  change (String a (s +:+ "") = String a s). by rewrite IH.
Qed.

Lemma replace_block_end s :
  replace LIST_BLOCK_END_R "" s = strip_blank_lines s.
Proof.
  unfold replace, strip_blank_lines, ends_with_blank_line.
  cbn [LIST_BLOCK_END_R global]. rewrite block_end_scan.
  destruct (bool_decide (2 ≤ blank_suffix (chars s))); [|done].
  cbn [index after rest]. rewrite Nat.add_0_l. cbn. by rewrite append_empty_r.
Qed.

(** The words "ends with two or more consecutive newlines". *)
Lemma forallb_LF_replicate l :
  forallb (λ c, bool_decide (c = LF)) l = true → l = replicate (length l) LF.
Proof.
  induction l as [|ch t IH]; [done|]. simpl. intros [H1 H2]%andb_prop.
  apply bool_decide_eq_true_1 in H1. subst. f_equal. auto.
Qed.

Lemma ends_with_blank_line_spec s :
  ends_with_blank_line s ↔ [LF; LF] `suffix_of` chars s.
Proof.
  unfold ends_with_blank_line. rewrite bool_decide_spec.
  induction (chars s) as [|ch t IH]; simpl.
  - split; [intros ?; exfalso; lia|]. intros [k Hk]. by destruct k as [|? [|? ?]].
  - destruct (bool_decide (ch = LF) && forallb _ t) eqn:Hall.
    + change (bool_decide (ch = LF) && forallb (λ c, bool_decide (c = LF)) t)
        with (forallb (λ c, bool_decide (c = LF)) (ch :: t)) in Hall.
      apply forallb_LF_replicate in Hall. split.
      * intros Hlen. rewrite Hall.
        exists (replicate (length (ch :: t) - 2) LF).
        change [LF; LF] with (replicate 2 LF). rewrite <- replicate_add.
        f_equal. simpl in *. lia.
      * intros [k Hk]. apply (f_equal length) in Hk.
        rewrite length_app in Hk. simpl in Hk. lia.
    + rewrite IH. split.
      * intros [k ->]. by exists (ch :: k).
      * intros [[= <- <-]|H]%suffix_cons_inv; [|done].
        by vm_compute in Hall.
Qed.

(** ** Runs of one character class *)

Lemma advance_app n x :
  advance n x = MState (last_of (prev x) (take n (rest x))) (drop n (rest x)) (caps x).
Proof. done. Qed.

Lemma last_of_app p w1 w2 : last_of (last_of p w1) w2 = last_of p (w1 ++ w2).
Proof.
  unfold last_of. rewrite last_app. by destruct (last w2), (last w1).
Qed.

(** Inversion of the paths, by the shape of the pattern. *)
Lemma steps_seq_inv ml a b x z :
  steps ml (Seq a b) x z → ∃ y, steps ml a x y ∧ steps ml b y z.
Proof. inversion 1; eauto. Qed.

Lemma steps_alt_inv ml a b x y :
  steps ml (Alt a b) x y → steps ml a x y ∨ steps ml b x y.
Proof. inversion 1; eauto. Qed.

Lemma steps_group_inv ml n a x z :
  steps ml (Group n a) x z →
  ∃ y, steps ml a x y
       ∧ z = MState (prev y) (rest y)
               (<[n := Some (str (take (length (rest x) - length (rest y)) (rest x)))]>
                  (caps y)).
Proof. inversion 1; eauto. Qed.

Lemma steps_class_inv ml negated items x y :
  steps ml (Class negated items) x y →
  ∃ ch t, rest x = ch :: t ∧ in_class negated items ch
          ∧ y = MState (Some ch) t (caps x).
Proof.
  inversion 1 as [|? ? ? ch t Hx Hc| | | | | | | | | | | | |]; subst.
  exists ch, t. split; [done|]. split; [done|].
  unfold advance. rewrite Hx. cbn [take drop]. by rewrite drop_0.
Qed.

Lemma steps_chr_inv ml c x y :
  steps ml (Chr c) x y → ∃ t, rest x = c :: t ∧ y = MState (Some c) t (caps x).
Proof.
  intros (ch & t & Hx & Hc & ->)%steps_class_inv. exists t.
  unfold in_class, class_match in Hc. simpl in Hc.
  case_bool_decide; [|done]. by subst.
Qed.

(** A path of [class{min,max}] consumes a run of characters of the class
    and leaves the captures alone. *)
Lemma steps_class_run ml greedy min max negated items x y :
  steps ml (Rep greedy min max (Class negated items)) x y →
  ∃ w r, rest x = w ++ r ∧ Forall (in_class negated items) w
         ∧ from_option (Nat.min min) min max ≤ length w
         ∧ y = MState (last_of (prev x) w) r (caps x).
Proof.
  remember (Rep greedy min max (Class negated items)) as e eqn:He.
  intros H. revert min max He.
  induction H as [| | | | |g min' max' a x Hm|g min' max' a x y z Hmax Ha _ Hn _ IHr
                 | | | | | | | |]; intros min max He; try discriminate He.
  - injection He as -> -> -> ->.
    exists [], (rest x). split; [done|]. split; [constructor|]. split.
    + destruct Hm as [->| ->]; simpl; [by destruct max|lia].
    + by destruct x.
  - injection He as -> -> -> ->.
    cbn [groups reset_caps foldr] in *.
    apply steps_class_inv in Ha as (ch & t & Hx & Hc & ->).
    destruct (IHr (pred min) (pred <$> max) eq_refl) as (w & r & Hw & HF & Hlen & ->).
    cbn [rest prev caps] in *.
    exists (ch :: w), r. split; [by rewrite Hx, Hw|]. split; [by constructor|]. split.
    + destruct max as [[|k]|]; simpl in *; [done|destruct min; simpl in *; lia..].
    + by rewrite last_of_cons.
Qed.

Lemma matcher_class_cons ml negated items p ch t cs c :
  matcher ml (Class negated items) (MState p (ch :: t) cs) c
  = if class_match negated items ch then c (MState (Some ch) t cs) else None.
Proof. done. Qed.

Lemma matcher_class_nil ml negated items p cs c :
  matcher ml (Class negated items) (MState p [] cs) c = None.
Proof. done. Qed.

(** Greedy repetition of a class, on a run of the class that stops: the
    whole run is tried first, so the repetition succeeds when its
    continuation does after the run. *)
Lemma greedy_run ml negated items (c : cont) tail cs : ∀ w fuel min max p,
  Forall (in_class negated items) w →
  (stops negated items tail ∨ max = Some (length w)) →
  min ≤ length w → (∀ k, max = Some k → length w ≤ k) →
  min + length (w ++ tail) < fuel →
  c (MState (last_of p w) tail cs) ≠ None →
  repeat_matcher (matcher ml (Class negated items)) [] true fuel min max
    (MState p (w ++ tail) cs) c ≠ None.
Proof.
  induction w as [|ch w IH]; intros fuel min max p HF Hstop Hmin Hmax Hfuel Hc;
    (destruct fuel as [|fuel]; [simpl in Hfuel; lia|]); cbn [repeat_matcher].
  - simpl in Hmin. assert (min = 0) as -> by lia.
    case_bool_decide; [done|]. cbn [bool_decide negb reset_caps foldr app].
    by destruct (matcher _ _ _ _).
  - inversion HF as [|? ? Hch HF']; subst.
    rewrite (bool_decide_eq_false_2 (max = Some 0)).
    2:{ intros ->. specialize (Hmax 0 eq_refl). simpl in Hmax. lia. }
    cbn [reset_caps foldr rest app]. rewrite matcher_class_cons, Hch.
    cbn [rest].
    rewrite (bool_decide_eq_false_2 (length (w ++ tail) = length (ch :: w ++ tail)))
      by (simpl; lia).
    rewrite andb_false_r.
    assert (repeat_matcher (matcher ml (Class negated items)) [] true fuel
              (pred min) (pred <$> max) (MState (Some ch) (w ++ tail) cs) c ≠ None)
      as Hrec.
    { apply IH; [done| | | | |].
      - destruct Hstop as [?| ->]; [by left|by right].
      - simpl in Hmin. lia.
      - intros k Hk. destruct max as [k'|]; simplify_eq/=.
        specialize (Hmax k' eq_refl). lia.
      - simpl in Hfuel. simpl. lia.
      - by rewrite <- (last_of_cons p). }
    destruct (repeat_matcher _ _ _ fuel _ _ _ _); [|done].
    unfold in_class in Hch. rewrite ?Hch. by destruct (negb _).
Qed.

(** An optional repetition never fails before its continuation does. *)
Lemma star_total ma gs greedy fuel max x (c : cont) :
  c x ≠ None → repeat_matcher ma gs greedy (S fuel) 0 max x c ≠ None.
Proof.
  intros Hc. cbn [repeat_matcher]. case_bool_decide; [done|]. cbn.
  destruct greedy.
  - by destruct (ma _ _).
  - by destruct (c x).
Qed.

(** ** The start of a list item *)

Lemma take_app_sub {A} (w r : list A) :
  take (length (w ++ r) - length r) (w ++ r) = w.
Proof.
  rewrite length_app. replace (length w + length r - length r) with (length w) by lia.
  by rewrite take_app_length.
Qed.

Lemma steps_prefix ml x y :
  steps ml LIST_ITEM_PREFIX x y →
  ∃ s b tail, spaces s ∧ bullet_text b ∧ rest x = s ++ b ++ " "%char :: tail
              ∧ y = after_prefix s b tail (caps x).
Proof.
  unfold LIST_ITEM_PREFIX. cbn [Cat].
  intros (y1 & (y0 & H0 & ->)%steps_group_inv
             & (y2 & (y2' & Hb & ->)%steps_group_inv & Hsp)%steps_seq_inv)%steps_seq_inv.
  apply steps_class_run in H0 as (s & r & Hs & HFs & _ & ->).
  apply steps_chr_inv in Hsp as (tail & Hx3 & ->).
  cbn [rest prev caps] in *. rewrite Hs, take_app_sub in *.
  assert (∃ b, bullet_text b ∧ r = b ++ rest y2'
               ∧ caps y2' = <[1 := Some (str s)]> (caps x)) as (b & Hb1 & -> & Hb3).
  { unfold LIST_BULLET in Hb. apply steps_alt_inv in Hb as [Hl|Hr].
    - apply steps_class_inv in Hl as (ch & t & Hx & Hc & ->).
      cbn [rest] in Hx. subst r. exists [ch]. split; [left; eauto|done].
    - apply steps_seq_inv in Hr as (y3 & Hd & Hp).
      apply steps_class_run in Hd as (ds & r' & Hds & HFd & Hlen & ->).
      apply steps_chr_inv in Hp as (t & Hx & ->).
      cbn [rest prev caps] in *. subst r r'.
      exists (ds ++ ["."%char]). split.
      + right. exists ds. split; [|done]. intros ->. simpl in Hlen. lia.
      + by rewrite <- app_assoc. }
  exists s, b, tail. split; [done|]. split; [done|]. split.
  - by rewrite Hx3.
  - unfold after_prefix. rewrite take_app_sub, Hb3. done.
Qed.

Lemma matcher_seq ml a b x c :
  matcher ml (Seq a b) x c = matcher ml a x (λ y, matcher ml b y c).
Proof. done. Qed.

Lemma matcher_group ml n a x c :
  matcher ml (Group n a) x c
  = matcher ml a x (λ y,
      c (set_cap n (Some (str (take (length (rest x) - length (rest y)) (rest x)))) y)).
Proof. done. Qed.

Lemma matcher_alt ml a b x c :
  matcher ml (Alt a b) x c
  = match matcher ml a x c with Some z => Some z | None => matcher ml b x c end.
Proof. done. Qed.

Lemma matcher_rep ml greedy min max a x c :
  matcher ml (Rep greedy min max a) x c
  = repeat_matcher (matcher ml a) (groups a) greedy
      (min + length (rest x) + 1) min max x c.
Proof. done. Qed.

Lemma bullet_char_not_space ch :
  in_class false (CChar <$> chars "*+-") ch → class_match false [CChar " "] ch = false.
Proof. destruct ch as [[] [] [] [] [] [] [] []]; by vm_compute. Qed.

Lemma digit_not_space ch :
  in_class false [CDigit] ch → class_match false [CChar " "] ch = false.
Proof. destruct ch as [[] [] [] [] [] [] [] []]; by vm_compute. Qed.

Lemma digit_not_bullet_char ch :
  in_class false [CDigit] ch → class_match false (CChar <$> chars "*+-") ch = false.
Proof. destruct ch as [[] [] [] [] [] [] [] []]; by vm_compute. Qed.

Lemma bullet_text_stops b tail :
  bullet_text b → stops false [CChar " "] (b ++ tail).
Proof.
  intros [(ch & -> & Hc)|(ds & Hne & HF & ->)] ch' t; simpl.
  - intros [= <- <-]. by apply bullet_char_not_space.
  - destruct ds as [|d ds]; [done|]. intros [= <- <-].
    inversion HF; subst. by apply digit_not_space.
Qed.

(** A string that starts with an item prefix is matched by the prefix
    pattern, whatever comes before: the greedy star takes all the spaces
    and the bullet must follow. *)
Lemma prefix_matches ml s b tail p cs (c : cont) :
  spaces s → bullet_text b →
  c (after_prefix s b tail cs) ≠ None →
  matcher ml LIST_ITEM_PREFIX (MState p (s ++ b ++ " "%char :: tail) cs) c ≠ None.
Proof.
  intros Hs Hb Hc. unfold LIST_ITEM_PREFIX. cbn [Cat].
  rewrite matcher_seq, matcher_group. unfold Star at 1, sp at 1, Chr at 1.
  rewrite matcher_rep. cbn [groups rest].
  apply greedy_run; [done|left; by apply bullet_text_stops|simpl; lia|done|lia|].
  rewrite take_app_sub. unfold set_cap. cbn [rest prev caps].
  rewrite matcher_seq, matcher_group. cbn [rest]. unfold set_cap. unfold LIST_BULLET.
  rewrite matcher_alt.
  destruct Hb as [(ch & -> & Hch)|(ds & Hne & HF & ->)].
  - unfold OneOf at 1. cbn [app]. rewrite matcher_class_cons, Hch. cbn [rest prev caps].
    unfold sp, Chr. rewrite matcher_class_cons.
    change (class_match false [CChar " "] " ") with true. cbn iota.
    change (take (length (ch :: " "%char :: tail) - length (" "%char :: tail))
              (ch :: " "%char :: tail))
      with (take (length ([ch] ++ " "%char :: tail) - length (" "%char :: tail))
              ([ch] ++ " "%char :: tail)).
    rewrite take_app_sub.
    unfold after_prefix in Hc. by destruct (c _).
  - destruct ds as [|d ds]; [done|]. inversion HF as [|? ? Hd HF']; subst.
    unfold OneOf at 1. cbn [app]. rewrite matcher_class_cons.
    rewrite (digit_not_bullet_char d Hd).
    rewrite matcher_seq. unfold Plus, Digit. rewrite matcher_rep. cbn [groups rest].
    rewrite <- !app_assoc.
    change (d :: ds ++ ["."%char] ++ " "%char :: tail)
      with ((d :: ds) ++ "."%char :: " "%char :: tail).
    apply greedy_run; [done| |simpl; lia|done|lia|].
    { left. intros ch t [= <- <-]. done. }
    unfold Chr. rewrite matcher_class_cons.
    change (class_match false [CChar "."] ".") with true. cbn iota.
    cbn [rest prev caps]. unfold sp, Chr. rewrite matcher_class_cons.
    change (class_match false [CChar " "] " ") with true. cbn iota.
    replace ((d :: ds) ++ "."%char :: " "%char :: tail)
      with (((d :: ds) ++ ["."%char]) ++ " "%char :: tail) by by rewrite <- app_assoc.
    rewrite take_app_sub. unfold after_prefix in Hc. done.
Qed.

(** ** Items always have a content *)

Lemma chars_str l : chars (str l) = l.
Proof. apply list_ascii_of_string_of_list_ascii. Qed.

Lemma str_chars s : str (chars s) = s.
Proof. apply string_of_list_ascii_of_string. Qed.

(** A path consumes a prefix of the remaining input. *)
Lemma steps_text ml r x y : steps ml r x y → ∃ w, rest x = w ++ rest y.
Proof.
  induction 1 as [x|neg items x ch t Hx Hc|a b x y z _ [w1 H1] _ [w2 H2]
                 |a b x y _ IH|a b x y _ IH
                 |g min max a x Hm|g min max a x y z Hmax _ [w1 H1] Hn _ [w2 H2]
                 |j a x y _ [w H]|j x Hj|j x s Hj Hs|a x y _ IH|a x Hn
                 |x Hb|x He|x Hw]; try by exists [].
  - exists [ch]. unfold advance. rewrite Hx. cbn. by rewrite drop_0.
  - exists (w1 ++ w2). by rewrite H1, H2, app_assoc.
  - done.
  - done.
  - rewrite reset_caps_rest in H1. exists (w1 ++ w2). by rewrite H1, H2, app_assoc.
  - by exists w.
  - exists (take (String.length s) (rest x)). unfold advance. cbn.
    by rewrite take_drop.
Qed.

(** What a successful [scan] found, and where. *)
Lemma scan_inv re : ∀ input p idx f,
  scan re p input idx = Some f →
  ∃ skipped input',
    input = skipped ++ input' ∧ index f = idx + length skipped
    ∧ matcher (multiline re) (pattern re)
        (MState (last_of p skipped) input'
           (replicate (S (length (groups (pattern re)))) None)) Some
      = Some (after f)
    ∧ captures f
      = <[0 := Some (str (take (length input' - length (rest (after f))) input'))]>
          (caps (after f)).
Proof.
  induction input as [|ch t IH]; intros p idx f; cbn [scan].
  - destruct (matcher _ _ _ _) as [y|] eqn:E; [|done]. intros [= <-].
    exists [], []. cbn. by rewrite Nat.add_0_r.
  - destruct (matcher _ _ _ _) as [y|] eqn:E.
    + intros [= <-]. exists [], (ch :: t). cbn [app length index after captures].
      by rewrite Nat.add_0_r.
    + intros (sk & input' & -> & Hi & Hm & Hc)%IH.
      exists (ch :: sk), input'. rewrite last_of_cons. cbn [app length].
      split; [done|]. split; [lia|done].
Qed.

Lemma scan_first re p input idx :
  matcher (multiline re) (pattern re)
    (MState p input (replicate (S (length (groups (pattern re)))) None)) Some ≠ None →
  scan re p input idx ≠ None.
Proof. intros H. destruct input; cbn [scan]; by destruct (matcher _ _ _ _). Qed.

Lemma captures_scan re input p idx f :
  look_free (pattern re) →
  scan re p input idx = Some f →
  ∃ skipped w,
    input = skipped ++ w ++ rest (after f)
    ∧ captures f = <[0 := Some (str w)]> (caps (after f))
    ∧ length (caps (after f)) = S (length (groups (pattern re)))
    ∧ matcher (multiline re) (pattern re)
        (MState (last_of p skipped) (w ++ rest (after f))
           (replicate (S (length (groups (pattern re)))) None)) Some
      = Some (after f).
Proof.
  intros Hwf (sk & input' & -> & Hi & Hm & Hc)%scan_inv.
  pose proof Hm as Hm'. apply matcher_steps in Hm' as (y & Hs & [= ->]).
  pose proof (steps_follows _ _ _ _ Hs Hwf) as [_ _ N _].
  apply steps_text in Hs as [w Hw]. cbn [rest caps] in *.
  exists sk, w. rewrite Hw in *. split; [done|].
  rewrite Hc, take_app_sub, N, length_replicate. done.
Qed.

Lemma matched_scan re input p idx f :
  look_free (pattern re) →
  scan re p input idx = Some f →
  ∃ skipped w,
    input = skipped ++ w ++ rest (after f) ∧ matched f = str w
    ∧ matcher (multiline re) (pattern re)
        (MState (last_of p skipped) (w ++ rest (after f))
           (replicate (S (length (groups (pattern re)))) None)) Some
      = Some (after f).
Proof.
  intros Hwf (sk & w & ? & Hc & N & ?)%captures_scan; [|done].
  exists sk, w. split; [done|]. split; [|done].
  unfold matched. rewrite Hc, list_lookup_insert_eq; [done|lia].
Qed.

(** A property of every text matched by [re] holds of the texts that
    [matches] lists. *)
Lemma matches_Forall re (P : string → Prop) :
  (∀ p input idx f, scan re p input idx = Some f → P (matched f)) →
  ∀ fuel p input, Forall (λ m, P m.2) (matches fuel re p input).1.
Proof.
  intros HP. induction fuel as [|fuel IH]; intros p input; cbn [matches].
  { constructor. }
  destruct (scan re p input 0) as [f|] eqn:E; [|constructor].
  pose proof (HP _ _ _ _ E) as Hf.
  case_bool_decide as Hm.
  - destruct (rest (after f)) as [|ch t]; [by repeat constructor; rewrite <- Hm|].
    specialize (IH (Some ch) t).
    destruct (matches fuel re (Some ch) t) as [[|[sk m] ms] tl]; cbn in *.
    + repeat constructor. by rewrite <- Hm.
    + inversion IH; subst. constructor; [by rewrite <- Hm|]. by constructor.
  - specialize (IH (prev (after f)) (rest (after f))).
    destruct (matches fuel re _ _) as [ms tl]. by constructor.
Qed.

Lemma matches_found fuel re p input f :
  scan re p input 0 = Some f → (matches (S fuel) re p input).1 ≠ [].
Proof.
  intros E. cbn [matches]. rewrite E. case_bool_decide.
  - destruct (rest (after f)); [done|]. by destruct (skip_char _ _).
  - by destruct (matches fuel re _ _).
Qed.

Lemma prefix_min_length : min_length (pattern LIST_ITEM_PREFIX_R) = 2.
Proof. reflexivity. Qed.

Lemma item_content_returns item :
  item_text item → ∃ content, item_content item = Return content.
Proof.
  intros (s & b & tail & Hs & Hb & Hitem). unfold item_content.
  destruct (exec LIST_ITEM_PREFIX_R item) as [c|] eqn:E.
  - apply exec_sound in E as [(m & -> & Hlen) _]; [|done].
    rewrite prefix_min_length in Hlen. unfold spaceRegex.
    rewrite bool_decide_eq_false_2 by lia. eauto.
  - exfalso. unfold exec in E.
    destruct (scan LIST_ITEM_PREFIX_R None (chars item) 0) eqn:S; [done|].
    revert S. apply scan_first. rewrite Hitem.
    cbn [LIST_ITEM_PREFIX_R pattern multiline]. rewrite matcher_seq.
    cbn [matcher at_bol prev]. by apply prefix_matches.
Qed.

Lemma scan_item p input idx f :
  scan LIST_ITEM_R p input idx = Some f → item_text (matched f).
Proof.
  intros (sk & w & -> & -> & Hm)%matched_scan; [|done].
  apply matcher_steps in Hm as (y & Hs & [= ->]).
  cbn [LIST_ITEM_R pattern Cat] in Hs.
  apply steps_seq_inv in Hs as (y1 & Hp & Hr).
  apply steps_prefix in Hp as (s & b & tail & Hs & Hb & Hx & ->).
  apply steps_text in Hr as [w2 Hw2]. unfold after_prefix in Hw2.
  cbn [rest] in *. subst tail.
  exists s, b, w2. split; [done|]. split; [done|]. rewrite chars_str.
  apply (app_inv_tail (rest (after f))). rewrite Hx.
  by rewrite <- !app_assoc.
Qed.

Lemma match_global_items whole items :
  match_global LIST_ITEM_R whole = Some items → Forall item_text items.
Proof.
  unfold match_global, all_matches.
  pose proof (matches_Forall LIST_ITEM_R item_text scan_item
                (S (String.length whole)) None (chars whole)) as HF.
  destruct (matches _ _ _ _) as [[|m ms] tl]; [done|]. intros [= <-].
  cbn [fst] in HF. change (Forall item_text (snd <$> m :: ms)).
  by rewrite Forall_fmap.
Qed.

Lemma Forall_returns {A B} (f : A → result B) l :
  Forall (λ a, ∃ b, f a = Return b) l → ∃ bs, Forall2 (λ a b, f a = Return b) l bs.
Proof.
  induction 1 as [|a l [b Hb] _ [bs IH]]; [by exists []|].
  exists (b :: bs). by constructor.
Qed.

(** ** What the list pattern captures *)

Lemma item_matches p w tail cs :
  item_text (str w) →
  matcher true (pattern LIST_ITEM_R) (MState p (w ++ tail) cs) Some ≠ None.
Proof.
  intros (s & b & t & Hs & Hb & Hw). rewrite chars_str in Hw. subst w.
  cbn [LIST_ITEM_R pattern Cat]. rewrite matcher_seq.
  replace ((s ++ b ++ " "%char :: t) ++ tail) with (s ++ b ++ " "%char :: t ++ tail)
    by by rewrite <- !app_assoc.
  apply prefix_matches; [done..|].
  rewrite matcher_seq. unfold Star at 1. rewrite matcher_rep, Nat.add_1_r.
  apply star_total. unfold Star at 1. rewrite matcher_rep, Nat.add_1_r.
  by apply star_total.
Qed.

Lemma list_capture source capture :
  exec patterns.list source = Some capture →
  ∃ bullet whole items contents,
    cap capture 2 = Some bullet ∧ bullet_text (chars bullet)
    ∧ cap capture 0 = Some whole
    ∧ match_global LIST_ITEM_R whole = Some items ∧ items ≠ []
    ∧ Forall2 (λ it c, item_content it = Return c) items contents.
Proof.
  unfold exec. destruct (scan _ _ _ _) as [f|] eqn:E; [|done]. intros [= <-].
  apply captures_scan in E as (sk & w & _ & Hc & N & Hm); [|done].
  apply matcher_steps in Hm as (y & Hs & [= ->]).
  cbn [patterns.list pattern Cat] in Hs.
  apply steps_seq_inv in Hs as (x0 & Hbol & Hs). inversion Hbol; subst x0.
  apply steps_seq_inv in Hs as (y1 & Hg1 & Hs).
  apply steps_seq_inv in Hs as (y2 & Hg2 & Hs).
  apply steps_seq_inv in Hs as (y3 & Hg3 & Hr).
  assert (steps false LIST_ITEM_PREFIX
            (MState (last_of None sk) (w ++ rest (after f))
               (replicate (S (length (groups (pattern patterns.list)))) None)) y3)
    as (s & b & tail & Hsp & Hb & Hx & ->)%steps_prefix
    by (unfold LIST_ITEM_PREFIX; cbn [Cat]; eauto using steps).
  pose proof (steps_follows _ _ _ _ Hr I) as [_ C _ _].
  apply steps_text in Hr as [w2 Hw2]. unfold after_prefix in *.
  cbn [rest caps] in *. subst tail.
  assert (w = s ++ b ++ " "%char :: w2) as ->.
  { apply (app_inv_tail (rest (after f))). rewrite Hx. by rewrite <- !app_assoc. }
  assert (item_text (str (s ++ b ++ " "%char :: w2))) as Hitem.
  { exists s, b, w2. by rewrite chars_str. }
  destruct (match_global LIST_ITEM_R (str (s ++ b ++ " "%char :: w2)))
    as [items|] eqn:Hitems.
  - destruct (Forall_returns item_content items) as [contents HF].
    { eapply Forall_impl; [by eapply match_global_items|].
      apply item_content_returns. }
    exists (str b), (str (s ++ b ++ " "%char :: w2)), items, contents.
    split; [|split; [by rewrite chars_str|split; [|split; [done|split; [|done]]]]].
    + unfold cap. rewrite Hc, list_lookup_insert_ne by done.
      rewrite (C 2) by (vm_compute; set_solver). done.
    + unfold cap. rewrite Hc, list_lookup_insert_eq by lia. done.
    + intros ->. revert Hitems. unfold match_global.
      by destruct (all_matches _ _) as [[|[] ?] ?].
  - exfalso. revert Hitems. unfold match_global, all_matches.
    pose proof (matches_found (String.length (str (s ++ b ++ " "%char :: w2)))
                  LIST_ITEM_R None (chars (str (s ++ b ++ " "%char :: w2)))) as Hne.
    destruct (scan LIST_ITEM_R None (chars (str (s ++ b ++ " "%char :: w2))) 0)
      as [f'|] eqn:E'.
    + specialize (Hne f' eq_refl). by destruct (matches _ _ _ _) as [[|] ?].
    + exfalso. revert E'. apply scan_first. rewrite chars_str.
      rewrite <- (app_nil_r (s ++ _)). by apply item_matches.
Qed.

(** ** The list builder *)

Lemma lift_bind {A B} (a : A) (k : A → M B) h : (lift (Return a) ≫= k) h = k a h.
Proof. done. Qed.

Lemma defined_bind {B} s (k : string → M B) h : (defined (Some s) ≫= k) h = k s h.
Proof. done. Qed.

Lemma bind_assoc_run {A B} (m : M A) (k : A → M B) h :
  (m ≫= k) h = match m h with
               | Return (a, h') => k a h'
               | Throw e => Throw e
               | OutOfFuel => OutOfFuel
               end.
Proof. done. Qed.

Lemma list_item_run parse state n item i flag c h :
  item_content item = Return c →
  list_item parse state n item i flag h
  = match parse (Some (if bool_decide (i = n - 2)%Z then c
                       else if bool_decide (i = n - 1)%Z
                            then (if flag then c else strip_blank_lines c)
                            else c)) (Some state) h with
    | Return (r, h') =>
      Return ((r, if bool_decide (i = n - 2)%Z then ends_with_blank_line c
                  else flag), h')
    | Throw e => Throw e
    | OutOfFuel => OutOfFuel
    end.
Proof.
  intros Hc. unfold list_item. rewrite Hc, lift_bind.
  rewrite search_block_end, replace_block_end.
  destruct (bool_decide (i = n - 2)%Z), (bool_decide (i = n - 1)%Z), flag;
    cbn [negb]; rewrite bind_assoc_run;
    by destruct (parse _ _ h) as [[r h']| |].
Qed.

Lemma list_items_cons parse state n item items i flag h :
  list_items parse state n (item :: items) i flag h
  = match list_item parse state n item i flag h with
    | Return ((r, flag'), h') =>
      match list_items parse state n items (i + 1) flag' h' with
      | Return (rs, h2) => Return (VArray r :: rs, h2)
      | Throw e => Throw e
      | OutOfFuel => OutOfFuel
      end
    | Throw e => Throw e
    | OutOfFuel => OutOfFuel
    end.
Proof.
  cbn [list_items]. rewrite bind_assoc_run.
  destruct (list_item _ _ _ _ _ _ h) as [[[r flag'] h']| |]; [|done..].
  rewrite bind_assoc_run. by destruct (list_items _ _ _ _ _ _ h') as [[rs h2]| |].
Qed.

Lemma mapM_M_cons {A B} (f : A → M B) a l h :
  mapM_M f (a :: l) h
  = match f a h with
    | Return (b, h') =>
      match mapM_M f l h' with
      | Return (bs, h2) => Return (b :: bs, h2)
      | Throw e => Throw e
      | OutOfFuel => OutOfFuel
      end
    | Throw e => Throw e
    | OutOfFuel => OutOfFuel
    end.
Proof.
  cbn [mapM_M]. rewrite bind_assoc_run. destruct (f a h) as [[b h']| |]; [|done..].
  rewrite bind_assoc_run. by destruct (mapM_M f l h') as [[bs h2]| |].
Qed.

Lemma parse_item_run parse state c h :
  parse_item parse state c h
  = match parse (Some c) (Some state) h with
    | Return (r, h') => Return (VArray r, h')
    | Throw e => Throw e
    | OutOfFuel => OutOfFuel
    end.
Proof.
  unfold parse_item. rewrite bind_assoc_run.
  by destruct (parse _ _ h) as [[r h']| |].
Qed.

Lemma list_items_adjusted (parse : parse_fn) (state : loc) (n : Z) (items : list string) :
  ∀ contents i flag h,
  Forall2 (λ it c, item_content it = Return c) items contents →
  (i + Z.of_nat (length items) = n)%Z →
  list_items parse state n items i flag h
  = mapM_M (parse_item parse state) (adjusted flag contents) h.
Proof.
  induction items as [|item items IH]; intros contents i flag h HF Hn.
  { by inversion HF. }
  inversion HF as [|? c ? cs Hc HF1]. simplify_eq.
  rewrite list_items_cons, (list_item_run _ _ _ _ _ _ c) by done.
  destruct HF1 as [|item1 c1 items cs Hc1 HF2].
  - cbn [adjusted]. rewrite mapM_M_cons, parse_item_run.
    rewrite (bool_decide_eq_false_2 (i = _ - 2)%Z) by (simpl; lia).
    rewrite (bool_decide_eq_true_2 (i = _ - 1)%Z) by (simpl; lia).
    by destruct (parse _ _ h) as [[r h']| |].
  - cbn [adjusted]. rewrite mapM_M_cons, parse_item_run.
    destruct HF2 as [|item2 c2 items cs Hc2 HF3].
    + rewrite (bool_decide_eq_true_2 (i = _ - 2)%Z) by (simpl; lia).
      destruct (parse _ _ h) as [[r h']| |]; [|done..].
      rewrite (IH [c1]); [done|by repeat constructor|simpl; lia].
    + rewrite (bool_decide_eq_false_2 (i = _ - 2)%Z) by (simpl; lia).
      rewrite (bool_decide_eq_false_2 (i = _ - 1)%Z) by (simpl; lia).
      destruct (parse _ _ h) as [[r h']| |]; [|done..].
      rewrite (IH (c1 :: c2 :: cs)); [done|by repeat constructor|simpl; lia].
Qed.

Lemma adjusted_two flag front prev last :
  adjusted flag (front ++ [prev; last])
  = front ++ [prev; if ends_with_blank_line prev then last
                    else strip_blank_lines last].
Proof.
  induction front as [|c front IH]; [done|].
  cbn [app adjusted]. destruct (front ++ [prev; last]) as [|c1 [|c2 t]] eqn:E.
  - by destruct front.
  - by destruct front as [|? [|? ?]].
  - by rewrite IH.
Qed.

Lemma list_parse_items capture parse state h bullet whole items contents :
  cap capture 2 = Some bullet → cap capture 0 = Some whole →
  match_global LIST_ITEM_R whole = Some items →
  Forall2 (λ it c, item_content it = Return c) items contents →
  list_parse capture parse state h
  = (rs ← mapM_M (parse_item parse state) (adjusted false contents);
     mret (list_node bullet rs)) h.
Proof.
  intros Hb Hw Hi HF. unfold list_parse.
  rewrite Hb, defined_bind, Hw, defined_bind, Hi. cbn [default].
  rewrite bind_assoc_run, (list_items_adjusted _ _ _ _ contents) by (done || lia).
  by rewrite <- bind_assoc_run.
Qed.

(** C8: every capture of the list pattern has a bullet, items and a
    dedented content for each item; when there are two items or more,
    the list builder parses the contents as they are, but for the last
    one: it keeps its trailing blank lines when the content of the item
    before it ends with two newlines or more (a loose list), and is
    stripped of its trailing run of two newlines or more otherwise (a
    tight list). *)
Theorem list_tight_or_loose source capture parse state h :
  exec patterns.list source = Some capture →
  ∃ bullet whole items contents,
    cap capture 2 = Some bullet ∧ cap capture 0 = Some whole
    ∧ match_global LIST_ITEM_R whole = Some items
    ∧ Forall2 (λ it c, item_content it = Return c) items contents
    ∧ ∀ front prev last, contents = front ++ [prev; last] →
        list_parse capture parse state h
        = (rs ← mapM_M (parse_item parse state)
                  (front ++ [prev; if ends_with_blank_line prev then last
                                   else strip_blank_lines last]);
           mret (list_node bullet rs)) h.
Proof.
  intros (bullet & whole & items & contents & Hb & _ & Hw & Hi & _ & HF)%list_capture.
  exists bullet, whole, items, contents. repeat (split; [done|]).
  intros front prev last ->.
  erewrite list_parse_items by done. by rewrite adjusted_two.
Qed.

(** C10: when the capture of the list pattern has exactly one item, the
    item has a dedented content, and the list builder parses that content
    stripped of its trailing run of two newlines or more, whatever the
    content ends with. *)
Theorem single_item_is_tight source capture parse state h whole item :
  exec patterns.list source = Some capture →
  cap capture 0 = Some whole →
  match_global LIST_ITEM_R whole = Some [item] →
  ∃ bullet content,
    cap capture 2 = Some bullet ∧ item_content item = Return content
    ∧ list_parse capture parse state h
      = (r ← parse_item parse state (strip_blank_lines content);
         mret (list_node bullet [r])) h.
Proof.
  intros (bullet & whole' & items & contents & Hb & _ & Hw & Hi & _ & HF)%list_capture
    Hw' Hi'.
  simplify_eq.
  apply Forall2_cons_inv_l in HF as (content & cs & Hc & HF & ->).
  apply Forall2_nil_inv_l in HF as ->.
  exists bullet, content. split; [done|]. split; [done|].
  erewrite list_parse_items; [|done..|by repeat constructor].
  cbn [adjusted mapM_M]. unfold mbind, M_bind.
  by destruct (parse_item _ _ _ h) as [[r h']| |].
Qed.

Lemma mapM_M_returns {A B} (f : A → M B) :
  (∀ a h, ∃ b h', f a h = Return (b, h')) →
  ∀ l h, ∃ bs h', mapM_M f l h = Return (bs, h') ∧ length bs = length l.
Proof.
  intros Hf. induction l as [|a l IH]; intros h.
  - by exists [], h.
  - rewrite mapM_M_cons. destruct (Hf a h) as (b & h1 & ->).
    destruct (IH h1) as (bs & h2 & -> & Hlen).
    exists (b :: bs), h2. split; [done|]. simpl. by rewrite Hlen.
Qed.

Lemma length_adjusted flag cs : length (adjusted flag cs) = length cs.
Proof.
  revert flag. induction cs as [|c cs IH]; intros flag; [done|].
  destruct cs as [|c' cs]; [done|].
  change (length (c :: adjusted (match cs with
                                 | [] => ends_with_blank_line c
                                 | _ => flag
                                 end) (c' :: cs)) = length (c :: c' :: cs)).
  cbn [length]. f_equal. apply IH.
Qed.

(** ** C7: ordered lists *)

Lemma bullet_text_length b :
  bullet_text b →
  (1 < length b ↔ ∃ ds, ds ≠ [] ∧ Forall (in_class false [CDigit]) ds
                        ∧ b = ds ++ ["."%char]).
Proof.
  intros [(ch & -> & _)|(ds & Hne & Hds & ->)]; split.
  - simpl. lia.
  - intros (ds & Hne & _ & E). destruct ds as [|? [|? ?]]; by simplify_eq/=.
  - eauto.
  - intros _. rewrite length_app. destruct ds; [done|]. simpl. lia.
Qed.

(** C7: every capture of the list pattern has a first bullet, which is
    longer than one character exactly when it is digits and a period;
    whenever the list builder returns, the [ordered] attribute it returns
    is true exactly when that bullet is longer than one character; and
    the builder does return a list node, with at least one item, when the
    parse function it is handed returns. *)
Theorem ordered_iff_long_bullet source capture parse state h :
  exec patterns.list source = Some capture →
  ∃ bullet,
    cap capture 2 = Some bullet
    ∧ (1 < String.length bullet
       ↔ ∃ ds, ds ≠ [] ∧ Forall (in_class false [CDigit]) ds
               ∧ chars bullet = ds ++ ["."%char])
    ∧ (∀ attrs h', list_parse capture parse state h = Return (attrs, h') →
         ∃ b, attrs !! "ordered" = Some (VBool b)
              ∧ (b = true ↔ 1 < String.length bullet))
    ∧ ((∀ s st h0, ∃ r h1, parse s st h0 = Return (r, h1)) →
       ∃ rs h', list_parse capture parse state h
                = Return (list_node bullet rs, h') ∧ rs ≠ []).
Proof.
  intros (bullet & whole & items & contents & Hb & Ht & Hw & Hi & Hne & HF)%list_capture.
  exists bullet. split; [done|]. split; [|split].
  - rewrite <- length_chars. by apply bullet_text_length.
  - intros attrs h'. unfold list_parse. rewrite Hb, defined_bind, Hw, defined_bind.
    rewrite bind_assoc_run.
    destruct (list_items _ _ _ _ _ _ h) as [[rs h1]| |]; [|done..].
    intros [= <- <-]. eexists. split.
    + by rewrite lookup_insert_eq.
    + by rewrite bool_decide_eq_true.
  - intros Hp.
    destruct (mapM_M_returns (parse_item parse state)) with
      (l := adjusted false contents) (h := h) as (rs & h' & Hrs & Hlen).
    { intros c h0. rewrite parse_item_run.
      destruct (Hp (Some c) (Some state) h0) as (r & h1 & ->). eauto. }
    exists rs, h'. split.
    + rewrite (list_parse_items _ _ _ _ _ _ _ _ Hb Hw Hi HF).
      rewrite bind_assoc_run, Hrs. done.
    + intros ->. rewrite length_adjusted in Hlen.
      apply Forall2_length in HF. destruct items; [done|]. simpl in *. lia.
Qed.

Lemma ordered_iff_long_bullet_witness :
  ∃ rs h', list_parse [Some (js "1. a\n"); Some ""; Some "1."]
             (λ s st h0, Return ([of_string s], h0)) 0 [∅]
           = Return (list_node "1." rs, h') ∧ rs ≠ [].
Proof.
  destruct (ordered_iff_long_bullet (js "1. a\n")
              [Some (js "1. a\n"); Some ""; Some "1."]
              (λ s st h0, Return ([of_string s], h0)) 0 [∅])
    as (bullet & Hb & _ & _ & H).
  { by vm_compute. }
  injection Hb as <-. apply H. intros s st h0. eauto.
Defined.

(** The examples of the specification, through the whole parser. *)
Example ordered_list :
  exec patterns.list (js "1. a\n") = Some [Some (js "1. a\n"); Some ""; Some "1."]
  ∧ run (defaultParse 5 (Some (js "1. a\n")) None)
    = Return [VObject {[ "type" := VString "list"; "ordered" := VBool true;
        "items" := VArray [VArray [VObject {[ "type" := VString "text";
                                              "content" := VString "a" ]}]] ]}].
Proof. split; by vm_compute. Qed.

Example unordered_list :
  exec patterns.list (js "* a\n") = Some [Some (js "* a\n"); Some ""; Some "*"]
  ∧ run (defaultParse 5 (Some (js "* a\n")) None)
    = Return [VObject {[ "type" := VString "list"; "ordered" := VBool false;
        "items" := VArray [VArray [VObject {[ "type" := VString "text";
                                              "content" := VString "a" ]}]] ]}].
Proof. split; by vm_compute. Qed.

(** ** C8 and C10: tight and loose lists *)

Lemma list_tight_or_loose_witness :
  list_parse [Some (js "* a\n* b\n"); Some ""; Some "*"] (defaultParse 5) 0 [∅]
  = (rs ← mapM_M (parse_item (defaultParse 5) 0) [js "a\n"; "b"];
     mret (list_node "*" rs)) [∅].
Proof.
  destruct (list_tight_or_loose (js "* a\n* b\n")
              [Some (js "* a\n* b\n"); Some ""; Some "*"] (defaultParse 5) 0 [∅])
    as (bullet & whole & items & contents & Hb & Hw & Hi & HF & H).
  { by vm_compute. }
  injection Hb as <-. injection Hw as <-.
  vm_compute in Hi. injection Hi as <-.
  apply Forall2_cons_inv_l in HF as (c1 & cs & E1 & HF & ->).
  apply Forall2_cons_inv_l in HF as (c2 & cs' & E2 & HF & ->).
  apply Forall2_nil_inv_l in HF as ->.
  vm_compute in E1. injection E1 as <-.
  vm_compute in E2. injection E2 as <-.
  apply (H [] _ _ eq_refl).
Defined.

(** The example of the specification: a tight list of two items, neither
    content ending in a blank line. *)
Example tight_list :
  exec patterns.list (js "* a\n* b\n")
  = Some [Some (js "* a\n* b\n"); Some ""; Some "*"]
  ∧ match_global LIST_ITEM_R (js "* a\n* b\n") = Some ["* a"; js "* b\n"]
  ∧ ends_with_blank_line (js "a\n") = false
  ∧ ends_with_blank_line "b" = false
  ∧ run (defaultParse 5 (Some (js "* a\n* b\n")) None)
    = Return [VObject {[ "type" := VString "list"; "ordered" := VBool false;
        "items" := VArray [
          VArray [VObject {[ "type" := VString "text";
                             "content" := VString (js "a\n") ]}];
          VArray [VObject {[ "type" := VString "text";
                             "content" := VString "b" ]}]] ]}].
Proof. repeat split; by vm_compute. Qed.

(** A loose list: both items keep the blank line that makes them
    paragraphs. *)
Example loose_list :
  match_global LIST_ITEM_R (js "* a\n\n* b\n\n") = Some [js "* a\n"; js "* b\n\n"]
  ∧ item_content (js "* a\n") = Return (js "a\n\n")
  ∧ ends_with_blank_line (js "a\n\n") = true
  ∧ run (defaultParse 5 (Some (js "* a\n\n* b\n\n")) None)
    = Return [VObject {[ "type" := VString "list"; "ordered" := VBool false;
        "items" := VArray [
          VArray [VObject {[ "type" := VString "paragraph";
            "content" := VArray [VObject {[ "type" := VString "text";
                                            "content" := VString "a" ]}] ]}];
          VArray [VObject {[ "type" := VString "paragraph";
            "content" := VArray [VObject {[ "type" := VString "text";
                                            "content" := VString "b" ]}] ]}]] ]}].
Proof. repeat split; by vm_compute. Qed.

Lemma single_item_is_tight_witness :
  list_parse [Some (js "* a\n\n"); Some ""; Some "*"] (defaultParse 5) 0 [∅]
  = (r ← parse_item (defaultParse 5) 0 "a"; mret (list_node "*" [r])) [∅].
Proof.
  destruct (single_item_is_tight (js "* a\n\n")
              [Some (js "* a\n\n"); Some ""; Some "*"] (defaultParse 5) 0 [∅]
              (js "* a\n\n") (js "* a\n\n"))
    as (bullet & content & Hb & Hc & H).
  { by vm_compute. }
  { reflexivity. }
  { by vm_compute. }
  injection Hb as <-. vm_compute in Hc. injection Hc as <-.
  exact H.
Defined.

(** A list of one item whose content ends in a blank line: it is parsed
    as inline text, not as a paragraph. *)
Example single_item_list :
  item_content (js "* a\n\n") = Return (js "a\n\n\n")
  ∧ ends_with_blank_line (js "a\n\n\n") = true
  ∧ run (defaultParse 5 (Some (js "* a\n\n")) None)
    = Return [VObject {[ "type" := VString "list"; "ordered" := VBool false;
        "items" := VArray [VArray [VObject {[ "type" := VString "text";
                                              "content" := VString "a" ]}]] ]}].
Proof. repeat split; by vm_compute. Qed.

(** ** C5, at the default renderers *)

Lemma render_distributes_witness :
  defaultOutput 3 (VArray [VObject {[ "type" := VString "newline" ]};
                           VObject {[ "type" := VString "hr" ]}])
  = Return (VArray [VString " "; VElement "hr" ∅ []])
  ∧ defaultOutput 3 (VObject {[ "type" := VString "hr" ]})
    = ruleOutput defaultRules (VObject {[ "type" := VString "hr" ]})
        (defaultOutput 2).
Proof.
  destruct (render_distributes (ruleOutput defaultRules) 2) as (_ & H1 & H2).
  split.
  - apply H1. eexists. split; [reflexivity|]. split; [reflexivity|].
    repeat constructor.
  - by apply H2.
Defined.

(** ** C9: the state of nested parses *)




Example link_content_with_default_rules :
  defaultParse 4 (Some "[a](b)") (Some 0) [∅]
  = Return ([VObject {[ "type" := VString "link";
               "content" := VArray [VObject {[ "type" := VString "text";
                                               "content" := VString "a" ]}];
               "target" := VString "b" ]}],
            [∅; ∅]).
Proof. by vm_compute. Qed.

(** ** C2, at the default rules

    The builders of [blockQuote] and [list] parse a text they have
    rewritten; it is shorter than the source, so that all the rules of
    [defaultRules] meet the contract of C2. *)

(** *** What [replace] removes *)

Lemma length_append (a b : string) :
  String.length (a +:+ b) = String.length a + String.length b.
Proof. induction a as [|ch a IH]; [done|]. cbn. by rewrite <- IH. Qed.

(** A match splits the input into the text before it, the matched text
    and the text after it. *)
Lemma scan_split re p input f :
  look_free (pattern re) → scan re p input 0 = Some f →
  ∃ w, matched f = str w
       ∧ input = take (index f) input ++ w ++ rest (after f)
       ∧ min_length (pattern re) ≤ length w.
Proof.
  intros Hwf E. pose proof E as (sk & input' & -> & Hi & Hm & Hc)%scan_inv.
  pose proof Hm as (y & Hs & [= ->])%matcher_steps.
  pose proof (steps_follows _ _ _ _ Hs Hwf) as [L _ N _].
  apply steps_text in Hs as [w Hw]. cbn [rest caps] in *. subst input'.
  exists w. split; [|split].
  - unfold matched. rewrite Hc, take_app_sub, list_lookup_insert_eq; [done|].
    rewrite N, length_replicate. lia.
  - rewrite Hi. cbn. by rewrite take_app_length.
  - rewrite length_app in L. lia.
Qed.

Lemma kept_skip_char ch r :
  String.length (kept (skip_char ch r)) = S (String.length (kept r))
  ∧ removed (skip_char ch r) = removed r.
Proof. by destruct r as [[|[sk m] ms] tl]. Qed.

Lemma matches_length re :
  look_free (pattern re) → ∀ fuel p input,
  String.length (kept (matches fuel re p input)) + removed (matches fuel re p input)
  = length input.
Proof.
  intros Hwf. induction fuel as [|fuel IH]; intros p input; cbn [matches].
  { unfold kept, removed. cbn. rewrite length_str. lia. }
  destruct (scan re p input 0) as [f|] eqn:E.
  2:{ unfold kept, removed. cbn. rewrite length_str. lia. }
  destruct (scan_split _ _ _ _ Hwf E) as (w & Hm & Hin & _).
  assert (length input = index f + length w + length (rest (after f))) as ->.
  { rewrite Hin at 1. rewrite !length_app, length_take.
    assert (index f ≤ length input); [|lia].
    apply scan_inv in E as (sk & ? & -> & -> & _). rewrite length_app. lia. }
  assert (String.length (str (take (index f) input)) = index f) as Hsk.
  { rewrite length_str, length_take.
    apply scan_inv in E as (sk & ? & -> & -> & _). rewrite length_app. lia. }
  case_bool_decide as He.
  - rewrite He in Hm. assert (w = []) as -> by by destruct w.
    destruct (rest (after f)) as [|ch t].
    + unfold kept, removed. cbn. rewrite !length_append, Hsk. simpl. lia.
    + specialize (IH (Some ch) t).
      destruct (kept_skip_char ch (matches fuel re (Some ch) t)) as [K R].
      destruct (skip_char ch _) as [ms tl]. unfold kept, removed in *. cbn in *.
      rewrite !length_append, Hsk. simpl. lia.
  - specialize (IH (prev (after f)) (rest (after f))).
    destruct (matches fuel re _ _) as [ms tl]. unfold kept, removed in *. cbn in *.
    rewrite !length_append, Hsk, Hm, length_str. simpl. lia.
Qed.

Lemma matches_first re fuel p input f :
  look_free (pattern re) → scan re p input 0 = Some f →
  min_length (pattern re) ≤ removed (matches (S fuel) re p input).
Proof.
  intros Hwf E. destruct (scan_split _ _ _ _ Hwf E) as (w & Hm & _ & Hmin).
  cbn [matches]. rewrite E. case_bool_decide as He.
  - rewrite He in Hm. assert (w = []) as -> by by destruct w. simpl in Hmin. lia.
  - destruct (matches fuel re _ _) as [ms tl]. unfold removed. cbn.
    rewrite Hm, length_str. lia.
Qed.

Lemma replace_kept re s :
  global re = true → replace re "" s = kept (all_matches re s).
Proof. unfold replace, kept. intros ->. by destruct (all_matches re s). Qed.

(** [replace] with the empty string never lengthens a string, and
    shortens it by a match at least when there is a match. *)
Lemma length_replace re s :
  look_free (pattern re) → String.length (replace re "" s) ≤ String.length s.
Proof.
  intros Hwf. destruct (global re) eqn:G.
  - rewrite replace_kept by done. unfold all_matches.
    pose proof (matches_length re Hwf (S (String.length s)) None (chars s)).
    rewrite length_chars in *. lia.
  - unfold replace. rewrite G.
    destruct (scan re None (chars s) 0) as [f|] eqn:E; [|done].
    destruct (scan_split _ _ _ _ Hwf E) as (w & _ & Hin & _).
    apply (f_equal length) in Hin. rewrite !length_app, length_chars in Hin.
    rewrite !length_append, !length_str. simpl. lia.
Qed.

Lemma replace_shorter re s :
  look_free (pattern re) → scan re None (chars s) 0 ≠ None →
  String.length (replace re "" s) + min_length (pattern re) ≤ String.length s.
Proof.
  intros Hwf Hs. destruct (scan re None (chars s) 0) as [f|] eqn:E; [|done].
  destruct (global re) eqn:G.
  - rewrite replace_kept by done. unfold all_matches.
    pose proof (matches_length re Hwf (S (String.length s)) None (chars s)).
    pose proof (matches_first re (String.length s) None (chars s) f Hwf E).
    rewrite length_chars in *. lia.
  - unfold replace. rewrite G, E.
    destruct (scan_split _ _ _ _ Hwf E) as (w & _ & Hin & Hmin).
    apply (f_equal length) in Hin. rewrite !length_app, length_chars in Hin.
    rewrite !length_append, !length_str. simpl. lia.
Qed.

(** *** The builder of blockQuote halts *)

Lemma steps_plus_inv ml a x z :
  steps ml (Plus a) x z →
  ∃ y, steps ml a (reset_caps (groups a) x) y ∧ steps ml (Star a) y z.
Proof.
  unfold Plus, Star.
  inversion 1 as [| | | | |? ? ? ? ? [?| ?]|? ? ? ? ? y| | | | | | | |];
    subst; [done..|eauto].
Qed.

(** A block quote starts with spaces and [>]. *)
Lemma blockQuote_capture source c :
  exec patterns.blockQuote source = Some c →
  ∃ s t, spaces s ∧ cap c 0 = Some (str (s ++ ">"%char :: t))
         ∧ length (s ++ ">"%char :: t) ≤ String.length source.
Proof.
  unfold exec. destruct (scan _ _ _ _) as [f|] eqn:E; [|done]. intros [= <-].
  apply captures_scan in E as (sk & w & Hin & Hc & N & Hm); [|done].
  apply matcher_steps in Hm as (y & Hs & [= ->]).
  cbn [patterns.blockQuote pattern Cat] in Hs.
  apply steps_seq_inv in Hs as (x0 & Hbol & Hs). inversion Hbol; subst x0.
  apply steps_plus_inv in Hs as (y1 & Hs & [w3 Hw3]%steps_text).
  apply steps_group_inv in Hs as (y2 & Hs & ->).
  apply steps_seq_inv in Hs as (y3 & Hsp & Hs).
  apply steps_seq_inv in Hs as (y4 & Hgt & [w5 Hw5]%steps_text).
  apply steps_class_run in Hsp as (s & r & Hx & HFs & _ & ->).
  apply steps_chr_inv in Hgt as (t & Hr & ->).
  rewrite reset_caps_rest in Hx. cbn [rest] in *. subst r t.
  rewrite Hw3 in Hx.
  assert (w = s ++ ">"%char :: w5 ++ w3) as ->.
  { apply (app_inv_tail (rest (after f))). rewrite Hx.
    rewrite <- !app_assoc. simpl. by rewrite <- !app_assoc. }
  exists s, (w5 ++ w3). split; [done|]. split.
  - unfold cap. rewrite Hc, list_lookup_insert_eq by lia. done.
  - apply (f_equal length) in Hin. rewrite length_chars, !length_app in Hin.
    rewrite length_app. simpl in *. lia.
Qed.

Lemma matcher_bol ml x c :
  matcher ml Bol x c = if at_bol ml x then c x else None.
Proof. done. Qed.

Lemma quote_marker_matches s t :
  spaces s → scan patterns.quote_marker None (s ++ ">"%char :: t) 0 ≠ None.
Proof.
  intros Hs. apply scan_first. cbn [patterns.quote_marker pattern multiline Cat].
  rewrite matcher_seq, matcher_bol. cbn [at_bol prev]. rewrite matcher_seq.
  unfold Star, sp at 1, Chr at 1. rewrite matcher_rep. cbn [groups rest].
  apply greedy_run; [done| |simpl; lia|done|lia|].
  { left. by intros ch t' [= <- <-]. }
  rewrite matcher_seq. unfold Chr at 1. rewrite matcher_class_cons.
  change (class_match false [CChar ">"] ">") with true. cbn iota.
  unfold Opt. rewrite matcher_rep, Nat.add_1_r. by apply star_total.
Qed.

Lemma builder_halts_blockQuote :
  builder_halts (Rule patterns.blockQuote blockQuote_parse
                   (Some (wrap_content "blockquote" ∅))).
Proof.
  intros source c p state h Hc Hp. cbn [parse]. unfold blockQuote_parse.
  apply blockQuote_capture in Hc as (s & t & Hs & -> & Hlen).
  rewrite defined_bind. apply halts_bind; [|done]. apply Hp. cbn [from_option].
  pose proof (replace_shorter patterns.quote_marker (str (s ++ ">"%char :: t)) I) as H.
  rewrite chars_str, length_str in H. specialize (H (quote_marker_matches s t Hs)).
  change (min_length (pattern patterns.quote_marker)) with 1 in H. lia.
Qed.

(** *** The builder of list halts *)

(** Greedy repetition of a class on a run that stops: the continuation
    is first tried after the whole run. *)
Lemma greedy_run_first ml negated items (c : cont) tail cs : ∀ w fuel min max p,
  Forall (in_class negated items) w →
  stops negated items tail →
  min ≤ length w → (∀ k, max = Some k → length w ≤ k) →
  min + length (w ++ tail) < fuel →
  c (MState (last_of p w) tail cs) ≠ None →
  repeat_matcher (matcher ml (Class negated items)) [] true fuel min max
    (MState p (w ++ tail) cs) c
  = c (MState (last_of p w) tail cs).
Proof.
  induction w as [|ch w IH]; intros fuel min max p HF Hstop Hmin Hmax Hfuel Hc;
    (destruct fuel as [|fuel]; [simpl in Hfuel; lia|]); cbn [repeat_matcher].
  - simpl in Hmin. assert (min = 0) as -> by lia.
    case_bool_decide; [done|]. cbn [bool_decide negb reset_caps foldr app].
    destruct tail as [|ch t].
    + by rewrite matcher_class_nil.
    + by rewrite matcher_class_cons, (Hstop ch t eq_refl).
  - inversion HF as [|? ? Hch HF']; subst.
    rewrite (bool_decide_eq_false_2 (max = Some 0)).
    2:{ intros ->. specialize (Hmax 0 eq_refl). simpl in Hmax. lia. }
    cbn [reset_caps foldr rest app]. rewrite matcher_class_cons, Hch.
    cbn [rest].
    rewrite (bool_decide_eq_false_2 (length (w ++ tail) = length (ch :: w ++ tail)))
      by (simpl; lia).
    rewrite andb_false_r.
    rewrite IH; [|done|done|simpl in Hmin; lia| |simpl in *; lia
                 |by rewrite <- (last_of_cons p)].
    2:{ intros k Hk. destruct max as [k'|]; simplify_eq/=.
        specialize (Hmax k' eq_refl). lia. }
    rewrite <- (last_of_cons p). destruct (negb _); [done|].
    unfold in_class in Hch. rewrite Hch. by destruct (c _).
Qed.

Lemma chars_append a b : chars (a +:+ b) = chars a ++ chars b.
Proof. induction a as [|ch a IH]; [done|]. cbn. by rewrite <- IH. Qed.

Lemma last_of_None sk : last_of None sk = None → sk = [].
Proof.
  unfold last_of. destruct sk as [|ch sk] using rev_ind; [done|].
  by rewrite last_snoc.
Qed.

(** What [LIST_ITEM_PREFIX_R.exec(item)] captures. *)
Lemma exec_prefix item prefix :
  exec LIST_ITEM_PREFIX_R item = Some prefix →
  ∃ s b tail, spaces s ∧ bullet_text b ∧ chars item = s ++ b ++ " "%char :: tail
              ∧ cap prefix 0 = Some (str (s ++ b ++ [" "%char])).
Proof.
  unfold exec. destruct (scan _ _ _ _) as [f|] eqn:E; [|done]. intros [= <-].
  apply captures_scan in E as (sk & w & Hin & Hc & N & Hm); [|done].
  apply matcher_steps in Hm as (y & Hs & [= ->]).
  cbn [LIST_ITEM_PREFIX_R pattern] in Hs.
  apply steps_seq_inv in Hs as (x0 & Hbol & Hs).
  inversion Hbol as [| | | | | | | | | | | |? Hb| |]; subst x0.
  unfold at_bol in Hb. cbn [prev multiline] in Hb.
  destruct (last_of None sk) eqn:Hsk; [done|]. apply last_of_None in Hsk as ->.
  apply steps_prefix in Hs as (s & b & tail & Hsp & Hbt & Hx & Hy).
  rewrite Hy in *. unfold after_prefix in *. cbn [rest app] in *.
  assert (w = s ++ b ++ [" "%char]) as ->.
  { apply (app_inv_tail tail). rewrite Hx. by rewrite <- !app_assoc. }
  exists s, b, tail. split; [done|]. split; [done|]. split.
  - rewrite Hin, <- !app_assoc. done.
  - unfold cap. rewrite Hc, list_lookup_insert_eq; [done|]. rewrite N. simpl. lia.
Qed.

Lemma bullet_text_plain b : bullet_text b → Forall plain b ∧ b ≠ [].
Proof.
  assert (∀ ch, in_class false (CChar <$> chars "*+-") ch → plain ch) as H1
    by (intros ch; destruct ch as [[] [] [] [] [] [] [] []]; by vm_compute).
  assert (∀ ch, in_class false [CDigit] ch → plain ch) as H2
    by (intros ch; destruct ch as [[] [] [] [] [] [] [] []]; by vm_compute).
  intros [(ch & -> & Hc)|(ds & Hne & HF & ->)].
  - split; [|done]. repeat constructor; by apply H1.
  - split; [|by destruct ds]. apply Forall_app. split.
    + eapply Forall_impl; [done|]. apply H2.
    + by repeat constructor.
Qed.

Lemma scan_here_eq re p input idx y :
  matcher (multiline re) (pattern re)
    (MState p input (replicate (S (length (groups (pattern re)))) None)) Some
  = Some y →
  scan re p input idx
  = Some (Found idx
            (<[0 := Some (str (take (length input - length (rest y)) input))]> (caps y))
            y).
Proof. intros H. destruct input; cbn [scan]; by rewrite H. Qed.

(** No line starts inside a bullet: the first indentation found after
    one is further than the bullet. *)
Lemma indent_scan n p b t f :
  1 ≤ n → Forall plain b → b ≠ [] →
  scan (indent n) p (b ++ t) 0 = Some f →
  ∃ k r, k ≠ [] ∧ t = k ++ r ∧ take (index f) (b ++ t) = b ++ k.
Proof.
  intros Hn Hb Hne (sk & input' & Hin & Hi & Hm & _)%scan_inv.
  apply matcher_steps in Hm as (y & Hs & _).
  cbn [indent pattern multiline] in Hs.
  apply steps_seq_inv in Hs as (x0 & Hbol & Hs).
  inversion Hbol as [| | | | | | | | | | | |? Hbol'| |]; subst x0.
  apply steps_class_run in Hs as (w & r & Hx & Hw & Hlen & _).
  cbn [rest from_option] in *.
  destruct w as [|ch w]; [cbn [length] in Hlen; lia|].
  apply Forall_cons in Hw as [Hch _].
  assert (∃ k, k ≠ [] ∧ sk = b ++ k ∧ t = k ++ input') as (k & Hk & -> & ->).
  { apply app_eq_inv in Hin as [(k & -> & ->)|(k & -> & ->)].
    - destruct k as [|c k].
      + exfalso. rewrite app_nil_r in *. unfold at_bol in Hbol'. cbn [prev] in Hbol'.
        destruct sk as [|c sk _] using rev_ind; [done|].
        apply Forall_app in Hb as [_ Hc]. apply Forall_cons in Hc as [[_ Hc'] _].
        unfold last_of in Hbol'. rewrite last_snoc in Hbol'. by rewrite Hc' in Hbol'.
      + exfalso. simplify_eq/=. apply Forall_app in Hb as [_ Hc].
        apply Forall_cons in Hc as [[Hc' _] _]. unfold in_class in Hch. congruence.
    - destruct k as [|c k]; [|by exists (c :: k)].
      exfalso. rewrite app_nil_r in *. unfold at_bol in Hbol'. cbn [prev] in Hbol'.
      destruct b as [|c b _] using rev_ind; [done|].
      apply Forall_app in Hb as [_ Hc]. apply Forall_cons in Hc as [[_ Hc'] _].
      unfold last_of in Hbol'. rewrite last_snoc in Hbol'. by rewrite Hc' in Hbol'. }
  exists k, input'. split; [done|]. split; [done|].
  rewrite Hi. cbn [Nat.add]. rewrite (app_assoc b k), take_app_length. done.
Qed.

(** Removing the indentation leaves a bullet at the start of the text. *)
Lemma indent_kept n b t : 1 ≤ n → Forall plain b → b ≠ [] → ∀ fuel p,
  ∃ t', chars (kept (matches fuel (indent n) p (b ++ " "%char :: t)))
        = b ++ " "%char :: t'.
Proof.
  intros Hn Hb Hne [|fuel] p; cbn [matches].
  { exists t. unfold kept. cbn. by rewrite chars_str. }
  destruct (scan (indent n) p (b ++ " "%char :: t) 0) as [f|] eqn:E.
  2:{ exists t. unfold kept. cbn. by rewrite chars_str. }
  destruct (indent_scan _ _ _ _ _ Hn Hb Hne E) as (k & r & Hk & Ht & ->).
  destruct k as [|c k]; [done|]. injection Ht as <- ->.
  case_bool_decide.
  - destruct (rest (after f)) as [|ch t'].
    + eexists. unfold kept. cbn. rewrite !chars_append, chars_str.
      rewrite <- app_assoc. done.
    + destruct (skip_char ch _) as [ms tl]. eexists. unfold kept. cbn.
      rewrite !chars_append, chars_str. rewrite <- app_assoc. done.
  - destruct (matches fuel _ _ _) as [ms tl]. eexists. unfold kept. cbn.
    rewrite !chars_append, chars_str. rewrite <- app_assoc. done.
Qed.

Lemma str_nil l : str l = "" → l = [].
Proof. by destruct l. Qed.

(** The indentation of the first line is the first match. *)
Lemma indent_first n s b t fuel :
  s ≠ [] → spaces s → length s ≤ n → bullet_text b →
  kept (matches (S fuel) (indent n) None (s ++ b ++ " "%char :: t))
  = kept (matches fuel (indent n) (last_of None s) (b ++ " "%char :: t)).
Proof.
  intros Hne Hs Hn Hb. cbn [matches].
  assert (matcher true (pattern (indent n))
            (MState None (s ++ b ++ " "%char :: t)
               (replicate (S (length (groups (pattern (indent n))))) None)) Some
          = Some (MState (last_of None s) (b ++ " "%char :: t)
                    (replicate (S (length (groups (pattern (indent n))))) None)))
    as Hm.
  { cbn [indent pattern]. rewrite matcher_seq, matcher_bol. cbn [at_bol prev].
    unfold Between, sp at 1, Chr at 1. rewrite matcher_rep. cbn [groups rest].
    apply greedy_run_first; [done|by apply bullet_text_stops| | |lia|done].
    - destruct s; [done|]. simpl. lia.
    - by intros k [= <-]. }
  rewrite (scan_here_eq (indent n) _ _ 0 _ Hm). cbn [after index rest prev].
  unfold matched. cbn [captures caps].
  rewrite list_lookup_insert_eq by (rewrite length_replicate; lia).
  cbn [mjoin option_join default]. rewrite take_app_sub.
  rewrite bool_decide_eq_false_2 by (by intros ?%str_nil).
  destruct (matches fuel _ _ _) as [ms tl]. unfold kept. cbn. done.
Qed.

Lemma dedent n s b t :
  1 ≤ n → length s ≤ n → spaces s → bullet_text b →
  ∃ t', chars (replace (indent n) "" (str (s ++ b ++ " "%char :: t)))
        = b ++ " "%char :: t'.
Proof.
  intros Hn Hlen Hs Hb. rewrite replace_kept by done. unfold all_matches.
  rewrite chars_str. destruct (bullet_text_plain b Hb) as [Hp Hne].
  destruct s as [|ch s].
  - by apply indent_kept.
  - rewrite indent_first by done. by apply indent_kept.
Qed.

Lemma prefix_scan x :
  item_text x → scan LIST_ITEM_PREFIX_R None (chars x) 0 ≠ None.
Proof.
  intros (s & b & tail & Hs & Hb & ->). apply scan_first.
  cbn [LIST_ITEM_PREFIX_R pattern multiline]. rewrite matcher_seq, matcher_bol.
  cbn [at_bol prev]. by apply prefix_matches.
Qed.

(** The content of an item is shorter than the item. *)
Lemma item_content_shorter item content :
  item_content item = Return content →
  String.length content < String.length item.
Proof.
  unfold item_content.
  destruct (exec LIST_ITEM_PREFIX_R item) as [prefix|] eqn:E; [|done].
  apply exec_prefix in E as (s & b & tail & Hs & Hb & Hitem & ->).
  unfold spaceRegex. case_bool_decide; [done|].
  set (n := String.length (str (s ++ b ++ [" "%char]))).
  intros Hret.
  change (Return (replace LIST_ITEM_PREFIX_R ""
                    (replace (indent n) "" (item +:+ js "\n"))) = Return content)
    in Hret.
  injection Hret as <-.
  assert (item +:+ js "\n" = str (s ++ b ++ " "%char :: tail ++ [LF])) as ->.
  { rewrite <- (str_chars (_ +:+ _)), chars_append, Hitem.
    by rewrite <- !app_assoc. }
  destruct (dedent n s b (tail ++ [LF])) as [t' Ht']; [lia| |done..|].
  { unfold n. rewrite length_str, length_app. lia. }
  pose proof (replace_shorter LIST_ITEM_PREFIX_R
                (replace (indent n) "" (str (s ++ b ++ " "%char :: tail ++ [LF]))) I)
    as H1.
  rewrite prefix_min_length in H1.
  pose proof (length_replace (indent n)
                (str (s ++ b ++ " "%char :: tail ++ [LF])) I) as H2.
  rewrite length_str in H2.
  assert (length (s ++ b ++ " "%char :: tail ++ [LF]) = S (String.length item)) as H3.
  { rewrite <- length_chars, Hitem, !length_app. simpl. rewrite length_app. simpl. lia. }
  assert (String.length
            (replace LIST_ITEM_PREFIX_R ""
               (replace (indent n) "" (str (s ++ b ++ " "%char :: tail ++ [LF])))) + 2
          ≤ String.length
              (replace (indent n) "" (str (s ++ b ++ " "%char :: tail ++ [LF]))));
    [|lia].
  apply H1, prefix_scan. exists [], b, t'. split; [constructor|]. by split.
Qed.

(** The matched texts are no longer than the input. *)
Lemma removed_bound ms tl (m : string * string) :
  m ∈ ms → String.length m.2 ≤ removed (ms, tl).
Proof.
  unfold removed. cbn [fst]. induction ms as [|[sk m'] ms IH]; intros Hin.
  - by apply elem_of_nil in Hin.
  - apply elem_of_cons in Hin as [->|Hin]; cbn; [lia|]. specialize (IH Hin). lia.
Qed.

Lemma match_global_length re whole items :
  look_free (pattern re) → match_global re whole = Some items →
  Forall (λ item, String.length item ≤ String.length whole) items.
Proof.
  intros Hwf. unfold match_global, all_matches.
  pose proof (matches_length re Hwf (S (String.length whole)) None (chars whole)) as H.
  rewrite length_chars in H.
  destruct (matches _ _ _ _) as [ms tl]. intros Hi.
  assert (items = snd <$> ms) as -> by (destruct ms; by simplify_eq).
  apply Forall_fmap, Forall_forall. intros m Hm.
  pose proof (removed_bound ms tl m Hm). simpl. lia.
Qed.

Lemma length_strip_blank_lines c :
  String.length (strip_blank_lines c) ≤ String.length c.
Proof. rewrite <- replace_block_end. by apply length_replace. Qed.

Lemma adjusted_bound n : ∀ cs flag,
  Forall (λ c, String.length c < n) cs →
  Forall (λ c, String.length c < n) (adjusted flag cs).
Proof.
  induction cs as [|c cs IH]; intros flag HF; [done|].
  apply Forall_cons in HF as [Hc HF].
  destruct cs as [|c' cs].
  - cbn. repeat constructor. destruct flag; [done|].
    pose proof (length_strip_blank_lines c). lia.
  - change (Forall (λ c, String.length c < n)
              (c :: adjusted (match cs with
                              | [] => ends_with_blank_line c
                              | _ => flag
                              end) (c' :: cs))).
    constructor; [done|]. by apply IH.
Qed.

Lemma mapM_M_halts {A B} (f : A → M B) (P : A → Prop) :
  (∀ a h, P a → f a h ≠ OutOfFuel) →
  ∀ l h, Forall P l → mapM_M f l h ≠ OutOfFuel.
Proof.
  intros Hf. induction l as [|a l IH]; intros h HF; [done|].
  apply Forall_cons in HF as [Ha HF]. rewrite mapM_M_cons.
  specialize (Hf a h Ha). destruct (f a h) as [[b h1]| |]; [|done..].
  specialize (IH h1 HF). by destruct (mapM_M f l h1) as [[bs h2]| |].
Qed.

Lemma builder_halts_list :
  builder_halts (Rule patterns.list list_parse (Some list_output)).
Proof.
  intros source c p state h Hc Hp. cbn [parse].
  pose proof Hc as [(whole' & Hw' & Hlen) _]%exec_sound; [|done].
  apply list_capture in Hc
    as (bullet & whole & items & contents & Hb & _ & Hw & Hi & _ & HF).
  simplify_eq.
  rewrite (list_parse_items _ _ _ _ _ _ _ _ Hb Hw Hi HF).
  apply halts_bind; [|done].
  apply (mapM_M_halts _ (λ c, String.length c < String.length source)).
  - intros content h' Hlt. rewrite parse_item_run.
    specialize (Hp (Some content) (Some state) h' Hlt).
    by destruct (p _ _ h') as [[r h1]| |].
  - apply adjusted_bound.
    pose proof (match_global_length LIST_ITEM_R _ _ I Hi) as Hitems.
    clear -HF Hitems Hlen. induction HF as [|item content items contents Hc _ IH].
    + constructor.
    + apply Forall_cons in Hitems as [Hitem Hitems]. constructor; [|by apply IH].
      apply item_content_shorter in Hc. lia.
Qed.

Lemma defaultRules_contract t r :
  property defaultRules t = Some r → consumes r ∧ builder_halts r.
Proof.
  intros H%property_elem_of. revert t r H.
  assert (Forall (λ p, consumes p.2 ∧ builder_halts p.2) defaultRules) as HF.
  { repeat apply Forall_cons_2; [..|apply Forall_nil_2];
      (split; [by apply consumes_min_length; [|simpl; lia]|]); simpl.
    - apply builder_halts_heading.
    - halts_call (Rule patterns.lheading lheading_parse None) 1.
    - by intros ?????.
    - intros ? c ????. cbn. unfold codeBlock_parse. by destruct (cap c 0).
    - apply builder_halts_blockQuote.
    - apply builder_halts_list.
    - halts_call (Rule patterns.paragraph parseCapture
        (Some (wrap_content "div" {[ "className" := VString "paragraph" ]}))) 1.
    - by intros ?????.
    - halts_call (Rule patterns.link link_parse (Some link_output)) 1.
    - halts_call (Rule patterns.strong parseCapture (Some (wrap_content "strong" ∅))) 1.
    - halts_call (Rule patterns.u parseCapture (Some (wrap_content "u" ∅))) 1.
    - apply builder_halts_em.
    - halts_call (Rule patterns.del parseCapture (Some (wrap_content "del" ∅))) 1.
    - by intros ?????.
    - by intros ?????.
    - by intros ?????. }
  intros t r H. rewrite Forall_forall in HF. apply (HF (t, r)). done.
Qed.


(** The default parser halts on every source. *)
Theorem defaultParse_halts source :
  ∃ fuel0, ∀ fuel state h, fuel0 ≤ fuel →
    defaultParse fuel (Some source) state h ≠ OutOfFuel.
Proof.
  destruct (parse_loop_halts defaultRules defaultPriorities "text"
              (Rule patterns.text text_parse (Some text_output)))
    with (n := String.length source) as (fuel0 & H).
  - by vm_compute; repeat ((by left) || right).
  - reflexivity.
  - exact text_matches.
  - exact defaultRules_contract.
  - exists fuel0. intros fuel state h Hf.
    unfold defaultParse, parserFor, nestedParse, mbind, M_bind.
    destruct (state_or_new state h) as [[st h']| |] eqn:Hst; [|by destruct state..].
    by apply H.
Qed.

(** * Further properties *)

(** ** The nodes of any rule table *)

Section nodes.
Context (rules : object rule) (ruleList : list string).

Lemma substring_from_0 s : substring_from 0 s = s.
Proof. unfold substring_from. by rewrite drop_0, str_chars. Qed.

(** A rule that matches the empty string matches it again in the next
    iteration: the loop does not return. *)
Lemma parse_loop_empty_match source i t r c :
  source ≠ "" → try_rules rules source 0 ruleList = Matched i t r c →
  cap c 0 = Some "" →
  ∀ fuel result state h res,
    parse_loop rules ruleList fuel source result state h ≠ Return res.
Proof.
  intros Hs Ht Hc. induction fuel as [|fuel IH]; intros result state h res; [done|].
  rewrite (parse_loop_matched _ _ _ _ _ _ i t r c "") by done.
  unfold mbind, M_bind. destruct (parse r c _ state h) as [[attrs h']| |]; [|done..].
  cbn [String.length]. rewrite substring_from_0. apply IH.
Qed.

Lemma parse_loop_nodes : ∀ fuel source result state h res h',
  parse_loop rules ruleList fuel source result state h = Return (res, h') →
  ∃ new, res = result ++ new ∧ Forall typed new
         ∧ length new ≤ String.length source.
Proof.
  induction fuel as [|fuel IH]; intros source result state h res h'; [done|].
  destruct (decide (source = "")) as [->|Hs].
  { intros [= <- <-]. exists []. by rewrite app_nil_r. }
  destruct (try_rules rules source 0 ruleList) as [i t r c|i|] eqn:Ht.
  - destruct (cap c 0) as [m|] eqn:Hm.
    2:{ cbn [parse_loop]. rewrite bool_decide_eq_false_2 by done.
        rewrite Ht, Hm. done. }
    destruct (decide (m = "")) as [->|Hne].
    { intros H. by apply (parse_loop_empty_match _ _ _ _ _ Hs Ht Hm) in H. }
    rewrite (parse_loop_matched _ _ _ _ _ _ i t r c m) by done.
    unfold mbind, M_bind. destruct (parse r c _ state h) as [[attrs h1]| |]; [|done..].
    intros (new & -> & Hnew & Hlen)%IH.
    exists (VObject (extend {[ "type" := VString t ]} attrs) :: new).
    split; [by rewrite <- app_assoc|]. split.
    + constructor; [|done]. eexists _, _. split; [done|]. apply extend_type.
    + rewrite length_substring_from in Hlen. destruct m; [done|].
      destruct source; [done|]. simpl in *. lia.
  - rewrite (parse_loop_exhausted _ _ _ _ _ _ i) by done.
    intros (new & -> & Hnew & Hlen)%IH. eauto.
  - by rewrite parse_loop_no_such_rule.
Qed.

End nodes.



(** ** Anchored patterns, and groups that always take part *)

Lemma anchored_steps r x y : anchored r → steps false r x y → prev x = None.
Proof.
  intros Ha Hs. induction Hs; simpl in Ha; try done.
  - auto.
  - apply andb_prop_elim in Ha as [??]. auto.
  - apply andb_prop_elim in Ha as [??]. auto.
  - auto.
  - unfold at_bol in *. by destruct (prev x).
Qed.

Lemma str_app a b : str (a ++ b) = str a +:+ str b.
Proof. induction a as [|ch a IH]; [done|]. cbn. by rewrite IH. Qed.

(** A match of an anchored pattern is a prefix of the string. *)
Lemma exec_anchored re source c :
  look_free (pattern re) → multiline re = false → anchored (pattern re) →
  exec re source = Some c →
  ∃ m, cap c 0 = Some m
       ∧ source = m +:+ substring_from (String.length m) source.
Proof.
  intros Hwf Hml Ha. unfold exec.
  destruct (scan _ _ _ _) as [f|] eqn:E; [|done]. intros [= <-].
  apply captures_scan in E as (sk & w & Hin & Hc & N & Hm); [|done].
  apply matcher_steps in Hm as (y & Hs & _). rewrite Hml in Hs.
  apply anchored_steps in Hs; [|done]. cbn [prev] in Hs.
  apply last_of_None in Hs as ->. cbn [app] in Hin.
  exists (str w). split.
  - unfold cap. rewrite Hc, list_lookup_insert_eq by lia. done.
  - unfold substring_from. rewrite Hin, length_str, drop_app_length, <- str_app, <- Hin.
    by rewrite str_chars.
Qed.

Lemma sets_steps ml i r x y :
  steps ml r x y → look_free r → i < length (caps x) →
  (sets r i → is_set i y)
  ∧ (match r with Rep _ _ _ a => sets a i | _ => false end → is_set i x → is_set i y).
Proof.
  induction 1 as [x|neg items x ch t Hx Hc|a b x y z Sa IHa Sb IHb
                 |a b x y _ IH|a b x y _ IH
                 |g min max a x Hm|g min max a x y z Hmax Sa IHa Hn Sr IHr
                 |j a x y Sa IH|j x Hj|j x s Hj Hs|a x y _ IH|a x Hn
                 |x Hb|x He|x Hw]; intros Hwf Hi; simpl in Hwf; (split; [|try done]);
    cbn [sets]; try done.
  - apply andb_prop_elim in Hwf as [Hwa Hwb].
    pose proof (steps_follows _ _ _ _ Sa Hwa) as [_ _ Na _].
    pose proof (steps_follows _ _ _ _ Sb Hwb) as [_ Cb _ _].
    intros [[Hs Hg]%andb_prop_elim|Hs]%orb_prop_elim.
    + apply bool_decide_unpack in Hg. specialize (IHa Hwa Hi) as [IHa _].
      destruct (IHa Hs) as [s Hy]. exists s. by rewrite Cb.
    + assert (i < length (caps y)) as Hy by lia.
      specialize (IHb Hwb Hy) as [IHb _]. auto.
  - apply andb_prop_elim in Hwf as [Hwa Hwb].
    intros [??]%andb_prop_elim. specialize (IH Hwa Hi) as [IH _]. auto.
  - apply andb_prop_elim in Hwf as [Hwa Hwb].
    intros [??]%andb_prop_elim. specialize (IH Hwb Hi) as [IH _]. auto.
  - intros [[H1 H2]%andb_prop_elim _]%andb_prop_elim.
    apply bool_decide_unpack in H1. apply bool_decide_unpack in H2.
    destruct Hm as [->| ->]; [lia|done].
  - pose proof (steps_follows _ _ _ _ Sa Hwf) as [_ _ Na _].
    rewrite reset_caps_length in Na.
    intros [_ Hs]%andb_prop_elim.
    assert (i < length (caps (reset_caps (groups a) x))) as Hi'
      by by rewrite reset_caps_length.
    specialize (IHa Hwf Hi') as [IHa _].
    assert (i < length (caps y)) as Hy by lia.
    specialize (IHr Hwf Hy) as [_ IHr]. auto.
  - pose proof (steps_follows _ _ _ _ Sa Hwf) as [_ _ Na _].
    rewrite reset_caps_length in Na.
    intros Hs _.
    assert (i < length (caps (reset_caps (groups a) x))) as Hi'
      by by rewrite reset_caps_length.
    specialize (IHa Hwf Hi') as [IHa _].
    assert (i < length (caps y)) as Hy by lia.
    specialize (IHr Hwf Hy) as [_ IHr]. auto.
  - pose proof (steps_follows _ _ _ _ Sa Hwf) as [_ _ Na _].
    intros [Hj|Hs]%orb_prop_elim.
    + apply bool_decide_unpack in Hj as ->. eexists. cbn.
      apply list_lookup_insert_eq. lia.
    + destruct (decide (j = i)) as [->|Hne].
      * eexists. cbn. apply list_lookup_insert_eq. lia.
      * specialize (IH Hwf Hi) as [IH _]. destruct (IH Hs) as [s Hy].
        exists s. cbn. by rewrite list_lookup_insert_ne.
  - apply andb_prop_elim in Hwf as [_ Hwf]. intros Hs.
    specialize (IH Hwf Hi) as [IH _]. destruct (IH Hs) as [s Hy]. by exists s.
Qed.

Lemma exec_sets re source c i :
  look_free (pattern re) → sets (pattern re) i → 1 ≤ i ≤ length (groups (pattern re)) →
  exec re source = Some c → is_Some (cap c i).
Proof.
  intros Hwf Hs Hi. unfold exec.
  destruct (scan _ _ _ _) as [f|] eqn:E; [|done]. intros [= <-].
  apply captures_scan in E as (sk & w & Hin & Hc & N & Hm); [|done].
  apply matcher_steps in Hm as (y & St & [= ->]).
  apply (sets_steps _ i) in St as [St _]; [|done|cbn; rewrite length_replicate; lia].
  destruct (St Hs) as [s Hy]. exists s. unfold cap.
  rewrite Hc, list_lookup_insert_ne by lia. by rewrite Hy.
Qed.

(** ** Rule tables whose builders return *)

Lemma extends_refl h : extends h h.
Proof. exists 0. by rewrite app_nil_r. Qed.

Lemma extends_trans h1 h2 h3 : extends h1 h2 → extends h2 h3 → extends h1 h3.
Proof.
  intros [k1 ->] [k2 ->]. exists (k1 + k2).
  by rewrite <- app_assoc, replicate_add.
Qed.

Lemma extends_new h h' : extends (h ++ [∅]) h' → extends h h'.
Proof. apply extends_trans. by exists 1. Qed.

(** The objects of the heap are where they were, as they were. *)
Lemma extends_lookup h h' l o : extends h h' → h !! l = Some o → h' !! l = Some o.
Proof. intros [k ->] H. by apply lookup_app_l_Some. Qed.

Section well.
Context (rules : object rule) (ruleList : list string).
Context (catchAll : string) (rc : rule) (good : value → Prop).
Hypothesis catchAll_listed : catchAll ∈ ruleList.
Hypothesis catchAll_rule : property rules catchAll = Some rc.
Hypothesis catchAll_matches : ∀ s, s ≠ "" → exec (regex rc) s ≠ None.
Hypothesis listed : ∀ t, t ∈ ruleList → is_Some (property rules t).
Hypothesis contract : ∀ t r, property rules t = Some r →
                             consumes r ∧ builder_well good t r.

Lemma try_rules_listed source k l :
  (∀ t, t ∈ l → is_Some (property rules t)) →
  try_rules rules source k l ≠ NoSuchRule.
Proof.
  revert k. induction l as [|t l IH]; intros k Hl; simpl; [done|].
  destruct (Hl t) as [r ->]; [by left|].
  destruct (exec _ _); [done|]. apply IH. intros t' Ht'. apply Hl. by right.
Qed.

Lemma nestedParse_well n fuel :
  (∀ source result state h,
     String.length source ≤ n → Forall good result →
     ∃ res h', parse_loop rules ruleList fuel source result state h = Return (res, h')
               ∧ Forall good res ∧ extends h h') →
  returns_well good (S n) (nestedParse rules ruleList fuel).
Proof.
  intros IH s st h Hlt. unfold nestedParse, mbind, M_bind.
  destruct st as [st|]; cbn [state_or_new].
  - destruct s as [s|]; [|by eauto using extends_refl].
    apply IH; [simpl in Hlt; lia|done].
  - unfold new_object. destruct s as [s|].
    + destruct (IH s [] (length h) (h ++ [∅])) as (res & h' & -> & ? & ?);
        [simpl in Hlt; lia|done|].
      eauto 6 using extends_new.
    + eexists [], _. split; [done|]. split; [done|]. by exists 1.
Qed.

Lemma parse_loop_well n :
  ∃ fuel0, ∀ fuel source result state h,
    fuel0 ≤ fuel → String.length source ≤ n → Forall good result →
    ∃ res h', parse_loop rules ruleList fuel source result state h = Return (res, h')
              ∧ Forall good res ∧ extends h h'.
Proof using All.
  induction n as [|n (fuel0 & IH)].
  - exists 1. intros [|fuel] source result state h Hf Hn Hr; [lia|].
    assert (source = "") as -> by (apply length_0_empty; lia).
    eauto using extends_refl.
  - exists (S fuel0). intros [|fuel] source result state h Hf Hn Hr; [lia|].
    destruct (decide (source = "")) as [->|Hs]; [by eauto using extends_refl|].
    destruct (try_rules rules source 0 ruleList) as [i t r c|i|] eqn:Ht.
    + destruct (try_rules_matched rules _ _ _ _ _ _ _ Ht) as [Hp Hc].
      destruct (contract _ _ Hp) as [Hcons Hwell].
      destruct (Hcons _ _ Hc) as (m & Hm & Hlen).
      rewrite (parse_loop_matched _ _ _ _ _ _ i t r c m) by done.
      unfold mbind, M_bind.
      destruct (Hwell source c (nestedParse rules ruleList fuel) state h Hc)
        as (attrs & h1 & -> & Hnode & Hh1).
      { intros s st h0 Hlt.
        apply (nestedParse_well (String.length source - 1)); [|lia].
        intros. apply IH; [lia..|done]. }
      destruct (IH fuel (substring_from (String.length m) source)
                  (result ++ [VObject (extend {[ "type" := VString t ]} attrs)])
                  state h1) as (res & h' & -> & Hres & Hh').
      * lia.
      * rewrite length_substring_from. lia.
      * apply Forall_app. split; [done|]. by repeat constructor.
      * eauto 6 using extends_trans.
    + by eapply (try_rules_catch_all rules catchAll rc) in Ht.
    + by apply try_rules_listed in Ht.
Qed.

End well.

(** ** The builders of the default rules *)

Lemma steps_class_run_max ml greedy min k negated items x y :
  steps ml (Rep greedy min (Some k) (Class negated items)) x y →
  length (rest x) ≤ length (rest y) + k.
Proof.
  remember (Rep greedy min (Some k) (Class negated items)) as e eqn:He.
  intros H. revert min k He.
  induction H as [| | | | |g min' max' a x Hm|g min' max' a x y z Hmax Ha _ Hn _ IHr
                 | | | | | | | |]; intros min k He; try discriminate He.
  - lia.
  - injection He as -> -> -> ->.
    cbn [groups reset_caps foldr] in *.
    apply steps_class_inv in Ha as (ch & t & Hx & Hc & ->).
    specialize (IHr (pred min) (pred k) eq_refl). cbn [rest] in IHr.
    rewrite Hx. destruct k; [done|]. simpl in *. lia.
Qed.

(** A heading has one to six [#]. *)
Lemma heading_capture source c :
  exec patterns.heading source = Some c →
  ∃ level, cap c 1 = Some level ∧ 1 ≤ String.length level ≤ 6.
Proof.
  unfold exec. destruct (scan _ _ _ _) as [f|] eqn:E; [|done]. intros [= <-].
  apply captures_scan in E as (sk & w & _ & Hc & N & Hm); [|done].
  apply matcher_steps in Hm as (y & Hs & [= ->]).
  cbn [patterns.heading pattern Cat] in Hs.
  apply steps_seq_inv in Hs as (x0 & _ & Hs).
  apply steps_seq_inv in Hs as (x1 & _ & Hs).
  apply steps_seq_inv in Hs as (x2 & Hg & Hr).
  apply steps_group_inv in Hg as (y0 & Hg & ->).
  pose proof (steps_class_run_max _ _ _ _ _ _ _ _ Hg) as Hmax.
  pose proof (steps_follows _ _ _ _ Hg I) as [_ _ N0 _].
  apply steps_class_run in Hg as (v & r & Hx & _ & Hmin & ->).
  pose proof (steps_follows _ _ _ _ Hr I) as [_ C N1 _].
  cbn [rest caps from_option] in *. rewrite Hx, take_app_sub in *.
  rewrite length_insert in N1.
  exists (str v). split.
  - unfold cap. rewrite Hc, list_lookup_insert_ne by done.
    rewrite (C 1) by (change (1 ∉ [2]); by intros ?%list_elem_of_singleton).
    rewrite list_lookup_insert_eq; [done|]. rewrite <- N1, N. simpl. lia.
  - rewrite length_str. rewrite length_app in Hmax. lia.
Qed.

Lemma call_well good r i source c p st h :
  look_free (pattern (regex r)) → 1 ≤ min_length (pattern (regex r)) →
  1 ≤ i → 1 ≤ slack (pattern (regex r)) i →
  exec (regex r) source = Some c →
  returns_well good (String.length source) p →
  ∃ content h', p (cap c i) st h = Return (content, h')
                ∧ Forall good content ∧ extends h h'.
Proof.
  intros Hwf Hmin Hi Hs Hc Hp. apply Hp.
  apply exec_sound in Hc; [|done]. by eapply group_shorter.
Qed.

Lemma lookup_node t attrs k :
  k ≠ "type" → extend {[ "type" := VString t ]} attrs !! k = attrs !! k.
Proof. apply extend_other. Qed.

Ltac node :=
  repeat match goal with
  | |- extend _ _ !! "type" = _ => rewrite extend_type
  | |- extend _ _ !! _ = _ => rewrite lookup_node by done
  end; by simplify_map_eq.

Lemma builder_well_heading :
  builder_well ast "heading" (Rule patterns.heading heading_parse (Some heading_output)).
Proof.
  intros source c p state h Hc Hp. cbn [parse]. unfold heading_parse.
  destruct (heading_capture _ _ Hc) as (level & Hl & Hlen).
  destruct (call_well ast (Rule patterns.heading heading_parse (Some heading_output)) 2
              source c p (Some state) h) as (content & h' & Hcall & Hast & Hh);
    [exact I|simpl; lia|lia|simpl; lia|done..|].
  rewrite Hl. cbn [length_of]. rewrite bind_assoc_run. cbn [mret M_ret].
  rewrite bind_assoc_run, Hcall. eexists _, h'. split; [done|]. split; [|done].
  eapply (ast_heading _ (Z.of_nat (String.length level)) content);
    [node|node|lia|node|done].
Qed.

Lemma builder_well_lheading :
  builder_well ast "lheading" (Rule patterns.lheading lheading_parse None).
Proof.
  intros source c p state h Hc Hp. cbn [parse]. unfold lheading_parse.
  destruct (call_well ast (Rule patterns.lheading lheading_parse None) 1
              source c p (Some state) h) as (content & h' & Hcall & Hast & Hh);
    [exact I|simpl; lia|lia|simpl; lia|done..|].
  rewrite bind_assoc_run, Hcall. eexists _, h'. split; [done|]. split; [|done].
  eapply (ast_heading _ _ content); [node|node| |node|done].
  case_bool_decide; lia.
Qed.

(** The builders that wrap the parsed first group. *)
Lemma builder_well_parseCapture t re out :
  t ∈ ["blockQuote"; "paragraph"; "strong"; "u"; "em"; "del"] →
  look_free (pattern re) → 1 ≤ min_length (pattern re) → 1 ≤ slack (pattern re) 1 →
  builder_well ast t (Rule re parseCapture out).
Proof.
  intros Ht Hwf Hmin Hs source c p state h Hc Hp. cbn [parse]. unfold parseCapture.
  destruct (call_well ast (Rule re parseCapture out) 1
              source c p (Some state) h) as (content & h' & Hcall & Hast & Hh);
    [done|done|lia|done..|].
  rewrite bind_assoc_run, Hcall. eexists _, h'. split; [done|]. split; [|done].
  eapply (ast_content _ t content); [done|node|node|done].
Qed.

Lemma builder_well_ignoreCapture t re out :
  t ∈ ["hr"; "newline"] → builder_well ast t (Rule re ignoreCapture out).
Proof.
  intros Ht source c p state h Hc Hp. eexists _, h. split; [done|].
  split; [|apply extends_refl]. eapply (ast_empty _ t); [done|node].
Qed.

Lemma builder_well_em :
  builder_well ast "em" (Rule patterns.em em_parse (Some (wrap_content "em" ∅))).
Proof.
  intros source c p state h Hc Hp. cbn [parse]. unfold em_parse.
  destruct (Hp (or_else (cap c 2) (cap c 1)) (Some state) h)
    as (content & h' & Hcall & Hast & Hh).
  { apply exec_sound in Hc; [|done].
    assert (from_option String.length 0 (cap c 1) < String.length source) as H1
      by (eapply group_shorter; [done|simpl; lia..]).
    assert (from_option String.length 0 (cap c 2) < String.length source) as H2
      by (eapply group_shorter; [done|simpl; lia..]).
    unfold or_else. destruct (cap c 2) as [s|]; [|done]. by case_bool_decide. }
  rewrite bind_assoc_run, Hcall. eexists _, h'. split; [done|]. split; [|done].
  eapply (ast_content _ "em" content); [set_solver|node|node|done].
Qed.

Lemma builder_well_link :
  builder_well ast "link" (Rule patterns.link link_parse (Some link_output)).
Proof.
  intros source c p state h Hc Hp. cbn [parse]. unfold link_parse.
  destruct (call_well ast (Rule patterns.link link_parse (Some link_output)) 1
              source c p None h) as (content & h' & Hcall & Hast & Hh);
    [exact I|simpl; lia|lia|simpl; lia|done..|].
  destruct (exec_sets patterns.link source c 2) as [target Ht];
    [exact I|exact I|simpl; lia|done|].
  rewrite bind_assoc_run, Hcall. eexists _, h'. split; [done|]. split; [|done].
  rewrite Ht. eapply (ast_link _ content target); [node|node|done|node].
Qed.

Lemma builder_well_codeBlock :
  builder_well ast "codeBlock"
    (Rule patterns.codeBlock codeBlock_parse (Some codeBlock_output)).
Proof.
  intros source c p state h Hc Hp. cbn [parse]. unfold codeBlock_parse.
  apply exec_sound in Hc as [(m & -> & _) _]; [|done].
  rewrite defined_bind. eexists _, h. split; [done|]. split; [|apply extends_refl].
  eapply (ast_string _ "codeBlock"); [set_solver|node|node].
Qed.

Lemma builder_well_text :
  builder_well ast "text" (Rule patterns.text text_parse (Some text_output)).
Proof.
  intros source c p state h Hc Hp. cbn [parse]. unfold text_parse.
  apply exec_sound in Hc as [(m & -> & _) _]; [|done].
  eexists _, h. split; [done|]. split; [|apply extends_refl].
  eapply (ast_string _ "text"); [set_solver|node|node].
Qed.

Lemma builder_well_inlineCode :
  builder_well ast "inlineCode"
    (Rule patterns.inlineCode inlineCode_parse (Some inlineCode_output)).
Proof.
  intros source c p state h Hc Hp. cbn [parse]. unfold inlineCode_parse.
  destruct (exec_sets patterns.inlineCode source c 2) as [s Hs];
    [exact I|exact I|simpl; lia|done|].
  rewrite Hs. eexists _, h. split; [done|]. split; [|apply extends_refl].
  eapply (ast_string _ "inlineCode"); [set_solver|node|node].
Qed.

Lemma builder_well_escape :
  builder_well ast "escape" (Rule patterns.escape escape_parse None).
Proof.
  intros source c p state h Hc Hp. cbn [parse]. unfold escape_parse.
  destruct (exec_sets patterns.escape source c 1) as [s Hs];
    [exact I|exact I|simpl; lia|done|].
  rewrite Hs. eexists _, h. split; [done|]. split; [|apply extends_refl].
  eapply (ast_string _ "text"); [set_solver|node|node].
Qed.

Lemma builder_well_blockQuote :
  builder_well ast "blockQuote"
    (Rule patterns.blockQuote blockQuote_parse (Some (wrap_content "blockquote" ∅))).
Proof.
  intros source c p state h Hc Hp. cbn [parse]. unfold blockQuote_parse.
  apply blockQuote_capture in Hc as (s & t & Hs & -> & Hlen).
  rewrite defined_bind.
  destruct (Hp (Some (replace patterns.quote_marker "" (str (s ++ ">"%char :: t))))
              (Some state) h) as (content & h' & Hcall & Hast & Hh).
  { cbn [from_option].
    pose proof (replace_shorter patterns.quote_marker (str (s ++ ">"%char :: t)) I) as H.
    rewrite chars_str, length_str in H. specialize (H (quote_marker_matches s t Hs)).
    change (min_length (pattern patterns.quote_marker)) with 1 in H. lia. }
  rewrite bind_assoc_run, Hcall. eexists _, h'. split; [done|]. split; [|done].
  eapply (ast_content _ "blockQuote" content); [set_solver|node|node|done].
Qed.

Lemma mapM_M_well {A B} (f : A → M B) (P : A → Prop) (Q : B → Prop) :
  (∀ a h, P a → ∃ b h', f a h = Return (b, h') ∧ Q b ∧ extends h h') →
  ∀ l h, Forall P l →
    ∃ bs h', mapM_M f l h = Return (bs, h') ∧ Forall2 (λ _ b, Q b) l bs
             ∧ extends h h'.
Proof.
  intros Hf. induction l as [|a l IH]; intros h HF.
  - exists [], h. split; [done|]. split; [constructor|apply extends_refl].
  - apply Forall_cons in HF as [Ha HF]. rewrite mapM_M_cons.
    destruct (Hf a h Ha) as (b & h1 & -> & Hb & H1).
    destruct (IH h1 HF) as (bs & h2 & -> & Hbs & H2).
    exists (b :: bs), h2. split; [done|]. split; [by constructor|].
    by eapply extends_trans.
Qed.

Lemma builder_well_list :
  builder_well ast "list" (Rule patterns.list list_parse (Some list_output)).
Proof.
  intros source c p state h Hc Hp. cbn [parse].
  pose proof Hc as [(whole' & Hw' & Hlen) _]%exec_sound; [|done].
  apply list_capture in Hc
    as (bullet & whole & items & contents & Hb & _ & Hw & Hi & Hne & HF).
  simplify_eq.
  rewrite (list_parse_items _ _ _ _ _ _ _ _ Hb Hw Hi HF).
  destruct (mapM_M_well (parse_item p state)
              (λ c, String.length c < String.length source)
              (λ v, ∃ l, v = VArray l ∧ Forall ast l))
    with (l := adjusted false contents) (h := h) as (rs & h' & Hrs & Hast & Hh).
  { intros content h0 Hlt. rewrite parse_item_run.
    destruct (Hp (Some content) (Some state) h0 Hlt) as (r & h1 & -> & Hr & H1).
    eauto 7. }
  { apply adjusted_bound.
    pose proof (match_global_length LIST_ITEM_R _ _ I Hi) as Hitems.
    clear -HF Hitems Hlen. induction HF as [|item content items contents Hc _ IH].
    + constructor.
    + apply Forall_cons in Hitems as [Hitem Hitems]. constructor; [|by apply IH].
      apply item_content_shorter in Hc. lia. }
  rewrite bind_assoc_run, Hrs. eexists _, h'. split; [done|]. split; [|done].
  assert (∃ ls, rs = VArray <$> ls ∧ Forall (Forall ast) ls ∧ ls ≠ [])
    as (ls & -> & Hls & Hne').
  { assert (rs ≠ []) as Hrs'.
    { apply Forall2_length in Hast. rewrite length_adjusted in Hast.
      apply Forall2_length in HF. destruct rs, items; simpl in *; done || lia. }
    clear -Hast Hrs'. revert Hrs'.
    generalize (adjusted false contents). intros cs.
    assert (∃ ls, rs = VArray <$> ls ∧ Forall (Forall ast) ls) as (ls & -> & ?).
    { induction Hast as [|c0 v cs0 rs0 (l & -> & Hl) _ (ls & -> & Hls)].
      - by exists [].
      - exists (l :: ls). split; [done|by constructor]. }
    intros. exists ls. split; [done|]. split; [done|]. by destruct ls. }
  unfold list_node.
  eapply (ast_list _ _ ls); [node|node|node|done|done].
Qed.

Lemma defaultRules_well t r :
  property defaultRules t = Some r → consumes r ∧ builder_well ast t r.
Proof.
  intros H. split; [by eapply defaultRules_contract|].
  apply property_elem_of in H. revert t r H.
  assert (Forall (λ p, builder_well ast p.1 p.2) defaultRules) as HF.
  { repeat apply Forall_cons_2; [..|apply Forall_nil_2]; simpl.
    - apply builder_well_heading.
    - apply builder_well_lheading.
    - apply builder_well_ignoreCapture. set_solver.
    - apply builder_well_codeBlock.
    - apply builder_well_blockQuote.
    - apply builder_well_list.
    - apply builder_well_parseCapture; [set_solver|exact I|simpl; lia..].
    - apply builder_well_escape.
    - apply builder_well_link.
    - apply builder_well_parseCapture; [set_solver|exact I|simpl; lia..].
    - apply builder_well_parseCapture; [set_solver|exact I|simpl; lia..].
    - apply builder_well_em.
    - apply builder_well_parseCapture; [set_solver|exact I|simpl; lia..].
    - apply builder_well_inlineCode.
    - apply builder_well_ignoreCapture. set_solver.
    - apply builder_well_text. }
  intros t r H. rewrite Forall_forall in HF. apply (HF (t, r)). done.
Qed.

Lemma defaultParse_well source :
  ∃ fuel0, ∀ fuel state h, fuel0 ≤ fuel →
    ∃ nodes h', defaultParse fuel (Some source) state h = Return (nodes, h')
                ∧ Forall ast nodes ∧ extends h h'.
Proof.
  destruct (parse_loop_well defaultRules defaultPriorities "text"
              (Rule patterns.text text_parse (Some text_output)) ast)
    with (n := String.length source) as (fuel0 & H).
  - by vm_compute; repeat ((by left) || right).
  - reflexivity.
  - exact text_matches.
  - intros t Ht. unfold defaultPriorities, Object_keys in Ht.
    apply list_elem_of_fmap in Ht as ([t' r] & -> & Hin).
    assert (Forall (λ p, is_Some (property defaultRules p.1)) defaultRules) as HF
      by (repeat apply Forall_cons_2; [..|apply Forall_nil_2]; by eexists).
    rewrite Forall_forall in HF. apply (HF (t', r) Hin).
  - exact defaultRules_well.
  - exists fuel0. intros fuel state h Hf.
    apply (nestedParse_well defaultRules defaultPriorities ast (String.length source));
      [|simpl; lia].
    intros. by apply H.
Qed.

(** ** Rendering the syntax tree of the default rules *)

(** Induction on the syntax tree, with the hypothesis for the nodes
    nested in sequences. *)
Lemma ast_nested_ind (P : value → Prop) :
  (∀ o k l, o !! "type" = Some (VString "heading") →
     o !! "level" = Some (VNumber k) → (1 ≤ k ≤ 6)%Z →
     o !! "content" = Some (VArray l) → Forall P l → P (VObject o)) →
  (∀ o t l, t ∈ ["blockQuote"; "paragraph"; "strong"; "u"; "em"; "del"] →
     o !! "type" = Some (VString t) →
     o !! "content" = Some (VArray l) → Forall P l → P (VObject o)) →
  (∀ o l target, o !! "type" = Some (VString "link") →
     o !! "content" = Some (VArray l) → Forall P l →
     o !! "target" = Some (VString target) → P (VObject o)) →
  (∀ o ordered items, o !! "type" = Some (VString "list") →
     o !! "ordered" = Some (VBool ordered) →
     o !! "items" = Some (VArray (VArray <$> items)) →
     items ≠ [] → Forall (Forall P) items → P (VObject o)) →
  (∀ o t s, t ∈ ["codeBlock"; "inlineCode"; "text"] →
     o !! "type" = Some (VString t) →
     o !! "content" = Some (VString s) → P (VObject o)) →
  (∀ o t, t ∈ ["hr"; "newline"] → o !! "type" = Some (VString t) → P (VObject o)) →
  ∀ v, ast v → P v.
Proof.
  intros H1 H2 H3 H4 H5 H6. fix IH 2.
  assert (∀ l, Forall ast l → Forall P l) as IHl.
  { fix IHl 2. intros l [|v l' Hv Hl']; constructor; [by apply IH|by apply IHl]. }
  intros v [o k l ? ? ? ? Hl|o t l ? ? ? Hl|o l target ? ? Hl ?
           |o ordered items ? ? ? ? Hi|o t s ? ? ?|o t ? ?].
  - eapply H1; eauto.
  - eapply H2; eauto.
  - eapply H3; eauto.
  - eapply H4; eauto. clear -Hi IHl. revert items Hi.
    fix IHi 2. intros items [|l items' Hl Hi']; constructor; [by apply IHl|by apply IHi].
  - eapply H5; eauto.
  - eapply H6; eauto.
Qed.

Lemma mapM_result_returns {A B} (f : A → result B) l :
  Forall (λ a, ∃ b, f a = Return b) l →
  ∃ bs, mapM_result f l = Return bs ∧ length bs = length l.
Proof.
  induction 1 as [|a l [b Hb] _ (bs & Hbs & Hlen)]; [by exists []|].
  exists (b :: bs). cbn [mapM_result]. rewrite Hb, Hbs.
  split; [done|]. simpl. by rewrite Hlen.
Qed.

(** Enough steps for every node of a sequence. *)
Lemma renderable_all l :
  Forall renderable l → ∃ fuel0, ∀ fuel, fuel0 ≤ fuel → Forall (renders fuel) l.
Proof.
  induction 1 as [|v l [f1 Hv] _ [f2 Hl]]; [by exists 0|].
  exists (f1 `max` f2). intros fuel Hf. constructor; [apply Hv|apply Hl]; lia.
Qed.

Lemma renders_array fuel l :
  Forall (renders fuel) l →
  ∃ out, defaultOutput (S fuel) (VArray l) = Return (VArray out)
         ∧ length out = length l.
Proof.
  intros (out & Hout & Hlen)%mapM_result_returns.
  exists out. split; [|done]. unfold defaultOutput, outputFor in *.
  cbn [nestedOutput]. by rewrite Hout.
Qed.

Lemma renderable_array l :
  Forall renderable l →
  ∃ fuel0, ∀ fuel, fuel0 ≤ fuel →
    ∃ out, defaultOutput fuel (VArray l) = Return (VArray out)
           ∧ length out = length l.
Proof.
  intros [f0 H]%renderable_all. exists (S f0). intros [|fuel] Hf; [lia|].
  apply renders_array, H. lia.
Qed.

(** One step of [defaultOutput] on a node: the renderer of its type. *)
Lemma defaultOutput_node fuel o t r f :
  o !! "type" = Some (VString t) →
  property defaultRules t = Some r → output r = Some f →
  defaultOutput (S fuel) (VObject o) = f (VObject o) (defaultOutput fuel).
Proof.
  intros Ht Hr Hf. unfold defaultOutput, outputFor. cbn [nestedOutput].
  unfold ruleOutput, mbind, result_bind. cbn [get_property]. rewrite Ht.
  cbn [default from_option id to_string]. by rewrite Hr, Hf.
Qed.

Lemma wrap_content_renders tag props fuel o l :
  is_Some (React_DOM tag) →
  o !! "content" = Some (VArray l) →
  (∃ out, defaultOutput fuel (VArray l) = Return out) →
  ∃ r, wrap_content tag props (VObject o) (defaultOutput fuel) = Return r.
Proof.
  intros [make Hm] Hc [out Hout]. unfold wrap_content. cbn [get_property].
  rewrite Hc. cbn. rewrite Hout. cbn. unfold element. rewrite Hm. eauto.
Qed.

Lemma ast_renderable v : ast v → renderable v.
Proof.
  induction 1 as [o k l Ht Hk Hr Hc IH|o t l Hin Ht Hc IH|o l target Ht Hc IH Hg
                 |o ordered items Ht Ho Hi Hne IH|o t s Hin Ht Hc|o t Hin Ht]
    using ast_nested_ind.
  - apply renderable_array in IH as [f0 IH]. exists (S f0).
    intros [|fuel] Hf; [lia|]. destruct (IH fuel) as (out & Hout & _); [lia|].
    unfold renders.
    erewrite defaultOutput_node by (done || reflexivity).
    unfold heading_output. cbn [get_property]. rewrite Hk, Hc. cbn.
    rewrite Hout. cbn.
    assert (k = 1 ∨ k = 2 ∨ k = 3 ∨ k = 4 ∨ k = 5 ∨ k = 6)%Z
      as [->|[->|[->|[->|[->| ->]]]]] by lia; by eexists.
  - apply renderable_array in IH as [f0 IH]. exists (S f0).
    intros [|fuel] Hf; [lia|]. destruct (IH fuel) as (out & Hout & _); [lia|].
    unfold renders.
    repeat (apply elem_of_cons in Hin as [->|Hin]);
      [..|by apply elem_of_nil in Hin];
      (erewrite defaultOutput_node by (done || reflexivity));
      (eapply wrap_content_renders; [by eexists|done|by eexists]).
  - apply renderable_array in IH as [f0 IH]. exists (S f0).
    intros [|fuel] Hf; [lia|]. destruct (IH fuel) as (out & Hout & _); [lia|].
    unfold renders.
    erewrite defaultOutput_node by (done || reflexivity).
    unfold link_output. cbn [get_property]. rewrite Hg, Hc. cbn.
    rewrite Hout. cbn. by eexists.
  - assert (∃ f0, ∀ fuel, f0 ≤ fuel →
              Forall (λ l, ∃ out, defaultOutput fuel (VArray l) = Return out) items)
      as [f0 Hitems].
    { clear -IH. induction IH as [|l items Hl _ [f2 IH]]; [by exists 0|].
      apply renderable_array in Hl as [f1 Hl].
      exists (f1 `max` f2). intros fuel Hf. constructor.
      - destruct (Hl fuel) as (out & ? & _); [lia|]. by exists (VArray out).
      - apply IH. lia. }
    exists (S f0). intros [|fuel] Hf; [lia|]. unfold renders.
    erewrite defaultOutput_node by (done || reflexivity).
    unfold list_output. cbn [get_property]. rewrite Ho, Hi. cbn.
    destruct (mapM_result_returns
                (λ item, inner ← defaultOutput fuel item; element "li" ∅ [inner])
                (VArray <$> items)) as (lis & -> & _).
    { apply Forall_fmap. assert (f0 ≤ fuel) as Hf0 by lia.
      eapply Forall_impl; [exact (Hitems fuel Hf0)|].
      intros l [out Hout]. cbn. rewrite Hout. cbn. by eexists. }
    cbn. destruct ordered; by eexists.
  - exists 1. intros [|fuel] Hf; [lia|]. unfold renders.
    repeat (apply elem_of_cons in Hin as [->|Hin]);
      [..|by apply elem_of_nil in Hin];
      (erewrite defaultOutput_node by (done || reflexivity)).
    + unfold codeBlock_output. cbn [get_property]. rewrite Hc. cbn. by eexists.
    + unfold inlineCode_output. cbn [get_property]. rewrite Hc. cbn. by eexists.
    + unfold text_output. cbn [get_property]. rewrite Hc. by eexists.
  - exists 1. intros [|fuel] Hf; [lia|]. unfold renders.
    repeat (apply elem_of_cons in Hin as [->|Hin]);
      [..|by apply elem_of_nil in Hin];
      (erewrite defaultOutput_node by (done || reflexivity)); by eexists.
Qed.

(** ** The default parser and the default output *)


(** X2: what the default parser returns is a syntax tree of the default
    rules: every node, at every depth, has the type of a rule with a
    renderer and the attributes this renderer reads; the level of a
    heading is between 1 and 6; a list has at least one item. *)
Theorem defaultParse_ast source :
  ∃ fuel0, ∀ fuel state h, fuel0 ≤ fuel →
    ∃ nodes h', defaultParse fuel (Some source) state h = Return (nodes, h')
                ∧ Forall ast nodes.
Proof.
  destruct (defaultParse_well source) as [fuel0 H]. exists fuel0.
  intros fuel state h Hf. destruct (H fuel state h Hf) as (nodes & h' & E & Hast & _).
  by exists nodes, h'.
Qed.

(** X3: the default output renders a syntax tree of the default rules: it
    returns, given enough steps, one rendering for each node. *)
Theorem ast_renders nodes :
  Forall ast nodes →
  ∃ fuel0, ∀ fuel, fuel0 ≤ fuel →
    ∃ out, defaultOutput fuel (VArray nodes) = Return (VArray out)
           ∧ length out = length nodes.
Proof.
  intros H. apply renderable_array. eapply Forall_impl; [done|].
  apply ast_renderable.
Qed.

Lemma ast_renders_witness :
  ∃ fuel0, ∀ fuel, fuel0 ≤ fuel →
    ∃ out, defaultOutput fuel
             (VArray [VObject {[ "type" := VString "strong";
                "content" := VArray [VObject {[ "type" := VString "text";
                                                "content" := VString "a" ]}] ]}])
           = Return (VArray out) ∧ length out = 1.
Proof.
  apply (ast_renders [VObject {[ "type" := VString "strong";
           "content" := VArray [VObject {[ "type" := VString "text";
                                           "content" := VString "a" ]}] ]}]).
  repeat constructor.
  eapply (ast_content _ "strong"); [by vm_compute; repeat ((by left) || right)
                                   |reflexivity|reflexivity|].
  repeat constructor.
  eapply (ast_string _ "text"); [by vm_compute; repeat ((by left) || right)
                                |reflexivity|reflexivity].
Defined.


(** ** The patterns of the default rules are anchored *)

(** X6: what a default rule matches is a non-empty prefix of the source:
    [source.substring(capture[0].length)] is the source without the
    matched text. *)
Theorem default_rules_consume_prefix t r source c :
  property defaultRules t = Some r →
  exec (regex r) source = Some c →
  ∃ m, cap c 0 = Some m ∧ 1 ≤ String.length m
       ∧ source = m +:+ substring_from (String.length m) source.
Proof.
  intros Hr Hc. apply property_elem_of in Hr.
  assert (Forall (λ p : string * rule,
            look_free (pattern (regex p.2)) ∧ multiline (regex p.2) = false
            ∧ anchored (pattern (regex p.2))
            ∧ 1 ≤ min_length (pattern (regex p.2))) defaultRules) as HF.
  { repeat apply Forall_cons_2; [..|apply Forall_nil_2];
      (split; [exact I|split; [reflexivity|split; [exact I|simpl; lia]]]). }
  rewrite Forall_forall in HF. destruct (HF (t, r) Hr) as (Hwf & Hml & Ha & Hmin).
  destruct (exec_anchored _ _ _ Hwf Hml Ha Hc) as (m & Hm & Hsrc).
  apply exec_sound in Hc as [(m' & Hm' & Hlen) _]; [|done].
  exists m. simplify_eq. split; [done|]. split; [simpl in *; lia|done].
Qed.

Lemma default_rules_consume_prefix_witness :
  ∃ m, cap [Some "**a**"; Some "a"] 0 = Some m ∧ 1 ≤ String.length m
       ∧ "**a**b" = m +:+ substring_from (String.length m) "**a**b".
Proof.
  apply (default_rules_consume_prefix "strong"
           (Rule patterns.strong parseCapture (Some (wrap_content "strong" ∅)))
           "**a**b" [Some "**a**"; Some "a"]).
  - reflexivity.
  - by vm_compute.
Defined.

(** ** A rule missing from the table *)

Lemma try_rules_missing rules source k before t after :
  Forall (λ t', ∃ r', property rules t' = Some r'
                      ∧ exec (regex r') source = None) before →
  property rules t = None →
  try_rules rules source k (before ++ t :: after) = NoSuchRule.
Proof.
  intros Hb Hr. revert k.
  induction Hb as [|t' before (r' & Hr' & Hn) _ IH]; intros k; simpl.
  - by rewrite Hr.
  - by rewrite Hr', Hn, IH.
Qed.

(** X7: when the rule list names a type that the table of rules does not
    have, and no rule listed before it matches the source, [parse]
    throws a TypeError (reading [regex] of undefined). *)
Theorem missing_rule_throws rules before t after fuel source state h :
  source ≠ "" →
  Forall (λ t', ∃ r', property rules t' = Some r'
                      ∧ exec (regex r') source = None) before →
  property rules t = None →
  parserFor rules (before ++ t :: after) (S fuel) (Some source) state h
  = Throw TypeError.
Proof.
  intros Hs Hb Hr. unfold parserFor, nestedParse, mbind, M_bind.
  destruct state as [st|]; cbn [state_or_new new_object];
    apply parse_loop_no_such_rule; by try apply try_rules_missing.
Qed.

Lemma missing_rule_throws_witness :
  parserFor defaultRules ["heading"; "footnote"; "text"] 1 (Some "a") None []
  = Throw TypeError.
Proof.
  apply (missing_rule_throws defaultRules ["heading"] "footnote" ["text"] 0 "a").
  - done.
  - repeat constructor. eexists. split; [reflexivity|by vm_compute].
  - reflexivity.
Defined.

(** ** A source without markup is one text node *)

Lemma elem_of_all_ascii ch : ch ∈ all_ascii.
Proof.
  unfold all_ascii. apply list_elem_of_fmap. exists (nat_of_ascii ch).
  split; [by rewrite ascii_nat_embedding|].
  apply elem_of_seq. pose proof (nat_ascii_bounded ch). lia.
Qed.

Lemma demands_steps P ml r x y :
  steps ml r x y → demands P r →
  ∃ w, rest x = w ++ rest y ∧ Exists (λ ch, P ch = false) w.
Proof.
  induction 1 as [x|neg items x ch t Hx Hc|a b x y z Sa IHa Sb IHb
                 |a b x y _ IH|a b x y _ IH
                 |g min max a x Hm|g min max a x y z Hmax Sa IHa Hn Sr IHr
                 |j a x y Sa IH|j x Hj|j x s Hj Hs|a x y _ IH|a x Hn
                 |x Hb|x He|x Hw]; cbn [demands]; try done.
  - intros Hd. exists [ch]. unfold advance. rewrite Hx. cbn. rewrite drop_0.
    split; [done|]. constructor.
    apply Is_true_true in Hd. rewrite forallb_forall in Hd.
    specialize (Hd ch). rewrite <- list_elem_of_In in Hd.
    specialize (Hd (elem_of_all_ascii ch)). rewrite Hc in Hd.
    by destruct (P ch).
  - apply steps_text in Sa as Ta. apply steps_text in Sb as Tb.
    destruct Ta as [wa Ta], Tb as [wb Tb].
    intros [Hd|Hd]%orb_prop_elim.
    + destruct (IHa Hd) as (w & Hw & He). exists (w ++ wb).
      split; [by rewrite Hw, Tb, app_assoc|]. apply Exists_app. by left.
    + destruct (IHb Hd) as (w & Hw & He). exists (wa ++ w).
      split; [by rewrite Ta, Hw, app_assoc|]. apply Exists_app. by right.
  - intros [??]%andb_prop_elim. auto.
  - intros [??]%andb_prop_elim. auto.
  - intros [[H1 H2]%andb_prop_elim _]%andb_prop_elim.
    apply bool_decide_unpack in H1. apply bool_decide_unpack in H2.
    destruct Hm as [->| ->]; [lia|done].
  - intros [_ Hd]%andb_prop_elim.
    destruct (IHa Hd) as (w & Hw & He). rewrite reset_caps_rest in Hw.
    apply steps_text in Sr as [wr Tr]. exists (w ++ wr).
    split; [by rewrite Hw, Tr, app_assoc|]. apply Exists_app. by left.
Qed.

(** A pattern that demands a character outside [P] matches no string of
    characters of [P]. *)
Lemma demands_no_match (P : ascii → bool) re source :
  look_free (pattern re) → demands P (pattern re) →
  Forall P (chars source) → exec re source = None.
Proof.
  intros Hwf Hd Hp. unfold exec.
  destruct (scan _ _ _ _) as [f|] eqn:E; [|done]. exfalso.
  apply captures_scan in E as (sk & w & Hin & _ & _ & Hm); [|done].
  apply matcher_steps in Hm as (y & Hs & [= ->]).
  apply (demands_steps P) in Hs as (w' & Hw & He); [|done]. cbn [rest] in Hw.
  apply app_inv_tail in Hw as <-.
  rewrite Hin in Hp. apply Forall_app in Hp as [_ Hp]. apply Forall_app in Hp as [Hp _].
  apply Exists_exists in He as (ch & Hch & Hn).
  rewrite Forall_forall in Hp. specialize (Hp ch Hch). by rewrite Hn in Hp.
Qed.

Lemma steps_look_inv ml a x z :
  steps ml (Look true a) x z →
  ∃ y, steps ml a x y ∧ z = MState (prev x) (rest x) (caps y).
Proof. inversion 1; eauto. Qed.

(** On a source of plain characters the text pattern matches the whole
    source: nothing stops it before the end. *)
Lemma text_plain source :
  source ≠ "" → Forall is_plain (chars source) →
  exec patterns.text source = Some [Some source].
Proof.
  intros Hne Hp. pose proof (text_matches source Hne) as Hm. unfold exec in *.
  destruct (scan _ _ _ _) as [f|] eqn:E; [|done]. clear Hm. cbn [fmap option_fmap option_map].
  apply captures_scan in E as (sk & w & Hin & Hc & N & Hm); [|done].
  apply matcher_steps in Hm as (y & Hs & [= ->]).
  pose proof (anchored_steps (pattern patterns.text) _ _ I Hs) as Hsk. cbn [prev] in Hsk.
  apply last_of_None in Hsk as ->. cbn [app] in *.
  cbn [patterns.text pattern Cat] in Hs.
  apply steps_seq_inv in Hs as (x0 & Hbol & Hs). inversion Hbol; subst x0.
  apply steps_seq_inv in Hs as (y1 & [v Hv]%steps_text & Hl).
  apply steps_look_inv in Hl as (y2 & Hl & Hy). rewrite Hy in *. cbn [rest caps] in *.
  assert (Forall is_plain (rest y1)) as Hp1.
  { rewrite Hin, Hv in Hp. by apply Forall_app in Hp as [_ Hp]. }
  assert (∀ a, demands is_plain a → ¬ steps false a y1 y2) as Hno.
  { intros a Hd Hst. apply (demands_steps is_plain) in Hst as (w' & Hw' & He); [|done].
    rewrite Hw' in Hp1. apply Forall_app in Hp1 as [Hp1 _].
    apply Exists_exists in He as (ch & Hch & Hn).
    rewrite Forall_forall in Hp1. specialize (Hp1 ch Hch). by rewrite Hn in Hp1. }
  apply steps_alt_inv in Hl as [Hl|Hl]; [by apply Hno in Hl|].
  apply steps_alt_inv in Hl as [Hl|Hl]; [by apply Hno in Hl|].
  apply steps_alt_inv in Hl as [Hl|Hl]; [by apply Hno in Hl|].
  inversion Hl as [| | | | | | | | | | | | |? He|]; subst.
  unfold at_eol in He. destruct (rest y2) as [|ch t] eqn:Hr; [|done].
  rewrite app_nil_r in Hin. rewrite Hc, <- Hin, str_chars.
  destruct (caps y2) as [|o [|??]]; simpl in N; try lia. done.
Qed.

Lemma substring_from_length s : substring_from (String.length s) s = "".
Proof. unfold substring_from. by rewrite <- length_chars, drop_all. Qed.

Lemma text_node_eq source :
  extend {[ "type" := VString "text" ]} {[ "content" := VString source ]}
  = {[ "type" := VString "text"; "content" := VString source ]}.
Proof.
  apply map_eq. intros k. unfold extend. rewrite lookup_union.
  destruct (decide (k = "type")) as [->|Ht].
  { rewrite lookup_singleton_ne by done. by rewrite lookup_singleton_eq, lookup_insert_eq. }
  rewrite (lookup_singleton_ne "type"), lookup_insert_ne by done.
  by destruct (_ !! k).
Qed.

(** No rule but [text] matches a source of plain characters. *)
Lemma try_rules_plain source :
  source ≠ "" → Forall is_plain (chars source) →
  try_rules defaultRules source 0 defaultPriorities
  = Matched 15 "text" (Rule patterns.text text_parse (Some text_output))
      [Some source].
Proof.
  intros Hne Hp.
  change defaultPriorities with
    (["heading"; "lheading"; "hr"; "codeBlock"; "blockQuote"; "list"; "paragraph";
      "escape"; "link"; "strong"; "u"; "em"; "del"; "inlineCode"; "newline"]
     ++ "text" :: []).
  apply (try_rules_first defaultRules source 0); [|done|by apply text_plain].
  repeat apply Forall_cons_2; [..|apply Forall_nil_2];
    (eexists; split; [reflexivity|]);
    (apply (demands_no_match is_plain); [exact I|by vm_compute|done]).
Qed.

(** X8: a source of plain characters is parsed as one text node holding the
    source, and rendered as the source. *)
Theorem plain_text_passes_through source fuel state h :
  source ≠ "" → Forall is_plain (chars source) →
  ∃ h', defaultParse (S (S fuel)) (Some source) state h
        = Return ([VObject {[ "type" := VString "text";
                              "content" := VString source ]}], h')
        ∧ extends h h'
        ∧ defaultOutput (S (S fuel))
            (VArray [VObject {[ "type" := VString "text";
                                "content" := VString source ]}])
          = Return (VArray [VString source]).
Proof.
  intros Hne Hp.
  assert (∀ st h0, parse_loop defaultRules defaultPriorities (S (S fuel)) source [] st h0
                   = Return ([VObject {[ "type" := VString "text";
                                         "content" := VString source ]}], h0)) as Hloop.
  { intros st h0.
    rewrite (parse_loop_matched _ _ _ _ _ _ 15 "text"
               (Rule patterns.text text_parse (Some text_output)) [Some source] source)
      by (done || by apply try_rules_plain).
    cbn [parse]. unfold text_parse. rewrite bind_assoc_run. cbn [mret M_ret].
    change (cap [Some source] 0) with (Some source). cbn [of_string].
    rewrite substring_from_length, parse_loop_empty, text_node_eq. done. }
  assert (defaultOutput (S (S fuel))
            (VArray [VObject {[ "type" := VString "text";
                                "content" := VString source ]}])
          = Return (VArray [VString source])) as Hout.
  { change (VArray <$> mapM_result (defaultOutput (S fuel))
                         [VObject {[ "type" := VString "text";
                                     "content" := VString source ]}]
            = Return (VArray [VString source])).
    cbn [mapM_result].
    erewrite defaultOutput_node by (done || reflexivity).
    unfold text_output. cbn [get_property]. by rewrite lookup_insert_ne, lookup_singleton_eq. }
  destruct state as [st|].
  - exists h. split; [exact (Hloop st h)|]. split; [apply extends_refl|done].
  - exists (h ++ [∅]). split; [exact (Hloop (length h) (h ++ [∅]))|].
    split; [by exists 1|done].
Qed.

Lemma plain_text_passes_through_witness :
  ∃ h', defaultParse 2 (Some "Hello world") None []
        = Return ([VObject {[ "type" := VString "text";
                              "content" := VString "Hello world" ]}], h')
        ∧ extends [] h'
        ∧ defaultOutput 2
            (VArray [VObject {[ "type" := VString "text";
                                "content" := VString "Hello world" ]}])
          = Return (VArray [VString "Hello world"]).
Proof.
  apply (plain_text_passes_through "Hello world" 0 None []).
  - done.
  - by vm_compute; repeat constructor.
Defined.

(** ** The content of a code block *)

Lemma newlines_here p l :
  matcher false (pattern patterns.trailing_newlines) (MState p l [None]) Some
  = if forallb (λ c, bool_decide (c = LF)) l && bool_decide (1 ≤ length l)
    then Some (MState (last_of p l) [] [None]) else None.
Proof.
  cbn [patterns.trailing_newlines pattern matcher Plus rest groups nl Chr].
  by rewrite greedy_newlines by lia.
Qed.

(** [/\n+$/] matches the run of newlines that ends the string. *)
Lemma newlines_scan l : ∀ p idx,
  scan patterns.trailing_newlines p l idx
  = if bool_decide (1 ≤ blank_suffix l)
    then Some (Found (idx + (length l - blank_suffix l))
                 [Some (str (drop (length l - blank_suffix l) l))]
                 (MState (last_of p l) [] [None]))
    else None.
Proof.
  induction l as [|ch t IH]; intros p idx; [done|].
  cbn [scan]. cbn [groups patterns.trailing_newlines pattern Plus nl Chr app length
                   replicate multiline].
  pose proof (newlines_here p (ch :: t)) as H.
  cbn [patterns.trailing_newlines pattern multiline] in H. rewrite H. clear H.
  cbn [blank_suffix]. pose proof (blank_suffix_le t).
  destruct (forallb _ (ch :: t)) eqn:Hall.
  - cbn [andb]. rewrite (bool_decide_eq_true_2 (1 ≤ length (ch :: t))) by (simpl; lia).
    rewrite (bool_decide_eq_true_2 (1 ≤ S (length t))) by lia.
    cbn [rest length]. replace (S (length t) - S (length t)) with 0 by lia.
    replace (S (length t) - 0) with (length (ch :: t)) by (simpl; lia).
    rewrite firstn_all, drop_0. cbn. by rewrite Nat.add_0_r.
  - cbn [andb]. rewrite IH, (last_of_cons p ch t).
    case_bool_decide; [|done]. do 2 f_equal.
    + lia.
    + replace (S (length t) - blank_suffix t)
        with (S (length t - blank_suffix t)) by lia. done.
Qed.

Lemma replace_trailing_newlines s :
  replace patterns.trailing_newlines "" s
  = if bool_decide (1 ≤ blank_suffix (chars s))
    then str (take (length (chars s) - blank_suffix (chars s)) (chars s))
    else s.
Proof.
  unfold replace. cbn [patterns.trailing_newlines global]. rewrite newlines_scan.
  destruct (bool_decide (1 ≤ blank_suffix (chars s))); [|done].
  cbn [index after rest]. rewrite Nat.add_0_l. cbn. by rewrite append_empty_r.
Qed.

Lemma blank_suffix_drop l :
  forallb (λ c, bool_decide (c = LF)) (drop (length l - blank_suffix l) l) = true.
Proof.
  induction l as [|ch t IH]; [done|]. cbn [blank_suffix].
  pose proof (blank_suffix_le t).
  destruct (forallb _ (ch :: t)) eqn:Hall.
  - cbn [length]. by rewrite Nat.sub_diag.
  - cbn [length]. replace (S (length t) - blank_suffix t)
      with (S (length t - blank_suffix t)) by lia. done.
Qed.

Lemma blank_suffix_take l :
  blank_suffix (take (length l - blank_suffix l) l) = 0.
Proof.
  induction l as [|ch t IH]; [done|]. cbn [blank_suffix].
  pose proof (blank_suffix_le t).
  destruct (forallb _ (ch :: t)) eqn:Hall.
  - cbn [length]. by rewrite Nat.sub_diag.
  - cbn [length]. replace (S (length t) - blank_suffix t)
      with (S (length t - blank_suffix t)) by lia.
    cbn [take blank_suffix].
    destruct (forallb _ (ch :: take _ t)) eqn:Hall'; [|done].
    exfalso. cbn [forallb] in Hall, Hall'.
    apply andb_prop in Hall' as [Hch Ht]. rewrite Hch in Hall. cbn [andb] in Hall.
    rewrite <- (take_drop (length t - blank_suffix t) t), forallb_app in Hall.
    by rewrite Ht, blank_suffix_drop in Hall.
Qed.

Lemma blank_suffix_last l : blank_suffix l = 0 → last l ≠ Some LF.
Proof.
  induction l as [|ch t IH]; [done|]. cbn [blank_suffix].
  destruct (forallb _ (ch :: t)) eqn:Hall; [done|]. intros H0.
  destruct t as [|ch' t]; [|by apply IH].
  cbn in Hall. intros [= ->]. by rewrite bool_decide_eq_true_2 in Hall.
Qed.

(** X9: the builder of a code block returns its text without the run of
    newlines that ends it: the content does not end with a newline, and
    it is no longer than the source; the parse function is not called. *)
Theorem codeBlock_content source capture parse state h :
  exec patterns.codeBlock source = Some capture →
  ∃ content,
    codeBlock_parse capture parse state h
    = Return ({[ "content" := VString content ]}, h)
    ∧ last (chars content) ≠ Some LF
    ∧ String.length content ≤ String.length source.
Proof.
  intros [(whole & Hw & Hlen) _]%exec_sound; [|done].
  unfold codeBlock_parse. rewrite Hw, defined_bind.
  eexists. split; [done|]. split.
  - rewrite replace_trailing_newlines. case_bool_decide as Hb.
    + rewrite chars_str. apply blank_suffix_last, blank_suffix_take.
    + apply blank_suffix_last. lia.
  - pose proof (length_replace patterns.trailing_newlines
                  (replace patterns.indent4 "" whole) I).
    pose proof (length_replace patterns.indent4 whole I). lia.
Qed.

Lemma codeBlock_content_witness :
  ∃ content,
    codeBlock_parse [Some (js "    a\n\n")] (defaultParse 0) 0 [∅]
    = Return ({[ "content" := VString content ]}, [∅])
    ∧ last (chars content) ≠ Some LF
    ∧ String.length content ≤ 7.
Proof.
  apply (codeBlock_content (js "    a\n\n")). by vm_compute.
Defined.

(** ** A source of newlines *)

Lemma newline_all k :
  exec patterns.newline (str (replicate (S k) LF))
  = Some [Some (str (replicate (S k) LF))].
Proof.
  unfold exec. rewrite chars_str.
  assert (matcher false (pattern patterns.newline)
            (MState None (replicate (S k) LF ++ [])
               (replicate (S (length (groups (pattern patterns.newline)))) None)) Some
          = Some (MState (last_of None (replicate (S k) LF)) []
                    (replicate (S (length (groups (pattern patterns.newline)))) None)))
    as Hm.
  { cbn [patterns.newline pattern]. rewrite matcher_seq, matcher_bol. cbn [at_bol prev].
    unfold Plus, nl, Chr. rewrite matcher_rep. cbn [groups rest].
    apply greedy_run_first; [|done|simpl; lia|done|lia|done].
    apply Forall_forall. intros ch ->%elem_of_replicate_inv. by vm_compute. }
  rewrite app_nil_r in Hm. rewrite (scan_here_eq patterns.newline _ _ 0 _ Hm).
  cbn [fmap option_fmap option_map captures rest caps length].
  rewrite Nat.sub_0_r, firstn_all. done.
Qed.

Lemma try_rules_newlines k :
  try_rules defaultRules (str (replicate (S k) LF)) 0 defaultPriorities
  = Matched 14 "newline" (Rule patterns.newline ignoreCapture (Some newline_output))
      [Some (str (replicate (S k) LF))].
Proof.
  change defaultPriorities with
    (["heading"; "lheading"; "hr"; "codeBlock"; "blockQuote"; "list"; "paragraph";
      "escape"; "link"; "strong"; "u"; "em"; "del"; "inlineCode"]
     ++ "newline" :: ["text"]).
  apply (try_rules_first defaultRules _ 0); [|done|by apply newline_all].
  assert (Forall is_newline (chars (str (replicate (S k) LF)))) as Hp.
  { rewrite chars_str. apply Forall_forall. intros ch ->%elem_of_replicate_inv.
    by vm_compute. }
  repeat apply Forall_cons_2; [..|apply Forall_nil_2];
    (eexists; split; [reflexivity|]);
    (apply (demands_no_match is_newline); [exact I|by vm_compute|done]).
Qed.

(** X10: the empty source gives no node; a source of newlines gives one
    [newline] node, rendered as a space. *)
Theorem blank_source fuel state h :
  (∃ h', defaultParse (S fuel) (Some "") state h = Return ([], h') ∧ extends h h')
  ∧ ∀ k, ∃ h',
      defaultParse (S (S fuel)) (Some (str (replicate (S k) LF))) state h
      = Return ([VObject {[ "type" := VString "newline" ]}], h')
      ∧ extends h h'
      ∧ defaultOutput (S (S fuel)) (VArray [VObject {[ "type" := VString "newline" ]}])
        = Return (VArray [VString " "]).
Proof.
  split.
  { destruct state as [st|].
    - exists h. split; [done|apply extends_refl].
    - exists (h ++ [∅]). split; [done|by exists 1]. }
  intros k.
  assert (∀ st h0, parse_loop defaultRules defaultPriorities (S (S fuel))
                     (str (replicate (S k) LF)) [] st h0
                   = Return ([VObject {[ "type" := VString "newline" ]}], h0)) as Hloop.
  { intros st h0.
    rewrite (parse_loop_matched _ _ _ _ _ _ 14 "newline"
               (Rule patterns.newline ignoreCapture (Some newline_output))
               [Some (str (replicate (S k) LF))] (str (replicate (S k) LF)))
      by (done || by apply try_rules_newlines).
    cbn [parse]. unfold ignoreCapture. rewrite bind_assoc_run. cbn [mret M_ret].
    rewrite substring_from_length, parse_loop_empty.
    unfold extend. by rewrite (left_id_L ∅ (∪)). }
  destruct state as [st|].
  - exists h. split; [exact (Hloop st h)|]. split; [apply extends_refl|done].
  - exists (h ++ [∅]). split; [exact (Hloop (length h) (h ++ [∅]))|].
    split; [by exists 1|done].
Qed.

(** ** The content of an emphasis *)

Lemma steps_look_not_inv ml a x z : steps ml (Look false a) x z → z = x.
Proof. by inversion 1. Qed.

Lemma steps_word_inv ml x z : steps ml WordB x z → z = x.
Proof. by inversion 1. Qed.

Lemma steps_bol_inv ml x z : steps ml Bol x z → z = x.
Proof. by inversion 1. Qed.

(** What a group captures when its body has no group: the text its body
    took, of at least the least length of the body. *)
Lemma steps_group_text ml j a x z :
  groups a = [] → look_free a → j < length (caps x) →
  steps ml (Group j a) x z →
  ∃ s, caps z !! j = Some (Some s) ∧ min_length a ≤ String.length s
       ∧ ∀ i, i ≠ j → caps z !! i = caps x !! i.
Proof.
  intros Hg Hwf Hj (y & Hs & ->)%steps_group_inv.
  pose proof (steps_follows _ _ _ _ Hs Hwf) as [L C N _].
  apply steps_text in Hs as [w Hw]. rewrite Hw, take_app_sub in *.
  exists (str w). cbn [caps]. split; [|split].
  - apply list_lookup_insert_eq. lia.
  - rewrite length_str. rewrite length_app in L. lia.
  - intros i Hi. rewrite list_lookup_insert_ne by done. apply C.
    rewrite Hg. apply not_elem_of_nil.
Qed.

(** In a match of the emphasis pattern exactly one of the two groups
    takes part, and it is not empty: [capture[2] || capture[1]] is a
    non-empty string, shorter than the source. *)
Lemma em_capture source c :
  exec patterns.em source = Some c →
  ∃ s, or_else (cap c 2) (cap c 1) = Some s ∧ 1 ≤ String.length s < String.length source
       ∧ (cap c 1 = None ∨ cap c 2 = None).
Proof.
  intros Hc. pose proof Hc as Hspec%exec_sound; [|done].
  unfold exec in Hc. destruct (scan _ _ _ _) as [f|] eqn:E; [|done].
  injection Hc as <-.
  apply captures_scan in E as (sk & w & Hin & Hc & N & Hm); [|done].
  apply matcher_steps in Hm as (y & Hs & [= ->]).
  cbn [patterns.em pattern Cat multiline] in Hs.
  assert (∀ i s, 1 ≤ i → cap (captures f) i = Some s →
                 1 ≤ slack (pattern patterns.em) i →
                 String.length s < String.length source) as Hshort.
  { intros i s Hi Hs' Hsl. destruct Hspec as [_ Hg]. specialize (Hg i s Hi Hs'). lia. }
  apply steps_alt_inv in Hs as [Hs|Hs].
  - apply steps_seq_inv in Hs as (x0 & ->%steps_bol_inv & Hs).
    apply steps_seq_inv in Hs as (x1 & ->%steps_word_inv & Hs).
    apply steps_seq_inv in Hs as (x2 & (t & Hx & ->)%steps_chr_inv & Hs).
    apply steps_seq_inv in Hs as (x3 & Hg & Hs).
    apply steps_group_text in Hg as (s & H1 & Hlen & Hother);
      [|done|done|cbn; lia].
    pose proof (steps_follows _ _ _ _ Hs I) as [_ C _ _].
    assert (cap (captures f) 1 = Some s) as E1.
    { unfold cap. rewrite Hc, list_lookup_insert_ne by done.
      rewrite (C 1) by apply not_elem_of_nil. by rewrite H1. }
    assert (cap (captures f) 2 = None) as E2.
    { unfold cap. rewrite Hc, list_lookup_insert_ne by done.
      rewrite (C 2) by apply not_elem_of_nil. by rewrite Hother. }
    exists s. rewrite E1, E2. split; [done|]. split; [|by right].
    split; [simpl in Hlen; lia|]. apply (Hshort 1); [lia|done|simpl; lia].
  - apply steps_seq_inv in Hs as (x0 & ->%steps_bol_inv & Hs).
    apply steps_seq_inv in Hs as (x2 & (t & Hx & ->)%steps_chr_inv & Hs).
    apply steps_seq_inv in Hs as (x3 & Hg & Hs).
    apply steps_group_text in Hg as (s & H2 & Hlen & Hother);
      [|done|done|cbn; lia].
    pose proof (steps_follows _ _ _ _ Hs I) as [_ C _ _].
    assert (cap (captures f) 2 = Some s) as E2.
    { unfold cap. rewrite Hc, list_lookup_insert_ne by done.
      rewrite (C 2) by apply not_elem_of_nil. by rewrite H2. }
    assert (cap (captures f) 1 = None) as E1.
    { unfold cap. rewrite Hc, list_lookup_insert_ne by done.
      rewrite (C 1) by apply not_elem_of_nil. by rewrite Hother. }
    exists s. rewrite E1, E2. simpl in Hlen. split.
    + unfold or_else. rewrite bool_decide_eq_false_2; [done|].
      intros ->. simpl in Hlen. lia.
    + split; [|by left]. split; [lia|]. apply (Hshort 2); [lia|done|simpl; lia].
Qed.

(** X11: the builder of the emphasis rule hands a non-empty string, shorter
    than the source, to the parse function (never [undefined]), with the
    state it was given, and wraps what the parse function returns. *)
Theorem em_content source c p state h :
  exec patterns.em source = Some c →
  ∃ s, 1 ≤ String.length s < String.length source
       ∧ (cap c 1 = Some s ∧ cap c 2 = None ∨ cap c 1 = None ∧ cap c 2 = Some s)
       ∧ em_parse c p state h
         = (content ← p (Some s) (Some state);
            mret {[ "content" := VArray content ]}) h.
Proof.
  intros (s & Hs & Hlen & Hone)%em_capture. exists s. split; [done|].
  unfold em_parse. rewrite Hs. split; [|done].
  unfold or_else in Hs. destruct Hone as [H1|H2].
  - right. rewrite H1 in *. destruct (cap c 2) as [s2|]; [|done].
    by case_bool_decide.
  - left. rewrite H2 in *. done.
Qed.

Lemma em_content_witness :
  ∃ s, 1 ≤ String.length s < 3
       ∧ (cap [Some "*a*"; None; Some "a"] 1 = Some s
          ∧ cap [Some "*a*"; None; Some "a"] 2 = None
          ∨ cap [Some "*a*"; None; Some "a"] 1 = None
            ∧ cap [Some "*a*"; None; Some "a"] 2 = Some s)
       ∧ em_parse [Some "*a*"; None; Some "a"] (defaultParse 3) 0 [∅]
         = (content ← defaultParse 3 (Some s) (Some 0);
            mret {[ "content" := VArray content ]}) [∅].
Proof.
  apply (em_content "*a*"). by vm_compute.
Defined.
